(** * The templar validator: window loop, reputation scores and weights

    A shallow embedding of [neurons/validator.py] (class [Validator], its
    [run] loop and [min_power_normalization]) together with the properties
    the specification states about it.

    Conventions of the embedding.
    - Python floats and float32 tensor entries are exact rationals ([Q]);
      equalities between scores are stated with [==] ([Qeq]).
    - A one-dimensional tensor is a [list Q]; indexing a tensor out of range
      raises [IndexError], as torch does.
    - Python dicts are [gmap]s, the set [evaluated_uids] is a [gset].
    - [Validator.run] mutates [self] and may raise: it is written in a
      state-and-exception monad [M] over the record [Validator]; the state
      reached when an exception escapes is kept, because [try/finally]
      observes it.
    - Everything the external collaborators hand to one loop iteration
      (catch-up outcome, refreshed peer lists, gathered and fetched payloads,
      dataset batches, random draws) is the iteration's input, a [Window].
      The forward pass, the gradient codec and the learning-rate schedule are
      section variables. *)

From Stdlib Require Import QArith Qabs Qround Qpower Lqa ZArith.
From stdpp Require Import gmap strings list fin_maps sorting.

Local Open Scope Q_scope.

(** ** Numbers and tensors *)

Abbreviation Tensor := (list Q).

(** [int(x)] on a float: truncation towards zero. *)
Definition int_of (x : Q) : Z := Z.quot (Qnum x) (Z.pos (Qden x)).

(** Python's [max(a, b)] on numbers: [b] only when it is strictly larger. *)
Definition py_max (a b : Q) : Q := if Qlt_le_dec a b then b else a.

(** [torch.sign] of one entry. *)
Definition sign (x : Q) : Q := inject_Z (Z.sgn (Qnum x)).

(** [t.sign_()]. *)
Definition sign_ (t : Tensor) : Tensor := map sign t.

(** [t.sub_(g, alpha=a)]: entrywise [t - a * g]. *)
Definition sub_ (t g : Tensor) (a : Q) : Tensor :=
  zip_with (fun x y => x - a * y) t g.

(** [torch.sum]. *)
Definition tensor_sum (t : Tensor) : Q := foldr Qplus 0 t.

(** [torch.zeros_like]. *)
Definition zeros_like (t : Tensor) : Tensor := map (fun _ => 0) t.

(** ** Exceptions and results *)

Inductive exn : Type :=
  | IndexError
  | KeyError
  | ValueError
  | ZeroDivisionError
  | UnboundLocalError
  | RuntimeError
  | CollaboratorError.

Inductive Res (A : Type) : Type :=
  | Val (a : A)
  | Exn (e : exn).
Arguments Val {A} a.
Arguments Exn {A} e.

(** [t[i].item()]. *)
Definition item (t : Tensor) (i : nat) : Res Q :=
  match t !! i with
  | Some x => Val x
  | None => Exn IndexError
  end.

(** A collaborator call that either answers or raises. *)
Definition answered {A : Type} (o : option A) : Res A :=
  match o with
  | Some a => Val a
  | None => Exn CollaboratorError
  end.

(** ** The data model *)

(** A parameter of the network: [p.data] and [p.grad]. *)
Record Param : Type := mkParam {
  data : Tensor;
  grad : option Tensor
}.

(** The network as the validator sees it: [model.named_parameters()] in
    registration order, and the train/eval flag. *)
Record Model : Type := mkModel {
  named_parameters : list (string * Param);
  training : bool
}.

(** [SGD(model.parameters(), lr=...)] without momentum or weight decay: one
    parameter group, no per-parameter state. *)
Record Optimizer : Type := mkOptimizer {
  lr : Q
}.

(** The [SequentialLR] scheduler: its step counter and [get_last_lr()[0]]. *)
Record Scheduler : Type := mkScheduler {
  last_epoch : nat;
  last_lr : Q
}.

(** The fields of [hparams] the loop reads. *)
Record Hparams : Type := mkHparams {
  blocks_per_window : Z;
  validator_offset : Z;
  ma_alpha : Q;
  power_normalisation : nat;
  validator_sample_rate : Q;
  windows_per_weights : Z;
  checkpoint_frequency : Z
}.

(** [checkpoint_data] of step 15. *)
Record Checkpoint : Type := mkCheckpoint {
  model_state_dict : list (string * Tensor);
  optimizer_state_dict : Optimizer;
  scheduler_state_dict : Scheduler;
  ck_momentum : gmap string Tensor;
  ck_start_window : Z;
  ck_current_window : Z;
  ck_global_step : Z
}.

(** What the loop hands to the outside without waiting for an answer. *)
Inductive Event : Type :=
  | SetWeights (weights : Tensor)
  | PutCheckpoint (c : Checkpoint).

(** [self] of the validator.  [score_bound] records whether the local
    variables [loss_before_own], [loss_after_own] and [score] of [run] have
    been bound by an earlier successful evaluation; [emitted] lists the
    outward calls, newest first. *)
Record Validator : Type := mkValidator {
  uid : nat;
  hparams : Hparams;
  model : Model;
  optimizer : Optimizer;
  scheduler : Scheduler;
  momentum : gmap string Tensor;
  current_window : Z;
  start_window : Z;
  global_step : Z;
  sync_window : Z;
  moving_avg_scores : Tensor;
  evaluated_uids : gset nat;
  peers : list nat;
  eval_peers : list nat;
  inactive_scores : gmap nat (Z * Q);
  binary_moving_averages : gmap nat Q;
  score_bound : bool;
  emitted : list Event
}.

Definition with_model (x : Model) (s : Validator) : Validator :=
  mkValidator (uid s) (hparams s) x (optimizer s) (scheduler s) (momentum s)
    (current_window s) (start_window s) (global_step s) (sync_window s)
    (moving_avg_scores s) (evaluated_uids s) (peers s) (eval_peers s)
    (inactive_scores s) (binary_moving_averages s) (score_bound s) (emitted s).

Definition with_optimizer (x : Optimizer) (s : Validator) : Validator :=
  mkValidator (uid s) (hparams s) (model s) x (scheduler s) (momentum s)
    (current_window s) (start_window s) (global_step s) (sync_window s)
    (moving_avg_scores s) (evaluated_uids s) (peers s) (eval_peers s)
    (inactive_scores s) (binary_moving_averages s) (score_bound s) (emitted s).

Definition with_scheduler (x : Scheduler) (s : Validator) : Validator :=
  mkValidator (uid s) (hparams s) (model s) (optimizer s) x (momentum s)
    (current_window s) (start_window s) (global_step s) (sync_window s)
    (moving_avg_scores s) (evaluated_uids s) (peers s) (eval_peers s)
    (inactive_scores s) (binary_moving_averages s) (score_bound s) (emitted s).

Definition with_momentum (x : gmap string Tensor) (s : Validator) : Validator :=
  mkValidator (uid s) (hparams s) (model s) (optimizer s) (scheduler s) x
    (current_window s) (start_window s) (global_step s) (sync_window s)
    (moving_avg_scores s) (evaluated_uids s) (peers s) (eval_peers s)
    (inactive_scores s) (binary_moving_averages s) (score_bound s) (emitted s).

Definition with_current_window (x : Z) (s : Validator) : Validator :=
  mkValidator (uid s) (hparams s) (model s) (optimizer s) (scheduler s)
    (momentum s) x (start_window s) (global_step s) (sync_window s)
    (moving_avg_scores s) (evaluated_uids s) (peers s) (eval_peers s)
    (inactive_scores s) (binary_moving_averages s) (score_bound s) (emitted s).

Definition with_global_step (x : Z) (s : Validator) : Validator :=
  mkValidator (uid s) (hparams s) (model s) (optimizer s) (scheduler s)
    (momentum s) (current_window s) (start_window s) x (sync_window s)
    (moving_avg_scores s) (evaluated_uids s) (peers s) (eval_peers s)
    (inactive_scores s) (binary_moving_averages s) (score_bound s) (emitted s).

Definition with_sync_window (x : Z) (s : Validator) : Validator :=
  mkValidator (uid s) (hparams s) (model s) (optimizer s) (scheduler s)
    (momentum s) (current_window s) (start_window s) (global_step s) x
    (moving_avg_scores s) (evaluated_uids s) (peers s) (eval_peers s)
    (inactive_scores s) (binary_moving_averages s) (score_bound s) (emitted s).

Definition with_moving_avg_scores (x : Tensor) (s : Validator) : Validator :=
  mkValidator (uid s) (hparams s) (model s) (optimizer s) (scheduler s)
    (momentum s) (current_window s) (start_window s) (global_step s)
    (sync_window s) x (evaluated_uids s) (peers s) (eval_peers s)
    (inactive_scores s) (binary_moving_averages s) (score_bound s) (emitted s).

Definition with_evaluated_uids (x : gset nat) (s : Validator) : Validator :=
  mkValidator (uid s) (hparams s) (model s) (optimizer s) (scheduler s)
    (momentum s) (current_window s) (start_window s) (global_step s)
    (sync_window s) (moving_avg_scores s) x (peers s) (eval_peers s)
    (inactive_scores s) (binary_moving_averages s) (score_bound s) (emitted s).

Definition with_peers (x : list nat) (s : Validator) : Validator :=
  mkValidator (uid s) (hparams s) (model s) (optimizer s) (scheduler s)
    (momentum s) (current_window s) (start_window s) (global_step s)
    (sync_window s) (moving_avg_scores s) (evaluated_uids s) x (eval_peers s)
    (inactive_scores s) (binary_moving_averages s) (score_bound s) (emitted s).

Definition with_eval_peers (x : list nat) (s : Validator) : Validator :=
  mkValidator (uid s) (hparams s) (model s) (optimizer s) (scheduler s)
    (momentum s) (current_window s) (start_window s) (global_step s)
    (sync_window s) (moving_avg_scores s) (evaluated_uids s) (peers s) x
    (inactive_scores s) (binary_moving_averages s) (score_bound s) (emitted s).

Definition with_inactive_scores (x : gmap nat (Z * Q)) (s : Validator) : Validator :=
  mkValidator (uid s) (hparams s) (model s) (optimizer s) (scheduler s)
    (momentum s) (current_window s) (start_window s) (global_step s)
    (sync_window s) (moving_avg_scores s) (evaluated_uids s) (peers s)
    (eval_peers s) x (binary_moving_averages s) (score_bound s) (emitted s).

Definition with_binary_moving_averages (x : gmap nat Q) (s : Validator) : Validator :=
  mkValidator (uid s) (hparams s) (model s) (optimizer s) (scheduler s)
    (momentum s) (current_window s) (start_window s) (global_step s)
    (sync_window s) (moving_avg_scores s) (evaluated_uids s) (peers s)
    (eval_peers s) (inactive_scores s) x (score_bound s) (emitted s).

Definition with_score_bound (x : bool) (s : Validator) : Validator :=
  mkValidator (uid s) (hparams s) (model s) (optimizer s) (scheduler s)
    (momentum s) (current_window s) (start_window s) (global_step s)
    (sync_window s) (moving_avg_scores s) (evaluated_uids s) (peers s)
    (eval_peers s) (inactive_scores s) (binary_moving_averages s) x (emitted s).

Definition with_emitted (x : list Event) (s : Validator) : Validator :=
  mkValidator (uid s) (hparams s) (model s) (optimizer s) (scheduler s)
    (momentum s) (current_window s) (start_window s) (global_step s)
    (sync_window s) (moving_avg_scores s) (evaluated_uids s) (peers s)
    (eval_peers s) (inactive_scores s) (binary_moving_averages s)
    (score_bound s) x.

(** ** The monad of [run]: state of [self] plus exceptions *)

Definition M (A : Type) : Type := Validator -> Res A * Validator.

Definition ret {A : Type} (a : A) : M A := fun s => (Val a, s).

Definition bind {A B : Type} (m : M A) (k : A -> M B) : M B :=
  fun s =>
    match m s with
    | (Val a, s') => k a s'
    | (Exn e, s') => (Exn e, s')
    end.

Definition raise {A : Type} (e : exn) : M A := fun s => (Exn e, s).

Definition get : M Validator := fun s => (Val s, s).

Definition modify (f : Validator -> Validator) : M unit :=
  fun s => (Val tt, f s).

(** A pure computation that may raise, run inside [run]. *)
Definition lift {A : Type} (r : Res A) : M A := fun s => (r, s).

(** [try: body finally: fin]: [fin] runs on every exit of [body]; the
    outcome of [body] is kept unless [fin] itself raises. *)
Definition try_finally {A : Type} (body : M A) (fin : M unit) : M A :=
  fun s =>
    match body s with
    | (r, s1) =>
        match fin s1 with
        | (Val _, s2) => (r, s2)
        | (Exn e, s2) => (Exn e, s2)
        end
    end.

Notation "x <- m ;; k" := (bind m (fun x => k))
  (at level 100, m at next level, right associativity).
Notation "m ;;; k" := (bind m (fun _ => k))
  (at level 100, right associativity).

(** [for x in l: body x]. *)
Fixpoint for_each {A : Type} (l : list A) (body : A -> M unit) : M unit :=
  match l with
  | [] => ret tt
  | x :: l' => body x ;;; for_each l' body
  end.

(** [a % b == 0] on Python ints. *)
Definition divides_step (a b : Z) : M bool :=
  if Z.eqb b 0 then raise ZeroDivisionError
  else ret (Z.eqb (Z.modulo a b) 0).

(** ** Weights *)

(** [x > 0] as a boolean. *)
Definition is_positive (x : Q) : bool := if Qlt_le_dec 0 x then true else false.

(** [(moving_avg_scores > 0) & evaluated_mask]. *)
Definition positive_mask (scores : Tensor) (evaluated : gset nat) : list bool :=
  imap (fun i x => is_positive x && bool_decide (i ∈ evaluated)) scores.

(** [t[mask]]. *)
Fixpoint masked_select (t : Tensor) (mask : list bool) : Tensor :=
  match t, mask with
  | x :: t', b :: mask' =>
      if b then x :: masked_select t' mask' else masked_select t' mask'
  | _, _ => []
  end.

(** [t[mask] = v]: the entries of [v] go, in order, to the selected places. *)
Fixpoint masked_assign (t : Tensor) (mask : list bool) (v : Tensor) : Tensor :=
  match t, mask with
  | x :: t', b :: mask' =>
      if b then
        match v with
        | y :: v' => y :: masked_assign t' mask' v'
        | [] => x :: masked_assign t' mask' []
        end
      else x :: masked_assign t' mask' v
  | _, _ => t
  end.

(** [positive_mask.any()]. *)
Definition any (mask : list bool) : bool := existsb id mask.

(** [min_power_normalization(logits, power, epsilon)] for a one-dimensional
    tensor and an integral exponent. *)
Definition min_power_normalization (logits : Tensor) (power : nat) (epsilon : Q) : Tensor :=
  let powered_logits := map (fun x => x ^ Z.of_nat power) logits in
  let sum_powered := tensor_sum powered_logits in
  if Qlt_le_dec epsilon sum_powered
  then map (fun x => x / sum_powered) powered_logits
  else zeros_like powered_logits.

(** The default [epsilon=1e-8]. *)
Definition epsilon_default : Q := 1 # 100000000.

(** [evaluated_mask[list(self.evaluated_uids)] = True] raises when an
    evaluated uid is not an index of the tensor. *)
Definition evaluated_mask_ok (scores : Tensor) (evaluated : gset nat) : bool :=
  forallb (fun u => Nat.ltb u (length scores)) (elements evaluated).

(** Lines 614-619: the weights after a successful evaluation. *)
Definition weights_after_evaluation (scores : Tensor) (evaluated : gset nat) : Tensor :=
  let weights := zeros_like scores in
  let mask := positive_mask scores evaluated in
  if any mask then
    let selected := masked_select scores mask in
    masked_assign weights mask (map (fun x => x / tensor_sum selected) selected)
  else weights.

(** Lines 682-693: the weights after a missing submission. *)
Definition weights_after_missing (scores : Tensor) (evaluated : gset nat) (power : nat) : Tensor :=
  let weights := zeros_like scores in
  let mask := positive_mask scores evaluated in
  if any mask then
    masked_assign weights mask
      (min_power_normalization (masked_select scores mask) power epsilon_default)
  else weights.

(** ** Scores *)

(** [(before - after) / before if before > 0 else 0]. *)
Definition improvement (loss_before loss_after : Q) : Q :=
  if Qlt_le_dec 0 loss_before then (loss_before - loss_after) / loss_before else 0.

(** [1 if improvement_own > improvement_random else -1]. *)
Definition binary_indicator (improvement_own improvement_random : Q) : Q :=
  if Qlt_le_dec improvement_random improvement_own then 1 else -1.

(** The four mean losses of one evaluation. *)
Record Losses : Type := mkLosses {
  loss_before_own : Q;
  loss_after_own : Q;
  loss_before_random : Q;
  loss_after_random : Q
}.

(** [loss / n if n > 0 else 0]. *)
Definition mean_loss (loss : Q) (n : nat) : Q :=
  match n with
  | O => 0
  | S _ => loss / inject_Z (Z.of_nat n)
  end.

(** ** Parameters, optimizer, scheduler *)

(** [model.state_dict()], tensors cloned. *)
Definition state_dict (m : Model) : list (string * Tensor) :=
  map (fun np => (np.1, data np.2)) (named_parameters m).

(** A Python dict built from pairs: a later binding of a key wins. *)
Definition dict_of {A : Type} (l : list (string * A)) : gmap string A :=
  list_to_map (reverse l).

(** [model.load_state_dict(sd)], strict: the keys of [sd] must be exactly the
    parameter names; [p.grad] and the train/eval flag are not touched. *)
Definition load_state_dict (m : Model) (sd : gmap string Tensor) : Res Model :=
  if decide (dom sd = list_to_set (map fst (named_parameters m)))
  then Val (mkModel
              (map (fun np => (np.1, mkParam (default (data np.2) (sd !! np.1)) (grad np.2)))
                   (named_parameters m))
              (training m))
  else Exn RuntimeError.

(** [optimizer.zero_grad()] and [model.zero_grad()]: every [p.grad] is set
    to [None] (the default since torch 2.0). *)
Definition zero_grad (m : Model) : Model :=
  mkModel (map (fun np => (np.1, mkParam (data np.2) None)) (named_parameters m))
          (training m).

(** [model.eval()] and [model.train()]. *)
Definition set_training (b : bool) (m : Model) : Model :=
  mkModel (named_parameters m) b.

(** [optimizer.step()] of plain SGD: [p.data -= lr * p.grad] where [p.grad]
    is set. *)
Definition sgd_step (o : Optimizer) (m : Model) : Model :=
  mkModel
    (map (fun np =>
            match grad np.2 with
            | Some g => (np.1, mkParam (sub_ (data np.2) g (lr o)) (grad np.2))
            | None => np
            end)
         (named_parameters m))
    (training m).

(** The three state dicts saved before evaluation (lines 367-371).  The
    tensors of the model are cloned; the optimizer and scheduler dicts hold
    numbers ([lr], [last_epoch], ...) that later steps rebind and never
    mutate in place, so the snapshot is a value. *)
Record Snapshot : Type := mkSnapshot {
  snap_model : gmap string Tensor;
  snap_optimizer : Optimizer;
  snap_scheduler : Scheduler
}.

Definition original_state (s : Validator) : Snapshot :=
  mkSnapshot (dict_of (state_dict (model s))) (optimizer s) (scheduler s).

(** The [finally] block (lines 825-827). *)
Definition restore_original_state (o : Snapshot) : M unit :=
  s <- get;;
  m <- lift (load_state_dict (model s) (snap_model o));;
  modify (with_model m);;;
  modify (with_optimizer (snap_optimizer o));;;
  modify (with_scheduler (snap_scheduler o)).

(** [random.sample(range(total), k)] followed by [sorted]: [ValueError] when
    the sample is larger than the population; otherwise [k] distinct indices
    below [total], picked by the draw the environment supplies. *)
Definition random_sample (total : nat) (k : Z) (draw : list nat) : Res (list nat) :=
  if Z.ltb (Z.of_nat total) k then Exn ValueError
  else Val (merge_sort Nat.le
              (take (Z.to_nat k)
                    (remove_dups (map (fun x => Nat.modulo x total) draw ++ seq 0 total)))).

(** [random.choice(l)] for a non-empty [l]; [IndexError] on an empty one. *)
Definition random_choice (l : list nat) (draw : nat) : Res nat :=
  match l !! Nat.modulo draw (length l) with
  | Some x => Val x
  | None => Exn IndexError
  end.

(** A value found by [getattr] in the gathered namespace: one tensor or a
    list of tensors (one per peer). *)
Inductive Attr : Type :=
  | One (t : Tensor)
  | Many (ts : list Tensor).

(** [if not isinstance(x, (list, tuple)): x = [x]]. *)
Definition as_list (a : Attr) : list Tensor :=
  match a with
  | One t => [t]
  | Many ts => ts
  end.

(** What a successful catch-up hands back (and leaves in [self.model]). *)
Record CatchUp : Type := mkCatchUp {
  new_global_step : Z;
  new_optimizer : Optimizer;
  new_scheduler : Scheduler;
  caught_up_model : Model
}.

Section Run.

(** One evaluation batch, and the collaborators of the loop:
    - [forward m b]: the loss of the forward pass, [None] when it raises;
    - [decode n p idxs vals]:
      [transformer.decode(compressor.decompress(p, idxs, vals, xshapes[n], totalks[n]))],
      of the shape of [p];
    - [batch_decode]: the same through [batch_decompress];
    - [lr_at e]: the learning rate the scheduler sets at step [e]. *)
Variable Batch : Type.
Variable forward : Model -> Batch -> option Q.
Variable decode : string -> Tensor -> Tensor -> Tensor -> option Tensor.
Variable batch_decode : string -> Tensor -> list Tensor -> list Tensor -> option Tensor.
Variable lr_at : nat -> Q.

(** The input of one iteration of [while True]. *)
Record Window : Type := mkWindow {
  (** the window the block listener has published *)
  listened_window : Z;
  (** [check_and_perform_catch_up]: [Some] when [catch_up_success] *)
  catch_up : option CatchUp;
  (** [comms.peers], [comms.eval_peers], [comms.inactive_peers] after
      [update_peers_with_buckets()] *)
  comms_peers : list nat;
  comms_eval_peers : list nat;
  comms_inactive_peers : list nat;
  (** [comms.gather(...)]: [None], or its [state_dict] ([None] or a namespace) *)
  gather_result : option (option (gmap string Attr));
  (** the draw of [random.choice(self.eval_peers)] *)
  choice_draw : nat;
  (** [comms.get(...)]: [None], or a tuple whose first component is [None]
      or the state dict *)
  eval_result : option (option (gmap string Tensor));
  (** the batches of the loader on the peer's own pages, and the draw of the sample *)
  own_batches : option (list Batch);
  own_draw : list nat;
  (** the same on random pages *)
  random_batches : option (list Batch);
  random_draw : list nat
}.

(** The loop over [enumerate(batches)] that accumulates the loss of the
    sampled batches and counts them. *)
Fixpoint loss_loop (m : Model) (sampled_indices : list nat) (i : nat)
    (batches : list Batch) (loss : Q) (n_batches : nat) : Res (Q * nat) :=
  match batches with
  | [] => Val (loss, n_batches)
  | batch :: rest =>
      if bool_decide (i ∈ sampled_indices) then
        match forward m batch with
        | Some l => loss_loop m sampled_indices (S i) rest (loss + l) (S n_batches)
        | None => Exn CollaboratorError
        end
      else loss_loop m sampled_indices (S i) rest loss n_batches
  end.

(** [max(1, int(total_batches * validator_sample_rate))]. *)
Definition sample_size (total_batches : nat) (rate : Q) : Z :=
  Z.max 1 (int_of (inject_Z (Z.of_nat total_batches) * rate)).

(** The loop "Apply gradient" of the evaluation (lines 443-467 and 532-556)
    over the parameters still to visit.  When [p.grad] is [None] the decoded
    tensor itself becomes [p.grad], so [sign_] also changes what [sub_]
    subtracts; otherwise [p.grad] holds a copy and the decoded tensor is
    subtracted as it is.  The first component is the exception that stopped
    the loop, if any; parameters visited before it keep their update. *)
Fixpoint apply_gradient_loop (alpha : Q) (sd : gmap string Tensor)
    (l : list (string * Param)) : option exn * list (string * Param) :=
  match l with
  | [] => (None, [])
  | (n, p) :: rest =>
      match sd !! (n +:+ "idxs"), sd !! (n +:+ "vals") with
      | Some idxs, Some vals =>
          match decode n (data p) idxs vals with
          | Some g =>
              let p' :=
                match grad p with
                | None => mkParam (sub_ (data p) (sign_ g) alpha) (Some (sign_ g))
                | Some _ => mkParam (sub_ (data p) g alpha) (Some (sign_ g))
                end in
              let (e, rest') := apply_gradient_loop alpha sd rest in
              (e, (n, p') :: rest')
          | None => (Some CollaboratorError, l)
          end
      | _, _ =>
          let (e, rest') := apply_gradient_loop alpha sd rest in
          (e, (n, p) :: rest')
      end
  end.

Definition outcome (e : option exn) : Res unit :=
  match e with
  | None => Val tt
  | Some x => Exn x
  end.

Definition apply_gradient (sd : gmap string Tensor) : M unit :=
  fun s =>
    let (e, ps) := apply_gradient_loop (last_lr (scheduler s)) sd
                     (named_parameters (model s)) in
    (outcome e, with_model (mkModel ps (training (model s))) s).

(** [for n, p in named_parameters: p.data.copy_(original_params[n])]. *)
Fixpoint restore_params_loop (original_params : gmap string Tensor)
    (l : list (string * Param)) : option exn * list (string * Param) :=
  match l with
  | [] => (None, [])
  | (n, p) :: rest =>
      match original_params !! n with
      | Some t =>
          let (e, rest') := restore_params_loop original_params rest in
          (e, (n, mkParam t (grad p)) :: rest')
      | None => (Some KeyError, l)
      end
  end.

Definition restore_params (original_params : gmap string Tensor) : M unit :=
  fun s =>
    let (e, ps) := restore_params_loop original_params (named_parameters (model s)) in
    (outcome e, with_model (mkModel ps (training (model s))) s).

(** Steps 7-14 up to the four mean losses (lines 389-577). *)
Definition evaluate (w : Window) (sd : gmap string Tensor) : M Losses :=
  batches <- lift (answered (own_batches w));;
  s <- get;;
  let original_params := dict_of (state_dict (model s)) in
  modify (fun s => with_model (zero_grad (model s)) s);;;
  modify (fun s => with_model (set_training false (model s)) s);;;
  let total_batches := length batches in
  sampled_indices <- lift (random_sample total_batches
      (sample_size total_batches (validator_sample_rate (hparams s))) (own_draw w));;
  s <- get;;
  before <- lift (loss_loop (model s) sampled_indices 0 batches 0 0);;
  let n_batches := before.2 in
  let loss_before_own := mean_loss before.1 n_batches in
  apply_gradient sd;;;
  s <- get;;
  after <- lift (loss_loop (model s) sampled_indices 0 batches 0 0);;
  let loss_after_own := mean_loss after.1 n_batches in
  batches_random <- lift (answered (random_batches w));;
  restore_params original_params;;;
  modify (fun s => with_model (set_training false (model s)) s);;;
  let total_batches := length batches_random in
  sampled_indices <- lift (random_sample total_batches
      (sample_size total_batches (validator_sample_rate (hparams s))) (random_draw w));;
  s <- get;;
  before <- lift (loss_loop (model s) sampled_indices 0 batches_random 0 0);;
  let loss_before_random := mean_loss before.1 (length sampled_indices) in
  apply_gradient sd;;;
  s <- get;;
  after <- lift (loss_loop (model s) sampled_indices 0 batches_random 0 0);;
  let loss_after_random := mean_loss after.1 (length sampled_indices) in
  restore_params original_params;;;
  ret (mkLosses loss_before_own loss_after_own loss_before_random loss_after_random).

(** Lines 584-619: scores, moving averages and weights after the four
    losses of [eval_uid] are known.  Returns [weights]. *)
Definition score_of (l : Losses) : Q :=
  improvement (loss_before_own l) (loss_after_own l).

Definition improvement_own_of (l : Losses) : Q :=
  improvement (loss_before_own l) (loss_after_own l).

Definition improvement_random_of (l : Losses) : Q :=
  improvement (loss_before_random l) (loss_after_random l).

Definition update_scores (eval_uid : nat) (l : Losses) : M Tensor :=
  s <- get;;
  let alpha := ma_alpha (hparams s) in
  let score := score_of l in
  let indicator := binary_indicator (improvement_own_of l) (improvement_random_of l) in
  let previous := default 0 (binary_moving_averages s !! eval_uid) in
  let average := (1 - alpha) * previous + alpha * indicator in
  modify (with_binary_moving_averages (<[eval_uid := average]> (binary_moving_averages s)));;;
  let normalized_binary_avg := average / 2 in
  let final_score := score * normalized_binary_avg in
  old <- lift (item (moving_avg_scores s) eval_uid);;
  modify (with_moving_avg_scores
            (<[eval_uid := py_max ((1 - alpha) * old + alpha * final_score) 0]>
               (moving_avg_scores s)));;;
  modify (fun s => with_evaluated_uids ({[eval_uid]} ∪ evaluated_uids s) s);;;
  s <- get;;
  if evaluated_mask_ok (moving_avg_scores s) (evaluated_uids s)
  then ret (weights_after_evaluation (moving_avg_scores s) (evaluated_uids s))
  else raise IndexError.

(** Lines 671-693: no gradient received from [eval_uid].  Returns [weights]. *)
Definition missing_submission (eval_uid : nat) : M Tensor :=
  s <- get;;
  old_score <- lift (item (moving_avg_scores s) eval_uid);;
  modify (with_moving_avg_scores
            (<[eval_uid := old_score * (1 # 2)]> (moving_avg_scores s)));;;
  modify (fun s => with_evaluated_uids ({[eval_uid]} ∪ evaluated_uids s) s);;;
  s <- get;;
  if evaluated_mask_ok (moving_avg_scores s) (evaluated_uids s)
  then ret (weights_after_missing (moving_avg_scores s) (evaluated_uids s)
              (power_normalisation (hparams s)))
  else raise IndexError.

Definition emit (e : Event) : M unit :=
  modify (fun s => with_emitted (e :: emitted s) s).

(** [if self.sync_window % self.hparams.windows_per_weights == 0:
    self.subtensor.set_weights(...)]. *)
Definition set_weights_periodically (weights : Tensor) : M bool :=
  s <- get;;
  due <- divides_step (sync_window s) (windows_per_weights (hparams s));;
  (if due : bool then emit (SetWeights weights) else ret tt);;;
  ret due.

(** Step 15 (lines 716-738): the checkpoint is handed over and not awaited. *)
Definition create_checkpoint : M unit :=
  s <- get;;
  due <- divides_step (global_step s) (checkpoint_frequency (hparams s));;
  if due : bool then
    emit (PutCheckpoint
            (mkCheckpoint (state_dict (model s)) (optimizer s) (scheduler s)
               (momentum s) (start_window s) (current_window s) (global_step s)))
  else ret tt.

(** The loop of step 16 (lines 747-776) over the parameters still to visit:
    the decoded gradient is stored in [momentum] before its sign becomes
    [p.grad]. *)
Fixpoint gathered_gradient_loop (gsd : gmap string Attr)
    (l : list (string * Param)) (mom : gmap string Tensor)
    : option exn * list (string * Param) * gmap string Tensor :=
  match l with
  | [] => (None, [], mom)
  | (n, p) :: rest =>
      match gsd !! (n +:+ "idxs"), gsd !! (n +:+ "vals") with
      | Some idxs, Some vals =>
          match batch_decode n (data p) (as_list idxs) (as_list vals) with
          | Some new_grad =>
              let '(e, rest', mom') :=
                gathered_gradient_loop gsd rest (<[n := new_grad]> mom) in
              (e, (n, mkParam (data p) (Some (sign_ new_grad))) :: rest', mom')
          | None => (Some CollaboratorError, l, mom)
          end
      | _, _ =>
          let '(e, rest', mom') := gathered_gradient_loop gsd rest mom in
          (e, (n, p) :: rest', mom')
      end
  end.

Definition gathered_gradient (gsd : gmap string Attr) : M unit :=
  fun s =>
    let '(e, ps, mom) :=
      gathered_gradient_loop gsd (named_parameters (model s)) (momentum s) in
    (outcome e, with_momentum mom (with_model (mkModel ps (training (model s))) s)).

(** [scheduler.step()]: one more epoch, and the new rate written to the
    optimizer's parameter group. *)
Definition scheduler_step (s : Validator) : Validator :=
  let e := S (last_epoch (scheduler s)) in
  with_scheduler (mkScheduler e (lr_at e)) (with_optimizer (mkOptimizer (lr_at e)) s).

(** Step 16 (lines 741-780). *)
Definition update_model (w : Window) : M unit :=
  modify (fun s => with_model (set_training true (model s)) s);;;
  modify (fun s => with_model (zero_grad (model s)) s);;;
  match gather_result w with
  | Some (Some gsd) => gathered_gradient gsd
  | _ => ret tt
  end;;;
  modify (fun s => with_model (sgd_step (optimizer s) (model s)) s);;;
  modify scheduler_step.

(** Lines 388-713: the selected peer is scored, or slashed when it sent no
    gradient.  Returns [weights]. *)
Definition score_peer (w : Window) (eval_uid : nat) : M Tensor :=
  match eval_result w with
  | Some (Some sd) =>
      l <- evaluate w sd;;
      modify (with_score_bound true);;;
      weights <- update_scores eval_uid l;;
      set_weights_periodically weights;;;
      ret weights
  | _ => missing_submission eval_uid
  end.

(** Lines 714-821: checkpoint, model update, weights, step counter.  The
    log after the second [set_weights] reads [loss_before_own],
    [loss_after_own] and [score], which only a successful evaluation binds. *)
Definition after_scoring (w : Window) (weights : Tensor) : M unit :=
  create_checkpoint;;;
  update_model w;;;
  due <- set_weights_periodically weights;;
  s <- get;;
  (if due && negb (score_bound s) then raise UnboundLocalError else ret tt);;;
  modify (fun s => with_global_step (global_step s + 1)%Z s).

(** The body of [try:] (lines 387-821). *)
Definition try_body (w : Window) (eval_uid : nat) : M unit :=
  weights <- score_peer w eval_uid;;
  after_scoring w weights.

(** Lines 313-316: peers reported inactive are entered in [inactive_scores]
    with the current window and score, unless already there. *)
Definition track_inactive (uid : nat) : M unit :=
  s <- get;;
  match inactive_scores s !! uid with
  | Some _ => ret tt
  | None =>
      score <- lift (item (moving_avg_scores s) uid);;
      modify (with_inactive_scores (<[uid := (sync_window s, score)]> (inactive_scores s)))
  end.

(** Lines 319-328: one tracked peer is either dropped from tracking, when it
    is an eval peer again, or loses a quarter of its score. *)
Definition penalize_inactive (uid : nat) : M unit :=
  s <- get;;
  if bool_decide (uid ∈ eval_peers s) then
    modify (with_inactive_scores (delete uid (inactive_scores s)))
  else
    old_score <- lift (item (moving_avg_scores s) uid);;
    modify (with_moving_avg_scores
              (<[uid := old_score * (3 # 4)]> (moving_avg_scores s))).

(** Lines 309-340.  The second loop runs over [list(self.inactive_scores.items())],
    a copy of the entries taken before the loop. *)
Definition inactivity (newly_inactive : list nat) : M unit :=
  for_each newly_inactive track_inactive;;;
  s <- get;;
  for_each (map fst (map_to_list (inactive_scores s))) penalize_inactive.

(** Lines 280-285: a successful catch-up is adopted and the iteration ends. *)
Definition adopt_catch_up (c : CatchUp) (s : Validator) : Validator :=
  with_sync_window (current_window s)
    (with_scheduler (new_scheduler c)
       (with_optimizer (new_optimizer c)
          (with_global_step (new_global_step c)
             (with_model (caught_up_model c) s)))).

(** Lines 296-302. *)
Definition refresh_peers (w : Window) (s : Validator) : Validator :=
  with_eval_peers (comms_eval_peers w)
    (with_peers (comms_peers w)
       (with_sync_window (sync_window s + 1)%Z s)).

(** Lines 366-830: the evaluation phase, from the snapshot to [finally]. *)
Definition evaluation_phase (w : Window) : M unit :=
  s <- get;;
  let saved := original_state s in
  eval_uid <- lift (random_choice (eval_peers s) (choice_draw w));;
  try_finally (try_body w eval_uid) (restore_original_state saved).

(** One iteration of [while True] (lines 263-830).  The window published by
    the block listener is read first; the wait on [validator_offset] only
    delays the iteration and is not part of its effect on [self]. *)
Definition iteration (w : Window) : M unit :=
  modify (with_current_window (listened_window w));;;
  match catch_up w with
  | Some c => modify (adopt_catch_up c)
  | None =>
      modify (refresh_peers w);;;
      inactivity (comms_inactive_peers w);;;
      s <- get;;
      match eval_peers s with
      | [] => modify (fun s => with_global_step (global_step s + 1)%Z s)
      | _ :: _ => evaluation_phase w
      end
  end.

(** The loop, fed with the inputs of its successive iterations; an exception
    ends it. *)
Definition run (ws : list Window) : M unit := for_each ws iteration.

End Run.

Arguments listened_window {Batch} w.
Arguments catch_up {Batch} w.
Arguments comms_peers {Batch} w.
Arguments comms_eval_peers {Batch} w.
Arguments comms_inactive_peers {Batch} w.
Arguments gather_result {Batch} w.
Arguments choice_draw {Batch} w.
Arguments eval_result {Batch} w.
Arguments own_batches {Batch} w.
Arguments own_draw {Batch} w.
Arguments random_batches {Batch} w.
Arguments random_draw {Batch} w.
Arguments mkWindow {Batch}.

(** Lines 203-209: the gather peers at start-up ([self.peers.append]
    written as the list it leaves in [self.peers]). *)
Definition load_peers (uid : nat) (config_peers comms_peers : list nat) : list nat :=
  let peers := match config_peers with [] => comms_peers | _ :: _ => config_peers end in
  if bool_decide (uid ∈ peers) then peers else peers ++ [uid].

(** * Vocabulary of the statements *)

(** At least one evaluated peer has a positive moving-average score. *)
Definition some_evaluated_positive (scores : Tensor) (evaluated : gset nat) : Prop :=
  exists p x, p ∈ evaluated /\ scores !! p = Some x /\ 0 < x.

(** The tolerance [1e-6] of the weight-sum check (line 698). *)
Definition tolerance : Q := 1 # 1000000.

(** The denominator of the power normalisation over the masked peers. *)
Definition powered_sum (scores : Tensor) (evaluated : gset nat) (power : nat) : Q :=
  tensor_sum (map (fun x => x ^ Z.of_nat power)
                  (masked_select scores (positive_mask scores evaluated))).

(** [preserves I m]: whatever the outcome of [m] (a value or an exception),
    the state it leaves satisfies [I] when the state it started from did. *)
Definition preserves {A : Type} (I : Validator -> Prop) (m : M A) : Prop :=
  forall s, I s -> I (snd (m s)).

(** The names of the parameters, in order. *)
Definition param_names (m : Model) : list string := map fst (named_parameters m).

(** [ml_step s s']: from [s] to [s'] only the model (with the same parameter
    names), the optimizer, the scheduler, the momentum, [global_step],
    [score_bound] and the emitted calls may differ. *)
Definition ml_step (s s' : Validator) : Prop :=
  uid s' = uid s /\ hparams s' = hparams s /\
  current_window s' = current_window s /\ start_window s' = start_window s /\
  sync_window s' = sync_window s /\
  moving_avg_scores s' = moving_avg_scores s /\
  evaluated_uids s' = evaluated_uids s /\
  peers s' = peers s /\ eval_peers s' = eval_peers s /\
  inactive_scores s' = inactive_scores s /\
  binary_moving_averages s' = binary_moving_averages s /\
  param_names (model s') = param_names (model s).

(** A property of the state that such a change cannot break. *)
Definition ml_stable (I : Validator -> Prop) : Prop :=
  forall s s', ml_step s s' -> I s -> I s'.

(** A computation that changes the state by [ml_step] only, whatever its outcome. *)
Definition ml_only {A : Type} (m : M A) : Prop :=
  forall s0, preserves (ml_step s0) m.

(** Every entry of [moving_avg_scores] is non-negative. *)
Definition scores_nonneg (s : Validator) : Prop :=
  Forall (fun x => 0 <= x) (moving_avg_scores s).

(** [rep_step s s']: from [s] to [s'] only [moving_avg_scores] (keeping its
    length) and [inactive_scores] may differ. *)
Definition rep_step (s s' : Validator) : Prop :=
  uid s' = uid s /\ hparams s' = hparams s /\ model s' = model s /\
  optimizer s' = optimizer s /\ scheduler s' = scheduler s /\
  momentum s' = momentum s /\ current_window s' = current_window s /\
  start_window s' = start_window s /\ global_step s' = global_step s /\
  sync_window s' = sync_window s /\ evaluated_uids s' = evaluated_uids s /\
  peers s' = peers s /\ eval_peers s' = eval_peers s /\
  binary_moving_averages s' = binary_moving_averages s /\
  score_bound s' = score_bound s /\ emitted s' = emitted s /\
  length (moving_avg_scores s') = length (moving_avg_scores s).

(** Every uid of the list is an index of the score tensor. *)
Definition uids_valid (l : list nat) (s : Validator) : Prop :=
  Forall (fun u => (u < length (moving_avg_scores s))%nat) l.

(** Every tracked inactive peer is an index of the score tensor. *)
Definition tracked_valid (s : Validator) : Prop :=
  forall u, is_Some (inactive_scores s !! u) -> (u < length (moving_avg_scores s))%nat.

(** The score of an absent, tracked peer and the facts that keep it apart
    from the evaluation of the window. *)
Definition absent_peer_kept (p : nat) (v : Q) (s : Validator) : Prop :=
  moving_avg_scores s !! p = Some v /\
  is_Some (inactive_scores s !! p) /\
  p ∉ eval_peers s.

(** The state of an iteration that does not catch up once the peer lists are
    refreshed (lines 296-302), before the inactivity loops. *)
Definition refreshed {Batch : Type} (w : Window Batch) (s : Validator) : Validator :=
  refresh_peers Batch w (with_current_window (listened_window w) s).

(** The payload of the selected peer is absent: [comms.get] answered [None]
    (a timeout included) or a tuple without state dict. *)
Definition payload_absent {Batch : Type} (w : Window Batch) : Prop :=
  eval_result w = None \/ eval_result w = Some None.

(** Modelled from the spec: [comms.update_peers_with_buckets] is not part of
    the validator module; the specification says that the peer set manager
    reports as newly inactive the set difference between the previous and
    the current eval-peer lists. *)
Definition departed (previous current : list nat) : list nat :=
  filter (fun u => u ∉ current) previous.

(** * A small instance of the loop

    One parameter ["w"], batches that are numbers, a quadratic loss, a codec
    that returns the values it is given, and a decreasing learning rate.
    The statements that evaluate the loop on concrete inputs use it. *)

Definition toy_forward (m : Model) (b : Q) : option Q :=
  match named_parameters m with
  | (_, p) :: _ =>
      match data p with
      | x :: _ => Some ((x - b) * (x - b))
      | [] => None
      end
  | [] => None
  end.

Definition toy_decode (n : string) (p idxs vals : Tensor) : option Tensor := Some vals.

Definition toy_batch_decode (n : string) (p : Tensor) (idxs vals : list Tensor)
    : option Tensor :=
  match vals with
  | v :: _ => Some v
  | [] => None
  end.

Definition toy_lr (e : nat) : Q := 1 # Pos.of_succ_nat (9 + e).

Definition toy_iteration : Window Q -> M unit :=
  iteration Q toy_forward toy_decode toy_batch_decode toy_lr.

Definition toy_run : list (Window Q) -> M unit :=
  run Q toy_forward toy_decode toy_batch_decode toy_lr.

Definition toy_evaluation_phase : Window Q -> M unit :=
  evaluation_phase Q toy_forward toy_decode toy_batch_decode toy_lr.

Definition toy_try_body : Window Q -> nat -> M unit :=
  try_body Q toy_forward toy_decode toy_batch_decode toy_lr.

Definition example_hparams : Hparams := mkHparams 10 1 (1 # 5) 2 (1 # 2) 3 1.

Definition example_model : Model := mkModel [("w"%string, mkParam [2] None)] true.

(** A validator of uid 0 at the third window, with the given scores and
    evaluated peers, that has not evaluated anything in this process. *)
Definition example_validator (scores : Tensor) (evaluated : gset nat) : Validator :=
  mkValidator 0 example_hparams example_model (mkOptimizer (1 # 10))
    (mkScheduler 0 (1 # 10)) ∅ 5 0 0 3 scores evaluated [] [] ∅ ∅ false [].

Definition example_gradient : gmap string Tensor :=
  {[ "widxs"%string := [0]; "wvals"%string := [1] ]}.

Definition example_gather : gmap string Attr :=
  {[ "widxs"%string := One [0]; "wvals"%string := One [1] ]}.

(** A window with the given eval peers and departed peers; gather peers 1
    and 2; the first eval peer is drawn; its gradient is [payload]. *)
Definition example_window (eval inactive : list nat)
    (payload : option (option (gmap string Tensor))) : Window Q :=
  mkWindow 5 None [1; 2]%nat eval inactive (Some (Some example_gather)) 0 payload
    (Some [1; 1]) [] (Some [0; 3]) [].

(** * Vocabulary of the further properties *)

(** [hoare P m Q E]: from a state satisfying [P], if [m] returns [a] then
    [Q a] holds of the final state, and if it raises [e] then [E e] does. *)
Definition hoare {A : Type} (P : Validator -> Prop) (m : M A)
    (Q : A -> Validator -> Prop) (E : exn -> Validator -> Prop) : Prop :=
  forall s, P s ->
    match m s with
    | (Val a, s') => Q a s'
    | (Exn e, s') => E e s'
    end.

(** A property of the state that does not look at the model, the optimizer,
    the scheduler, the momentum or the emitted calls. *)
Definition ml_blind (I : Validator -> Prop) : Prop :=
  (forall s x, I s -> I (with_model x s)) /\
  (forall s x, I s -> I (with_optimizer x s)) /\
  (forall s x, I s -> I (with_scheduler x s)) /\
  (forall s x, I s -> I (with_momentum x s)) /\
  (forall s x, I s -> I (with_emitted x s)).

(** A property of the state that does not look at the scores, the evaluated
    set or the binary moving averages. *)
Definition score_blind (I : Validator -> Prop) : Prop :=
  (forall s x, I s -> I (with_moving_avg_scores x s)) /\
  (forall s x, I s -> I (with_evaluated_uids x s)) /\
  (forall s x, I s -> I (with_binary_moving_averages x s)).

(** Every binary moving average lies in [[-1, 1]]. *)
Definition averages_bounded (s : Validator) : Prop :=
  map_Forall (fun (_ : nat) v => -1 <= v <= 1) (binary_moving_averages s).

(** The score tensor has [n] entries and every evaluated or tracked uid is
    one of its indices. *)
Definition indices_valid (n : nat) (s : Validator) : Prop :=
  length (moving_avg_scores s) = n /\
  (forall u, u ∈ evaluated_uids s -> (u < n)%nat) /\
  (forall u, is_Some (inactive_scores s !! u) -> (u < n)%nat).

(** [evaluated_uids] is [evaluated], or [evaluated] and [u]. *)
Definition grown_by (evaluated : gset nat) (u : nat) (s : Validator) : Prop :=
  evaluated_uids s = evaluated \/ evaluated_uids s = {[u]} ∪ evaluated.


(** What one pass of the loop "Apply gradient" does to the parameter [np],
    giving [np']: a parameter with a payload under its name moves against
    the sign of the decoded gradient ([signed]) or against the decoded
    gradient itself, and [p.grad] holds the sign; a parameter without a
    payload is left as it is. *)
Definition eval_stepped (decode : string -> Tensor -> Tensor -> Tensor -> option Tensor)
    (alpha : Q) (sd : gmap string Tensor) (signed : bool)
    (np np' : string * Param) : Prop :=
  np'.1 = np.1 /\
  match sd !! (np.1 +:+ "idxs"), sd !! (np.1 +:+ "vals") with
  | Some idxs, Some vals =>
      exists g, decode np.1 (data np.2) idxs vals = Some g /\
        data np'.2 = sub_ (data np.2) (if signed then sign_ g else g) alpha /\
        grad np'.2 = Some (sign_ g)
  | _, _ => np' = np
  end.

(** Only the model differs between [s] and [s']. *)
Definition model_only_differs (s s' : Validator) : Prop :=
  with_model (model s) s' = s.

(** What the model update (step 16) does to the parameter [np], giving
    [np'], with the gathered payload [gsd] and the learning rate [rate]:
    a parameter with a payload under its name takes one step of size [rate]
    against the sign of the decoded gradient; any other parameter keeps its
    data and has no gradient. *)
Definition update_stepped
    (batch_decode : string -> Tensor -> list Tensor -> list Tensor -> option Tensor)
    (rate : Q) (gsd : gmap string Attr) (np np' : string * Param) : Prop :=
  np'.1 = np.1 /\
  match gsd !! (np.1 +:+ "idxs"), gsd !! (np.1 +:+ "vals") with
  | Some idxs, Some vals =>
      exists g, batch_decode np.1 (data np.2) (as_list idxs) (as_list vals) = Some g /\
        grad np'.2 = Some (sign_ g) /\
        data np'.2 = sub_ (data np.2) (sign_ g) rate
  | _, _ => data np'.2 = data np.2 /\ grad np'.2 = None
  end.

(** The gathered payload has both entries of the parameter [n]. *)
Definition gathered_for (gsd : gmap string Attr) (n : string) : Prop :=
  is_Some (gsd !! (n +:+ "idxs")) /\ is_Some (gsd !! (n +:+ "vals")).

(** The gathered payload the model update works with: without a gather
    result, or with one whose [state_dict] is [None], no parameter has a
    payload. *)
Definition gathered_payload {Batch : Type} (w : Window Batch) : gmap string Attr :=
  match gather_result w with
  | Some (Some gsd) => gsd
  | _ => ∅
  end.

(** The checkpoint [c] holds the model, optimizer, scheduler, momentum,
    windows and step counter of the state [s]. *)
Definition checkpoint_of (s : Validator) (c : Checkpoint) : Prop :=
  model_state_dict c = state_dict (model s) /\
  optimizer_state_dict c = optimizer s /\
  scheduler_state_dict c = scheduler s /\
  ck_momentum c = momentum s /\
  ck_start_window c = start_window s /\
  ck_current_window c = current_window s /\
  ck_global_step c = global_step s.

(** Every checkpoint handed over up to the state [t] was handed over
    before [s] or holds the state [s]. *)
Definition checkpoints_from (s t : Validator) : Prop :=
  forall c, PutCheckpoint c ∈ emitted t -> PutCheckpoint c ∈ emitted s \/ checkpoint_of s c.

(** What a checkpoint records besides the parameters is as in [s]. *)
Definition checkpoint_fields_kept (s t : Validator) : Prop :=
  optimizer t = optimizer s /\ scheduler t = scheduler s /\
  momentum t = momentum s /\ start_window t = start_window s /\
  current_window t = current_window s /\ global_step t = global_step s.

(** A checkpoint taken in the state [t] would hold the state [s], and so
    does every checkpoint handed over since [s]. *)
Definition checkpoint_ready (s t : Validator) : Prop :=
  (checkpoint_fields_kept s t /\ checkpoints_from s t) /\
  state_dict (model t) = state_dict (model s).

(** The weight vectors of the [set_weights] calls among the emitted calls,
    newest first. *)
Definition sent_weights (l : list Event) : list Tensor :=
  omap (fun e => match e with SetWeights weights => Some weights | PutCheckpoint _ => None end) l.

(** [sync_window % windows_per_weights == 0], for a period that is not 0. *)
Definition weights_due (s : Validator) : bool :=
  Z.eqb (sync_window s mod windows_per_weights (hparams s)) 0.

(** Whether the window has a gradient of the selected peer to score. *)
Definition has_submission {Batch : Type} (w : Window Batch) : bool :=
  match eval_result w with
  | Some (Some _) => true
  | _ => false
  end.

(** The weights as the branch taken computes them from the scores. *)
Definition weights_of (scored : bool) (s : Validator) : Tensor :=
  if scored then weights_after_evaluation (moving_avg_scores s) (evaluated_uids s)
  else weights_after_missing (moving_avg_scores s) (evaluated_uids s)
         (power_normalisation (hparams s)).

(** The state has the weights [weights] to send, computed by the branch
    [scored], and has sent the vectors [sent] so far; the period and the
    window are those of [s0]. *)
Definition weights_pending (s0 : Validator) (scored : bool) (weights : Tensor)
    (sent : list Tensor) (t : Validator) : Prop :=
  sync_window t = sync_window s0 /\ hparams t = hparams s0 /\
  weights_of scored t = weights /\ sent_weights (emitted t) = sent.

(** * The window clock and the start-up of the validator *)

(** [int(block / blocks_per_window)] (lines 168 and 835): true division,
    then truncation towards zero; [ZeroDivisionError] on a zero divisor. *)
Definition window_of (block blocks_per_window : Z) : Res Z :=
  if Z.eqb blocks_per_window 0 then Exn ZeroDivisionError
  else Val (int_of (inject_Z block / inject_Z blocks_per_window)).

(** The block listener (lines 832-844).  Its handler writes three fields:
    [self.current_block], [self.current_window] and
    [self.comms.current_window]. *)
Module Listener.




End Listener.

(** How [__init__] ends: with the object, with [sys.exit()], or with an
    exception. *)
Inductive Start (A : Type) : Type :=
  | Started (a : A)
  | Exited
  | Raised (e : exn).
Arguments Started {A} a.
Arguments Exited {A}.
Arguments Raised {A} e.

(** [l.index(x)]: the first position of [x]. *)
Definition index (x : string) (l : list string) : option nat :=
  fst <$> list_find (fun y => y = x) l.

(** [{n: torch.zeros_like(p) for n, p in model.named_parameters()}]. *)
Definition zero_momentum (m : Model) : gmap string Tensor :=
  dict_of (map (fun np => (np.1, zeros_like (data np.2))) (named_parameters m)).

(** [__init__] (lines 84-199), as far as it sets the fields of the loop.
    The chain gives the registered hotkeys, [metagraph.n] and the current
    block; the model, the optimizer and the scheduler are built by torch. *)
Definition init (hp : Hparams) (hotkey : string) (metagraph_hotkeys : list string)
    (metagraph_n : nat) (block : Z)
    (m : Model) (o : Optimizer) (sch : Scheduler) : Start Validator :=
  if bool_decide (hotkey ∈ metagraph_hotkeys) then
    match index hotkey metagraph_hotkeys with
    | Some uid =>
        match window_of block (blocks_per_window hp) with
        | Val window =>
            Started (mkValidator uid hp m o sch (zero_momentum m)
                       window window 0 window
                       (replicate metagraph_n 0) ∅ [] [] ∅ ∅ false [])
        | Exn e => Raised e
        end
    | None => Raised ValueError
    end
  else Exited.

(** What [comms.load_checkpoint] hands back: the model as it leaves it, and
    on success the momentum, the step counter, the optimizer and the
    scheduler. *)
Record CheckpointLoad : Type := mkCheckpointLoad {
  model_after_load : Model;
  loaded : option (gmap string Tensor * Z * Optimizer * Scheduler)
}.

Definition with_start_window (x : Z) (s : Validator) : Validator :=
  mkValidator (uid s) (hparams s) (model s) (optimizer s) (scheduler s)
    (momentum s) (current_window s) x (global_step s) (sync_window s)
    (moving_avg_scores s) (evaluated_uids s) (peers s) (eval_peers s)
    (inactive_scores s) (binary_moving_averages s) (score_bound s) (emitted s).

(** The start of [run] up to the loop (lines 203-261): the gather peers,
    the start window (posted by the validator with the highest stake,
    fetched by the others) and the checkpoint. *)
Definition start_up (config_peers comms_peers : list nat) (highest_stake : bool)
    (fetched_start_window : Z) (c : CheckpointLoad) (s : Validator) : Validator :=
  let s := with_peers (load_peers (uid s) config_peers comms_peers) s in
  let s :=
    if highest_stake then s
    else
      let s := with_start_window fetched_start_window s in
      with_global_step (current_window s - start_window s)%Z s in
  let s := with_model (model_after_load c) s in
  match loaded c with
  | Some (loaded_momentum, loaded_global_step, loaded_optimizer, loaded_scheduler) =>
      with_scheduler loaded_scheduler
        (with_optimizer loaded_optimizer
           (with_global_step loaded_global_step
              (with_momentum loaded_momentum s)))
  | None => with_momentum (zero_momentum (model s)) s
  end.

(** * [scripts/clean_versions.py]: deleting the objects of one version

    The environment is a map from names to values; the bucket is seen
    through the pages [list_objects_v2] yields (each with or without
    ["Contents"]) and through the answers of [delete_objects].  The script
    ends by returning or by [sys.exit(1)]; what it does to the bucket is the
    list of the [delete_objects] calls it makes, each with its keys.
    Creating the client is taken to succeed; a page whose objects lack
    ["Key"] counts as a listing that raises. *)
Module CleanVersions.

(** [__version__] of [templar/__init__.py]. *)
Definition __version__ : string := "0.1.9".

(** [pat in s] on Python strings. *)
Fixpoint contains (pat s : string) : bool :=
  String.prefix pat s ||
  match s with
  | EmptyString => false
  | String _ s' => contains pat s'
  end.

Definition required_vars : list string :=
  [ "R2_GRADIENTS_ACCOUNT_ID";
    "R2_GRADIENTS_WRITE_ACCESS_KEY_ID";
    "R2_GRADIENTS_WRITE_SECRET_ACCESS_KEY" ]%string.

(** [not os.environ.get(var)]: the variable is unset or empty. *)
Definition unset (environ : gmap string string) (var : string) : bool :=
  match environ !! var with
  | Some (String _ _) => false
  | _ => true
  end.

Definition missing_vars (environ : gmap string string) : list string :=
  List.filter (unset environ) required_vars.

(** [f"-v{__version__}"]. *)
Definition version_pattern_of (version : string) : string := "-v" +:+ version.

(** The filter of lines 76-79. *)
Definition selected (version_pattern key : string) : bool :=
  contains version_pattern key &&
  existsb (fun prefix => contains prefix key) ["checkpoint"; "start"; "gradient"]%string.

(** [objects_to_delete] after the loop over the pages. *)
Definition objects_to_delete (version_pattern : string)
    (pages : list (option (list string))) : list string :=
  concat (map (fun page =>
                 match page with
                 | Some contents => List.filter (selected version_pattern) contents
                 | None => []
                 end) pages).

(** [range(0, stop, step)] for a positive [step]. *)
Definition range_step (stop step : nat) : list nat :=
  map (fun k => (k * step)%nat) (seq 0 ((stop + step - 1) / step)).

(** [[objects[i : i + batch_size] for i in range(0, len(objects), batch_size)]]. *)
Definition batches (batch_size : nat) (objects : list string) : list (list string) :=
  map (fun i => take batch_size (drop i objects)) (range_step (length objects) batch_size).

Inductive Outcome : Type :=
  | Returned
  | Exit (code : Z).

(** The loop of lines 89-102: a call of [delete_objects] that raises ends
    the script with [sys.exit(1)]. *)
Fixpoint delete_loop (delete_objects : list string -> bool) (bs : list (list string))
    : Outcome * list (list string) :=
  match bs with
  | [] => (Returned, [])
  | batch :: rest =>
      if delete_objects batch then
        let (o, calls) := delete_loop delete_objects rest in
        (o, batch :: calls)
      else (Exit 1, [batch])
  end.

(** [cleanup_version()] for a given version.  [listing] is [false] when the
    paginator raises; [delete_objects batch] is [false] when that call
    raises. *)
Definition cleanup (version : string) (environ : gmap string string)
    (pages : list (option (list string))) (listing : bool)
    (delete_objects : list string -> bool) : Outcome * list (list string) :=
  match missing_vars environ with
  | _ :: _ => (Exit 1, [])
  | [] =>
      let version_pattern := version_pattern_of version in
      if listing then
        match objects_to_delete version_pattern pages with
        | [] => (Returned, [])
        | objects =>
            let batch_size := 1000%nat in
            delete_loop delete_objects (batches batch_size objects)
        end
      else (Exit 1, [])
  end.

Definition cleanup_version : gmap string string -> list (option (list string)) -> bool ->
    (list string -> bool) -> Outcome * list (list string) :=
  cleanup __version__.

End CleanVersions.
(** * Reasoning about [M] *)

Section Rules.
Context {A B : Type}.

Lemma preserves_ret (I : Validator -> Prop) (a : A) : preserves I (ret a).
Proof. intros s H. exact H. Qed.

Lemma preserves_raise (I : Validator -> Prop) (e : exn) : preserves I (@raise A e).
Proof. intros s H. exact H. Qed.

Lemma preserves_get (I : Validator -> Prop) : preserves I get.
Proof. intros s H. exact H. Qed.

Lemma preserves_lift (I : Validator -> Prop) (r : Res A) : preserves I (lift r).
Proof. intros s H. exact H. Qed.

Lemma preserves_modify (I : Validator -> Prop) (f : Validator -> Validator) :
  (forall s, I s -> I (f s)) -> preserves I (modify f).
Proof. intros Hf s H. apply Hf, H. Qed.

Lemma preserves_bind (I : Validator -> Prop) (m : M A) (k : A -> M B) :
  preserves I m -> (forall a, preserves I (k a)) -> preserves I (bind m k).
Proof.
  intros Hm Hk s H. unfold bind. specialize (Hm s H).
  destruct (m s) as [[a|e] s1]; simpl in *.
  - apply Hk, Hm.
  - exact Hm.
Qed.

End Rules.

Lemma preserves_for_each {A : Type} (I : Validator -> Prop) (l : list A)
    (body : A -> M unit) :
  (forall x, x ∈ l -> preserves I (body x)) -> preserves I (for_each l body).
Proof.
  induction l as [|x l IH]; intros Hb; simpl.
  - apply preserves_ret.
  - apply preserves_bind.
    + apply Hb. left.
    + intros _. apply IH. intros y Hy. apply Hb. right. exact Hy.
Qed.

(** * Weights: masks, sums and normalisation *)

Lemma tensor_sum_zeros (t : Tensor) : tensor_sum (zeros_like t) == 0.
Proof. induction t as [|x t IH]; simpl; [reflexivity | rewrite IH; lra]. Qed.

Lemma tensor_sum_scaled (c : Q) (t : Tensor) :
  tensor_sum (map (fun x => x / c) t) == tensor_sum t / c.
Proof.
  induction t as [|x t IH]; simpl.
  - unfold Qdiv. ring.
  - rewrite IH. unfold Qdiv. ring.
Qed.

Lemma tensor_sum_positive (t : Tensor) :
  t <> [] -> Forall (fun x => 0 < x) t -> 0 < tensor_sum t.
Proof.
  intros Hne H. induction H as [|x t Hx Ht IH]; [congruence |].
  simpl. destruct t as [|y t].
  - simpl. lra.
  - assert (0 < tensor_sum (y :: t)) by (apply IH; discriminate). lra.
Qed.

Lemma tensor_sum_masked_assign (t : Tensor) (mask : list bool) (v : Tensor) :
  length v = length (masked_select t mask) ->
  tensor_sum (masked_assign (zeros_like t) mask v) == tensor_sum v.
Proof.
  revert mask v. induction t as [|x t IH]; intros mask v Hlen.
  - destruct v; [reflexivity | discriminate].
  - destruct mask as [|b mask].
    + destruct v; [| discriminate]. simpl. rewrite (tensor_sum_zeros t). lra.
    + destruct b; simpl in *.
      * destruct v as [|y v]; [discriminate |]. simpl.
        rewrite IH; [reflexivity |]. injection Hlen as Hlen. exact Hlen.
      * rewrite IH; [lra | exact Hlen].
Qed.

Lemma any_imap_true (g : nat -> Q -> bool) (l : Tensor) :
  any (imap g l) = true <-> exists i x, l !! i = Some x /\ g i x = true.
Proof.
  revert g. induction l as [|y l IH]; intros g; simpl.
  - split; [discriminate | intros (i & x & H & _); destruct i; discriminate].
  - unfold any in *. simpl. rewrite orb_true_iff, IH. split.
    + intros [H | (i & x & H1 & H2)].
      * exists 0%nat, y. split; [reflexivity | exact H].
      * exists (S i), x. split; assumption.
    + intros (i & x & H1 & H2). destruct i as [|i]; simpl in H1.
      * left. congruence.
      * right. exists i, x. split; assumption.
Qed.

Lemma masked_select_imap_Forall (P : Q -> Prop) (g : nat -> Q -> bool) (l : Tensor) :
  (forall i x, g i x = true -> P x) -> Forall P (masked_select l (imap g l)).
Proof.
  revert g. induction l as [|y l IH]; intros g Hg; simpl; [constructor |].
  destruct (g 0%nat y) eqn:E.
  - constructor; [eapply Hg, E | apply IH; intros i x; apply (Hg (S i))].
  - apply IH. intros i x. apply (Hg (S i)).
Qed.

Lemma masked_select_imap_nonempty (g : nat -> Q -> bool) (l : Tensor) :
  any (imap g l) = true -> masked_select l (imap g l) <> [].
Proof.
  revert g. induction l as [|y l IH]; intros g; unfold any; simpl; [discriminate |].
  destruct (g 0%nat y); simpl; [discriminate |]. apply IH.
Qed.

Lemma masked_assign_imap_lookup (g : nat -> Q -> bool) (f : Q -> Q) (l : Tensor) (i : nat) :
  masked_assign (zeros_like l) (imap g l) (map f (masked_select l (imap g l))) !! i
  = (fun x => if g i x then f x else 0) <$> l !! i.
Proof.
  revert g i. induction l as [|y l IH]; intros g i; simpl; [reflexivity |].
  destruct (g 0%nat y) eqn:E; simpl.
  - destruct i as [|i]; simpl; [rewrite E; reflexivity |].
    apply (IH (g ∘ S)).
  - destruct i as [|i]; simpl; [rewrite E; reflexivity |].
    apply (IH (g ∘ S)).
Qed.

Lemma masked_assign_zeros (t : Tensor) (mask : list bool) (v : Tensor) :
  Forall (fun w => w = 0) v ->
  Forall (fun w => w = 0) (masked_assign (zeros_like t) mask v).
Proof.
  revert mask v. induction t as [|x t IH]; intros mask v Hv; simpl; [constructor |].
  destruct mask as [|b mask].
  - constructor; [reflexivity |]. clear. induction t; simpl; constructor; auto.
  - destruct b.
    + destruct Hv as [|y v Hy Hv]; constructor; auto.
    + constructor; auto.
Qed.

Lemma zeros_like_Forall (t : Tensor) : Forall (fun w => w = 0) (zeros_like t).
Proof. induction t; simpl; constructor; auto. Qed.

Lemma is_positive_true (x : Q) : is_positive x = true <-> 0 < x.
Proof.
  unfold is_positive. destruct (Qlt_le_dec 0 x) as [H|H]; split; intros H'; try done.
  exfalso. apply (Qlt_not_le _ _ H'), H.
Qed.

Lemma any_positive_mask (scores : Tensor) (evaluated : gset nat) :
  any (positive_mask scores evaluated) = true <-> some_evaluated_positive scores evaluated.
Proof.
  unfold positive_mask, some_evaluated_positive. rewrite any_imap_true. split.
  - intros (i & x & H1 & H2). apply andb_true_iff in H2 as [Hp He].
    exists i, x. split; [by apply bool_decide_eq_true in He |].
    split; [exact H1 | by apply is_positive_true].
  - intros (i & x & He & H1 & Hp). exists i, x. split; [exact H1 |].
    apply andb_true_iff. split; [by apply is_positive_true | by apply bool_decide_eq_true].
Qed.

Lemma within_tolerance (x : Q) : x == 1 -> Qabs (x - 1) <= tolerance.
Proof.
  intros H. assert (E : x - 1 == 0) by lra. rewrite E. discriminate.
Qed.

Lemma weights_after_evaluation_sum (scores : Tensor) (evaluated : gset nat) :
  some_evaluated_positive scores evaluated ->
  tensor_sum (weights_after_evaluation scores evaluated) == 1.
Proof.
  intros H. apply any_positive_mask in H. unfold weights_after_evaluation. rewrite H.
  rewrite tensor_sum_masked_assign by (by rewrite length_map).
  rewrite tensor_sum_scaled.
  assert (0 < tensor_sum (masked_select scores (positive_mask scores evaluated))).
  { apply tensor_sum_positive.
    - by apply masked_select_imap_nonempty.
    - apply masked_select_imap_Forall. intros i x Hx.
      apply andb_true_iff in Hx as [Hx _]. by apply is_positive_true. }
  field. lra.
Qed.

Lemma weights_after_missing_sum (scores : Tensor) (evaluated : gset nat) (power : nat) :
  some_evaluated_positive scores evaluated ->
  epsilon_default < powered_sum scores evaluated power ->
  tensor_sum (weights_after_missing scores evaluated power) == 1.
Proof.
  intros H Hs. apply any_positive_mask in H. unfold weights_after_missing. rewrite H.
  unfold min_power_normalization. fold (powered_sum scores evaluated power).
  destruct (Qlt_le_dec epsilon_default (powered_sum scores evaluated power)); [| lra].
  rewrite tensor_sum_masked_assign by (by rewrite !length_map).
  rewrite tensor_sum_scaled. fold (powered_sum scores evaluated power).
  unfold epsilon_default in *. field. lra.
Qed.

Lemma weights_after_evaluation_zero (scores : Tensor) (evaluated : gset nat) :
  ~ some_evaluated_positive scores evaluated ->
  Forall (fun w => w = 0) (weights_after_evaluation scores evaluated).
Proof.
  intros H. unfold weights_after_evaluation.
  destruct (any (positive_mask scores evaluated)) eqn:E.
  - exfalso. apply H. by apply any_positive_mask.
  - apply zeros_like_Forall.
Qed.

Lemma weights_after_missing_zero (scores : Tensor) (evaluated : gset nat) (power : nat) :
  ~ (some_evaluated_positive scores evaluated /\
     epsilon_default < powered_sum scores evaluated power) ->
  Forall (fun w => w = 0) (weights_after_missing scores evaluated power).
Proof.
  intros H. unfold weights_after_missing.
  destruct (any (positive_mask scores evaluated)) eqn:E; [| apply zeros_like_Forall].
  unfold min_power_normalization. fold (powered_sum scores evaluated power).
  destruct (Qlt_le_dec epsilon_default (powered_sum scores evaluated power)).
  - exfalso. apply H. split; [by apply any_positive_mask | done].
  - apply masked_assign_zeros, zeros_like_Forall.
Qed.

Lemma any_positive_mask_false (scores : Tensor) (evaluated : gset nat) (p : nat) (x : Q) :
  any (positive_mask scores evaluated) = false ->
  scores !! p = Some x ->
  is_positive x && bool_decide (p ∈ evaluated) = false.
Proof.
  intros Hany Hx. destruct (is_positive x && bool_decide (p ∈ evaluated)) eqn:E; [| done].
  assert (H : any (positive_mask scores evaluated) = true).
  { unfold positive_mask. apply any_imap_true. by exists p, x. }
  congruence.
Qed.

(** What each peer receives after a successful evaluation: its score over
    the plain sum of the masked scores, or 0 outside the mask. *)
Lemma weights_after_evaluation_entry (scores : Tensor) (evaluated : gset nat)
    (p : nat) (x : Q) :
  scores !! p = Some x ->
  weights_after_evaluation scores evaluated !! p
  = Some (if is_positive x && bool_decide (p ∈ evaluated)
          then x / tensor_sum (masked_select scores (positive_mask scores evaluated))
          else 0).
Proof.
  intros Hx. unfold weights_after_evaluation.
  destruct (any (positive_mask scores evaluated)) eqn:Hany.
  - unfold positive_mask at 1 3. rewrite masked_assign_imap_lookup, Hx. reflexivity.
  - rewrite (any_positive_mask_false _ _ _ _ Hany Hx).
    unfold zeros_like. rewrite list_lookup_fmap, Hx. reflexivity.
Qed.

(** What each peer receives after a missing submission: the power
    normalisation over the masked peers, 0 outside the mask, and 0
    everywhere when the powered sum is not above [epsilon]. *)
Lemma weights_after_missing_entry (scores : Tensor) (evaluated : gset nat)
    (power : nat) (p : nat) (x : Q) :
  scores !! p = Some x ->
  weights_after_missing scores evaluated power !! p
  = Some (if is_positive x && bool_decide (p ∈ evaluated)
          then if Qlt_le_dec epsilon_default (powered_sum scores evaluated power)
               then x ^ Z.of_nat power / powered_sum scores evaluated power
               else 0
          else 0).
Proof.
  intros Hx. unfold weights_after_missing.
  destruct (any (positive_mask scores evaluated)) eqn:Hany.
  - unfold min_power_normalization. fold (powered_sum scores evaluated power).
    destruct (Qlt_le_dec epsilon_default (powered_sum scores evaluated power)).
    + rewrite map_map. unfold positive_mask at 1 2.
      rewrite (masked_assign_imap_lookup _
                 (fun y => y ^ Z.of_nat power / powered_sum scores evaluated power)), Hx.
      reflexivity.
    + unfold zeros_like at 2. rewrite map_map. unfold positive_mask at 1 2.
      rewrite (masked_assign_imap_lookup _ (fun _ => 0)), Hx. simpl.
      destruct (is_positive x && bool_decide (p ∈ evaluated)); reflexivity.
  - rewrite (any_positive_mask_false _ _ _ _ Hany Hx).
    unfold zeros_like. rewrite list_lookup_fmap, Hx. reflexivity.
Qed.
(** * What the evaluation and the model update can change *)

Lemma ml_step_refl s : ml_step s s.
Proof. unfold ml_step. tauto. Qed.

Lemma ml_step_trans s1 s2 s3 : ml_step s1 s2 -> ml_step s2 s3 -> ml_step s1 s3.
Proof. unfold ml_step. intuition congruence. Qed.

Lemma ml_only_preserves {A : Type} (I : Validator -> Prop) (m : M A) :
  ml_only m -> ml_stable I -> preserves I m.
Proof.
  intros Hm HI s Hs. apply (HI s); [| exact Hs]. apply (Hm s s), ml_step_refl.
Qed.

Lemma ml_only_modify (f : Validator -> Validator) :
  (forall s, ml_step s (f s)) -> ml_only (modify f).
Proof.
  intros Hf s0. apply preserves_modify. intros s Hs.
  eapply ml_step_trans; [exact Hs | apply Hf].
Qed.

Lemma ml_only_state {A : Type} (m : M A) :
  (forall s, ml_step s (snd (m s))) -> ml_only m.
Proof. intros Hf s0 s Hs. eapply ml_step_trans; [exact Hs | apply Hf]. Qed.

Lemma ml_only_bind {A B : Type} (m : M A) (k : A -> M B) :
  ml_only m -> (forall a, ml_only (k a)) -> ml_only (bind m k).
Proof. intros Hm Hk s0. apply preserves_bind; [apply Hm | intros a; apply Hk]. Qed.

Lemma ml_only_ret {A : Type} (a : A) : ml_only (ret a).
Proof. intros s0. apply preserves_ret. Qed.
Lemma ml_only_raise {A : Type} (e : exn) : ml_only (@raise A e).
Proof. intros s0. apply preserves_raise. Qed.
Lemma ml_only_get : ml_only get.
Proof. intros s0. apply preserves_get. Qed.
Lemma ml_only_lift {A : Type} (r : Res A) : ml_only (lift r).
Proof. intros s0. apply preserves_lift. Qed.

Lemma apply_gradient_loop_names {decode} alpha sd l :
  map fst (snd (apply_gradient_loop decode alpha sd l)) = map fst l.
Proof.
  induction l as [|[n p] l IH]; simpl; [reflexivity |].
  destruct (sd !! (n +:+ "idxs")), (sd !! (n +:+ "vals"));
    try destruct (decode n (data p) _ _);
    try destruct (apply_gradient_loop decode alpha sd l); simpl in *; congruence.
Qed.

Lemma restore_params_loop_names o l :
  map fst (snd (restore_params_loop o l)) = map fst l.
Proof.
  induction l as [|[n p] l IH]; simpl; [reflexivity |].
  destruct (o !! n); [| reflexivity].
  destruct (restore_params_loop o l); simpl in *; congruence.
Qed.

Lemma gathered_gradient_loop_names {batch_decode} gsd l mom :
  map fst (snd (fst (gathered_gradient_loop batch_decode gsd l mom))) = map fst l.
Proof.
  revert mom. induction l as [|[n p] l IH]; intros mom; simpl; [reflexivity |].
  destruct (gsd !! (n +:+ "idxs")), (gsd !! (n +:+ "vals"));
    try destruct (batch_decode n (data p) _ _); simpl; try reflexivity.
  all: match goal with |- context [gathered_gradient_loop _ _ _ ?m] =>
         specialize (IH m); destruct (gathered_gradient_loop batch_decode gsd l m) as [[e r] mm] end;
       simpl in *; congruence.
Qed.

Lemma zero_grad_names m : param_names (zero_grad m) = param_names m.
Proof. unfold param_names, zero_grad. simpl. rewrite map_map. reflexivity. Qed.

Lemma set_training_names b m : param_names (set_training b m) = param_names m.
Proof. reflexivity. Qed.

Lemma sgd_step_names o m : param_names (sgd_step o m) = param_names m.
Proof.
  unfold param_names, sgd_step. simpl. rewrite map_map. apply map_ext.
  intros [n p]. simpl. destruct (grad p); reflexivity.
Qed.

Lemma load_state_dict_names m sd m' :
  load_state_dict m sd = Val m' -> param_names m' = param_names m.
Proof.
  unfold load_state_dict. case_decide; [| discriminate]. intros [= <-].
  unfold param_names. simpl. rewrite map_map. reflexivity.
Qed.

Lemma ml_step_with_model s m :
  param_names m = param_names (model s) -> ml_step s (with_model m s).
Proof. intros H. unfold ml_step. simpl. tauto. Qed.

Ltac preserves_tac :=
  repeat match goal with
    | |- preserves _ (let _ := _ in _) => cbv zeta
    | |- preserves _ (ret _) => apply preserves_ret
    | |- preserves _ (raise _) => apply preserves_raise
    | |- preserves _ get => apply preserves_get
    | |- preserves _ (lift _) => apply preserves_lift
    | |- preserves _ (bind _ _) => apply preserves_bind; [| intros ?]
    | |- preserves _ (modify _) => apply preserves_modify; intros ? ?; cbv beta; auto
    | |- preserves _ (if ?b then _ else _) => destruct b
    | |- preserves _ (match ?x with _ => _ end) => destruct x
    end.

Ltac ml_step_trivial := unfold ml_step; simpl; tauto.

Ltac ml_only_tac :=
  repeat match goal with
    | |- ml_only (let _ := _ in _) => cbv zeta
    | |- ml_only (ret _) => apply ml_only_ret
    | |- ml_only (raise _) => apply ml_only_raise
    | |- ml_only get => apply ml_only_get
    | |- ml_only (lift _) => apply ml_only_lift
    | |- ml_only (bind _ _) => apply ml_only_bind; [| intros ?]
    | |- ml_only (modify _) =>
        apply ml_only_modify; intros ?;
        first [ ml_step_trivial
              | apply ml_step_with_model;
                first [ apply zero_grad_names | apply set_training_names | apply sgd_step_names ] ]
    | |- ml_only (if ?b then _ else _) => destruct b
    | |- ml_only (match ?x with _ => _ end) => destruct x
    end.

Lemma ml_only_restore_params o : ml_only (restore_params o).
Proof.
  apply ml_only_state. intros s. unfold restore_params.
  pose proof (restore_params_loop_names o (named_parameters (model s))) as H.
  destruct (restore_params_loop _ _) as [e ps]. simpl in *.
  apply ml_step_with_model. exact H.
Qed.

Lemma ml_only_divides_step a b : ml_only (divides_step a b).
Proof. unfold divides_step. ml_only_tac. Qed.

Lemma ml_only_emit e : ml_only (emit e).
Proof. unfold emit. ml_only_tac. Qed.

Lemma ml_only_set_weights_periodically weights : ml_only (set_weights_periodically weights).
Proof.
  unfold set_weights_periodically.
  repeat first [ apply ml_only_divides_step | apply ml_only_emit | progress ml_only_tac ].
Qed.

Lemma ml_only_create_checkpoint : ml_only create_checkpoint.
Proof.
  unfold create_checkpoint.
  repeat first [ apply ml_only_divides_step | apply ml_only_emit | progress ml_only_tac ].
Qed.

Lemma ml_only_restore_original_state o : ml_only (restore_original_state o).
Proof.
  apply ml_only_state. intros s. unfold restore_original_state, bind, get, lift, modify.
  destruct (load_state_dict (model s) (snap_model o)) as [m|e] eqn:E; simpl.
  - apply load_state_dict_names in E. unfold ml_step. simpl. tauto.
  - apply ml_step_refl.
Qed.

Lemma preserves_update_scores_model (I : Validator -> Prop) u l :
  (forall s x, I s -> I (with_binary_moving_averages x s)) ->
  (forall s x, I s -> I (with_moving_avg_scores x s)) ->
  (forall s x, I s -> I (with_evaluated_uids x s)) ->
  preserves I (update_scores u l).
Proof.
  intros H1 H2 H3. unfold update_scores.
  preserves_tac.
Qed.

Lemma preserves_missing_submission_model (I : Validator -> Prop) u :
  (forall s x, I s -> I (with_moving_avg_scores x s)) ->
  (forall s x, I s -> I (with_evaluated_uids x s)) ->
  preserves I (missing_submission u).
Proof.
  intros H2 H3. unfold missing_submission.
  preserves_tac.
Qed.

Section RunFacts.
Variable Batch : Type.
Variable forward : Model -> Batch -> option Q.
Variable decode : string -> Tensor -> Tensor -> Tensor -> option Tensor.
Variable batch_decode : string -> Tensor -> list Tensor -> list Tensor -> option Tensor.
Variable lr_at : nat -> Q.

Lemma ml_only_apply_gradient sd : ml_only (apply_gradient decode sd).
Proof.
  apply ml_only_state. intros s. unfold apply_gradient.
  pose proof (apply_gradient_loop_names (decode:=decode) (last_lr (scheduler s)) sd
                (named_parameters (model s))) as H.
  destruct (apply_gradient_loop _ _ _ _) as [e ps]. simpl in *.
  apply ml_step_with_model. exact H.
Qed.

Lemma ml_only_gathered_gradient gsd : ml_only (gathered_gradient batch_decode gsd).
Proof.
  apply ml_only_state. intros s. unfold gathered_gradient.
  pose proof (gathered_gradient_loop_names (batch_decode:=batch_decode) gsd
                (named_parameters (model s)) (momentum s)) as H.
  destruct (gathered_gradient_loop _ _ _ _) as [[e ps] mom]. simpl in *.
  unfold ml_step. simpl. tauto.
Qed.

Lemma ml_only_evaluate w sd : ml_only (evaluate Batch forward decode w sd).
Proof.
  unfold evaluate.
  repeat first [ apply ml_only_apply_gradient | apply ml_only_restore_params | progress ml_only_tac ].
Qed.

Lemma ml_only_update_model w : ml_only (update_model Batch batch_decode lr_at w).
Proof.
  unfold update_model.
  repeat first [ apply ml_only_gathered_gradient | progress ml_only_tac ].
Qed.

Lemma ml_only_after_scoring w weights :
  ml_only (after_scoring Batch batch_decode lr_at w weights).
Proof.
  unfold after_scoring.
  apply ml_only_bind; [apply ml_only_create_checkpoint | intros _].
  apply ml_only_bind; [apply ml_only_update_model | intros _].
  apply ml_only_bind; [apply ml_only_set_weights_periodically | intros due].
  ml_only_tac.
Qed.

Lemma preserves_score_peer (I : Validator -> Prop) w u :
  ml_stable I ->
  (forall l, preserves I (update_scores u l)) ->
  preserves I (missing_submission u) ->
  preserves I (score_peer Batch forward decode w u).
Proof.
  intros HI Hu Hm. unfold score_peer.
  assert (Hml : forall A (m : M A), ml_only m -> preserves I m)
    by (intros A m H; apply ml_only_preserves; assumption).
  destruct (eval_result w) as [[sd|]|]; try exact Hm.
  apply preserves_bind; [apply Hml, ml_only_evaluate | intros l].
  apply preserves_bind; [apply Hml; ml_only_tac | intros _].
  apply preserves_bind; [apply Hu | intros weights].
  apply preserves_bind; [apply Hml, ml_only_set_weights_periodically | intros _].
  apply preserves_ret.
Qed.

Lemma preserves_try_body (I : Validator -> Prop) w u :
  ml_stable I ->
  (forall l, preserves I (update_scores u l)) ->
  preserves I (missing_submission u) ->
  preserves I (try_body Batch forward decode batch_decode lr_at w u).
Proof.
  intros HI Hu Hm. unfold try_body.
  apply preserves_bind; [by apply preserves_score_peer | intros weights].
  apply ml_only_preserves; [apply ml_only_after_scoring | exact HI].
Qed.

Lemma try_body_names w u s :
  param_names (model (snd (try_body Batch forward decode batch_decode lr_at w u s)))
  = param_names (model s).
Proof.
  apply (preserves_try_body (fun s' => param_names (model s') = param_names (model s))).
  - intros s1 s2 H12 H1. rewrite <- H1. apply H12.
  - intros l. apply preserves_update_scores_model; auto.
  - apply preserves_missing_submission_model; auto.
  - reflexivity.
Qed.

End RunFacts.

Lemma list_to_map_agree {A : Type} (sd : gmap string A) (L : list (string * A)) k :
  (forall kv, kv ∈ L -> sd !! kv.1 = Some kv.2) ->
  k ∈ L.*1 -> (list_to_map L : gmap string A) !! k = sd !! k.
Proof.
  induction L as [|[k0 v0] L IH]; intros HL Hk; simpl in *.
  - by apply elem_of_nil in Hk.
  - destruct (decide (k0 = k)) as [->|Hne].
    + rewrite lookup_insert_eq. symmetry. apply (HL (k, v0)). left.
    + rewrite lookup_insert_ne by done. apply IH.
      * intros kv Hkv. apply HL. by right.
      * apply elem_of_cons in Hk as [Hk | Hk]; [congruence | done].
Qed.

Lemma dom_dict_of {A : Type} (l : list (string * A)) :
  dom (dict_of l) = list_to_set l.*1.
Proof.
  unfold dict_of. rewrite dom_list_to_map_L. apply set_eq. intros k.
  rewrite !elem_of_list_to_set, fmap_reverse, elem_of_reverse. reflexivity.
Qed.

Lemma state_dict_names m : (state_dict m).*1 = param_names m.
Proof.
  unfold state_dict, param_names. rewrite <- list_fmap_compose. reflexivity.
Qed.

Lemma load_state_dict_snapshot m0 m1 :
  param_names m1 = param_names m0 ->
  exists m', load_state_dict m1 (dict_of (state_dict m0)) = Val m' /\
             dict_of (state_dict m') = dict_of (state_dict m0).
Proof.
  intros Hn. set (sd := dict_of (state_dict m0)).
  assert (Hdom : dom sd = list_to_set (map fst (named_parameters m1))).
  { unfold sd. rewrite dom_dict_of, state_dict_names. fold (param_names m1). by rewrite Hn. }
  unfold load_state_dict. rewrite decide_True by exact Hdom.
  eexists. split; [reflexivity |].
  apply map_eq. intros k. unfold dict_of at 1.
  set (L := reverse (state_dict _)).
  assert (HL : forall kv, kv ∈ L -> sd !! kv.1 = Some kv.2).
  { intros [k' v'] Hkv. unfold L in Hkv. rewrite elem_of_reverse in Hkv.
    unfold state_dict in Hkv. simpl in Hkv.
    apply list_elem_of_fmap in Hkv as ([n p] & E & Hnp). simpl in E. injection E as -> ->.
    apply list_elem_of_fmap in Hnp as ([n' p'] & E & Hnp). simpl in E. injection E as -> ->.
    simpl. assert (Hin : n' ∈ dom sd).
    { rewrite Hdom. apply elem_of_list_to_set. apply list_elem_of_fmap. by exists (n', p'). }
    apply elem_of_dom in Hin as [t Ht]. rewrite Ht. reflexivity. }
  destruct (decide (k ∈ L.*1)) as [Hk | Hk].
  - by apply list_to_map_agree.
  - rewrite (not_elem_of_list_to_map_1 _ _ Hk). symmetry.
    apply not_elem_of_dom. rewrite Hdom. intros Hin. apply Hk.
    unfold L. rewrite fmap_reverse, elem_of_reverse, state_dict_names.
    simpl. unfold param_names. simpl. rewrite map_map. simpl.
    by apply elem_of_list_to_set in Hin.
Qed.

Section RunFacts2.
Variable Batch : Type.
Variable forward : Model -> Batch -> option Q.
Variable decode : string -> Tensor -> Tensor -> Tensor -> option Tensor.
Variable batch_decode : string -> Tensor -> list Tensor -> list Tensor -> option Tensor.
Variable lr_at : nat -> Q.

Lemma evaluation_phase_snapshot (w : Window Batch) (s : Validator) :
  original_state (snd (evaluation_phase Batch forward decode batch_decode lr_at w s))
  = original_state s.
Proof.
  unfold evaluation_phase, bind, get, lift.
  destruct (random_choice (eval_peers s) (choice_draw w)) as [u|e]; [| reflexivity].
  unfold try_finally.
  pose proof (try_body_names Batch forward decode batch_decode lr_at w u s) as Hn.
  destruct (try_body _ _ _ _ _ w u s) as [r s1]. simpl in Hn.
  destruct (load_state_dict_snapshot (model s) (model s1) Hn) as (m' & E & Hd).
  unfold restore_original_state, bind, get, lift, modify. simpl.
  rewrite E. simpl. unfold original_state. simpl. rewrite Hd. reflexivity.
Qed.

End RunFacts2.

(** * Scores: what each update does to [moving_avg_scores] *)

Lemma random_choice_elem (l : list nat) (draw u : nat) :
  random_choice l draw = Val u -> u ∈ l.
Proof.
  unfold random_choice. destruct (l !! _) as [x|] eqn:E; [| discriminate].
  intros [= <-]. eapply list_elem_of_lookup_2, E.
Qed.

Lemma missing_submission_state (u : nat) (s : Validator) (x : Q) :
  moving_avg_scores s !! u = Some x ->
  snd (missing_submission u s)
  = with_evaluated_uids ({[u]} ∪ evaluated_uids s)
      (with_moving_avg_scores (<[u := x * (1 # 2)]> (moving_avg_scores s)) s).
Proof.
  intros E. unfold missing_submission, bind, get, lift, modify, item. rewrite E. simpl.
  destruct (evaluated_mask_ok _ _); reflexivity.
Qed.

Lemma missing_submission_value (u : nat) (s : Validator) (x : Q) :
  moving_avg_scores s !! u = Some x ->
  evaluated_mask_ok (<[u := x * (1 # 2)]> (moving_avg_scores s))
                    ({[u]} ∪ evaluated_uids s) = true ->
  fst (missing_submission u s)
  = Val (weights_after_missing (<[u := x * (1 # 2)]> (moving_avg_scores s))
           ({[u]} ∪ evaluated_uids s) (power_normalisation (hparams s))).
Proof.
  intros E Hok. unfold missing_submission, bind, get, lift, modify, item. rewrite E. simpl.
  rewrite Hok. reflexivity.
Qed.

Lemma missing_submission_raises (u : nat) (s : Validator) :
  moving_avg_scores s !! u = None -> missing_submission u s = (Exn IndexError, s).
Proof.
  intros E. unfold missing_submission, bind, get, lift, modify, item. rewrite E. reflexivity.
Qed.

(** The moving average a successful evaluation writes for the peer. *)
Lemma update_scores_state (u : nat) (l : Losses) (s : Validator) (x : Q) :
  moving_avg_scores s !! u = Some x ->
  let alpha := ma_alpha (hparams s) in
  let average :=
    (1 - alpha) * default 0 (binary_moving_averages s !! u)
    + alpha * binary_indicator (improvement_own_of l) (improvement_random_of l) in
  snd (update_scores u l s)
  = with_evaluated_uids ({[u]} ∪ evaluated_uids s)
      (with_moving_avg_scores
         (<[u := py_max ((1 - alpha) * x + alpha * (score_of l * (average / 2))) 0]>
            (moving_avg_scores s))
         (with_binary_moving_averages (<[u := average]> (binary_moving_averages s)) s)).
Proof.
  intros E. unfold update_scores, bind, get, lift, modify, item. simpl. rewrite E. simpl.
  destruct (evaluated_mask_ok _ _); reflexivity.
Qed.

Lemma update_scores_raises (u : nat) (l : Losses) (s : Validator) :
  moving_avg_scores s !! u = None ->
  fst (update_scores u l s) = Exn IndexError /\
  moving_avg_scores (snd (update_scores u l s)) = moving_avg_scores s /\
  evaluated_uids (snd (update_scores u l s)) = evaluated_uids s /\
  inactive_scores (snd (update_scores u l s)) = inactive_scores s /\
  eval_peers (snd (update_scores u l s)) = eval_peers s.
Proof.
  intros E. unfold update_scores, bind, get, lift, modify, item. simpl. rewrite E. simpl.
  auto.
Qed.

Lemma track_inactive_state (u : nat) (s : Validator) :
  track_inactive u s =
  match inactive_scores s !! u with
  | Some _ => (Val tt, s)
  | None =>
      match moving_avg_scores s !! u with
      | Some x => (Val tt, with_inactive_scores (<[u := (sync_window s, x)]> (inactive_scores s)) s)
      | None => (Exn IndexError, s)
      end
  end.
Proof.
  unfold track_inactive, bind, get, lift, modify, item.
  destruct (inactive_scores s !! u); [reflexivity |].
  destruct (moving_avg_scores s !! u); reflexivity.
Qed.

Lemma penalize_inactive_state (u : nat) (s : Validator) :
  penalize_inactive u s =
  if bool_decide (u ∈ eval_peers s)
  then (Val tt, with_inactive_scores (delete u (inactive_scores s)) s)
  else match moving_avg_scores s !! u with
       | Some x => (Val tt, with_moving_avg_scores (<[u := x * (3 # 4)]> (moving_avg_scores s)) s)
       | None => (Exn IndexError, s)
       end.
Proof.
  unfold penalize_inactive, bind, get, lift, modify, item.
  destruct (bool_decide _); [reflexivity |].
  destruct (moving_avg_scores s !! u); reflexivity.
Qed.

Lemma py_max_nonneg (a : Q) : 0 <= py_max a 0.
Proof. unfold py_max. destruct (Qlt_le_dec a 0); lra. Qed.

(** ** Invariants of a whole iteration *)

Section Iteration.
Variable Batch : Type.
Variable forward : Model -> Batch -> option Q.
Variable decode : string -> Tensor -> Tensor -> Tensor -> option Tensor.
Variable batch_decode : string -> Tensor -> list Tensor -> list Tensor -> option Tensor.
Variable lr_at : nat -> Q.

Lemma preserves_evaluation_phase (I : Validator -> Prop) (w : Window Batch) :
  ml_stable I ->
  (forall u l, preserves (fun s => I s /\ u ∈ eval_peers s) (update_scores u l)) ->
  (forall u, preserves (fun s => I s /\ u ∈ eval_peers s) (missing_submission u)) ->
  preserves I (evaluation_phase Batch forward decode batch_decode lr_at w).
Proof.
  intros HI Hu Hm s Hs. unfold evaluation_phase, bind, get, lift.
  destruct (random_choice (eval_peers s) (choice_draw w)) as [u|e] eqn:E; [| exact Hs].
  apply random_choice_elem in E.
  assert (Hb : (fun s => I s /\ u ∈ eval_peers s)
                 (snd (try_body Batch forward decode batch_decode lr_at w u s))).
  { apply preserves_try_body; auto.
    intros s1 s2 H12 [H1 H1']. split; [by apply (HI s1) |].
    destruct H12 as (_ & _ & _ & _ & _ & _ & _ & _ & -> & _). exact H1'. }
  unfold try_finally.
  destruct (try_body Batch forward decode batch_decode lr_at w u s) as [r s1].
  simpl in Hb. destruct Hb as [Hb _].
  pose proof (ml_only_preserves I _ (ml_only_restore_original_state (original_state s)) HI s1 Hb) as Hf.
  destruct (restore_original_state (original_state s) s1) as [[[]|e] s2]; exact Hf.
Qed.

Lemma preserves_inactivity (I : Validator -> Prop) (l : list nat) :
  (forall u, preserves I (track_inactive u)) ->
  (forall u, preserves I (penalize_inactive u)) ->
  preserves I (inactivity l).
Proof.
  intros Ht Hp. unfold inactivity.
  apply preserves_bind; [apply preserves_for_each; auto | intros _].
  apply preserves_bind; [apply preserves_get | intros s].
  apply preserves_for_each; auto.
Qed.

Lemma preserves_iteration (I : Validator -> Prop) (w : Window Batch) :
  ml_stable I ->
  (forall s x, I s -> I (with_current_window x s)) ->
  (forall s c, I s -> I (adopt_catch_up c s)) ->
  (forall s, I s -> I (refresh_peers Batch w s)) ->
  (forall u, preserves I (track_inactive u)) ->
  (forall u, preserves I (penalize_inactive u)) ->
  (forall u l, preserves (fun s => I s /\ u ∈ eval_peers s) (update_scores u l)) ->
  (forall u, preserves (fun s => I s /\ u ∈ eval_peers s) (missing_submission u)) ->
  preserves I (iteration Batch forward decode batch_decode lr_at w).
Proof.
  intros HI Hc Ha Hr Ht Hp Hu Hm. unfold iteration.
  apply preserves_bind; [apply preserves_modify; auto | intros _].
  destruct (catch_up w) as [c|]; [apply preserves_modify; auto |].
  apply preserves_bind; [apply preserves_modify; auto | intros _].
  apply preserves_bind; [by apply preserves_inactivity | intros _].
  apply preserves_bind; [apply preserves_get | intros s].
  destruct (eval_peers s).
  - apply preserves_modify. intros s0 Hs0. apply (HI s0); [| exact Hs0].
    unfold ml_step. simpl. tauto.
  - by apply preserves_evaluation_phase.
Qed.

End Iteration.

(** * Non-negative scores *)

Lemma nonneg_update_scores (u : nat) (l : Losses) :
  preserves scores_nonneg (update_scores u l).
Proof.
  intros s H. unfold scores_nonneg in *.
  destruct (moving_avg_scores s !! u) as [x|] eqn:E.
  - rewrite (update_scores_state u l s x E). simpl.
    apply Forall_insert; [exact H | apply py_max_nonneg].
  - destruct (update_scores_raises u l s E) as (_ & -> & _). exact H.
Qed.

Lemma nonneg_missing_submission (u : nat) :
  preserves scores_nonneg (missing_submission u).
Proof.
  intros s H. unfold scores_nonneg in *.
  destruct (moving_avg_scores s !! u) as [x|] eqn:E.
  - rewrite (missing_submission_state u s x E). simpl.
    apply Forall_insert; [exact H |].
    assert (0 <= x) by (eapply (proj1 (Forall_lookup _ _) H), E). lra.
  - rewrite (missing_submission_raises u s E). exact H.
Qed.

Lemma nonneg_penalize_inactive (u : nat) :
  preserves scores_nonneg (penalize_inactive u).
Proof.
  intros s H. unfold scores_nonneg in *. rewrite penalize_inactive_state.
  destruct (bool_decide _); [exact H |].
  destruct (moving_avg_scores s !! u) as [x|] eqn:E; [| exact H]. simpl.
  apply Forall_insert; [exact H |].
  assert (0 <= x) by (eapply (proj1 (Forall_lookup _ _) H), E). lra.
Qed.

Lemma nonneg_track_inactive (u : nat) :
  preserves scores_nonneg (track_inactive u).
Proof.
  intros s H. rewrite track_inactive_state.
  destruct (inactive_scores s !! u); [exact H |].
  destruct (moving_avg_scores s !! u); exact H.
Qed.

Lemma preserves_with_eval_peer (I : Validator -> Prop) (u : nat) (m : M Tensor) :
  preserves I m -> (forall s, eval_peers (snd (m s)) = eval_peers s) ->
  preserves (fun s => I s /\ u ∈ eval_peers s) m.
Proof. intros H He s [H1 H2]. split; [by apply H | by rewrite He]. Qed.

Lemma update_scores_eval_peers (u : nat) (l : Losses) (s : Validator) :
  eval_peers (snd (update_scores u l s)) = eval_peers s.
Proof.
  destruct (moving_avg_scores s !! u) as [x|] eqn:E.
  - by rewrite (update_scores_state u l s x E).
  - by destruct (update_scores_raises u l s E) as (_ & _ & _ & _ & ->).
Qed.

Lemma missing_submission_eval_peers (u : nat) (s : Validator) :
  eval_peers (snd (missing_submission u s)) = eval_peers s.
Proof.
  destruct (moving_avg_scores s !! u) as [x|] eqn:E.
  - by rewrite (missing_submission_state u s x E).
  - by rewrite (missing_submission_raises u s E).
Qed.

Section Nonneg.
Variable Batch : Type.
Variable forward : Model -> Batch -> option Q.
Variable decode : string -> Tensor -> Tensor -> Tensor -> option Tensor.
Variable batch_decode : string -> Tensor -> list Tensor -> list Tensor -> option Tensor.
Variable lr_at : nat -> Q.

Lemma nonneg_iteration (w : Window Batch) :
  preserves scores_nonneg (iteration Batch forward decode batch_decode lr_at w).
Proof.
  apply preserves_iteration.
  - intros s s' H. unfold scores_nonneg.
    destruct H as (_ & _ & _ & _ & _ & -> & _). auto.
  - auto.
  - auto.
  - auto.
  - apply nonneg_track_inactive.
  - apply nonneg_penalize_inactive.
  - intros u l. apply preserves_with_eval_peer;
      [apply nonneg_update_scores | apply update_scores_eval_peers].
  - intros u. apply preserves_with_eval_peer;
      [apply nonneg_missing_submission | apply missing_submission_eval_peers].
Qed.

Lemma nonneg_run (ws : list (Window Batch)) :
  preserves scores_nonneg (run Batch forward decode batch_decode lr_at ws).
Proof. apply preserves_for_each. intros w _. apply nonneg_iteration. Qed.

End Nonneg.

Lemma zeros_nonneg (n : nat) : Forall (fun x => 0 <= x) (replicate n 0).
Proof. apply Forall_replicate. lra. Qed.

(** * Inactivity: tracking and decay *)

Lemma track_loop_on_return (l : list nat) (s s' : Validator) :
  for_each l track_inactive s = (Val tt, s') ->
  moving_avg_scores s' = moving_avg_scores s /\
  eval_peers s' = eval_peers s /\
  forall u, u ∈ l \/ is_Some (inactive_scores s !! u) -> is_Some (inactive_scores s' !! u).
Proof.
  revert s. induction l as [|k l IH]; intros s E; simpl in E.
  - injection E as <-. split; [done |]. split; [done |].
    intros u [Hu | Hu]; [by apply elem_of_nil in Hu | done].
  - unfold bind in E. rewrite track_inactive_state in E.
    destruct (inactive_scores s !! k) as [v|] eqn:Ek.
    + destruct (IH _ E) as (Hm & He & Ht). split; [done |]. split; [done |].
      intros u [Hu | Hu]; apply Ht; [| by right].
      apply elem_of_cons in Hu as [-> | Hu]; [right; by rewrite Ek | by left].
    + destruct (moving_avg_scores s !! k) as [x|] eqn:Ex; [| discriminate].
      destruct (IH _ E) as (Hm & He & Ht). simpl in *. split; [done |]. split; [done |].
      intros u Hu. apply Ht.
      destruct (decide (u = k)) as [-> | Hne].
      * right. rewrite lookup_insert_eq. by eexists.
      * rewrite lookup_insert_ne by done. destruct Hu as [Hu | Hu]; [| by right].
        apply elem_of_cons in Hu as [-> | Hu]; [done | by left].
Qed.

Lemma penalize_loop_decays (keys : list nat) (s s' : Validator) (p : nat) (x : Q) :
  for_each keys penalize_inactive s = (Val tt, s') ->
  NoDup keys -> p ∉ eval_peers s -> moving_avg_scores s !! p = Some x ->
  moving_avg_scores s' !! p = Some (if bool_decide (p ∈ keys) then x * (3 # 4) else x) /\
  eval_peers s' = eval_peers s /\
  inactive_scores s' !! p = inactive_scores s !! p.
Proof.
  revert s x. induction keys as [|k keys IH]; intros s x E Hnd Hp Hx; simpl in E.
  - injection E as <-. rewrite bool_decide_eq_false_2 by apply not_elem_of_nil. done.
  - apply NoDup_cons in Hnd as [Hk Hnd].
    unfold bind in E. rewrite penalize_inactive_state in E.
    destruct (bool_decide (k ∈ eval_peers s)) eqn:Hke.
    + apply bool_decide_eq_true in Hke.
      assert (k <> p) by (intros ->; done).
      destruct (IH _ x E Hnd) as (Hm & He & Hi); [done | done |]. simpl in *.
      rewrite Hm, He, Hi, lookup_delete_ne by done. split; [| done].
      f_equal. rewrite (bool_decide_ext (p ∈ k :: keys) (p ∈ keys)); [done |].
      rewrite elem_of_cons. split; [intros [-> | Hin]; done | by right].
    + destruct (moving_avg_scores s !! k) as [y|] eqn:Ey; [| discriminate].
      destruct (decide (k = p)) as [-> | Hne].
      * assert (y = x) as -> by congruence.
        destruct (IH _ (x * (3 # 4)) E Hnd) as (Hm & He & Hi); [done | |].
        { simpl. apply list_lookup_insert_eq. eapply lookup_lt_Some, Hx. }
        simpl in *. rewrite Hm, He, Hi. split; [| done].
        rewrite (bool_decide_eq_false_2 _ Hk).
        rewrite bool_decide_eq_true_2 by left. done.
      * destruct (IH _ x E Hnd) as (Hm & He & Hi); [done | |].
        { simpl. by rewrite list_lookup_insert_ne. }
        simpl in *. rewrite Hm, He, Hi. split; [| done].
        f_equal. rewrite (bool_decide_ext (p ∈ k :: keys) (p ∈ keys)); [done |].
        rewrite elem_of_cons. split; [intros [-> | Hin]; done | by right].
Qed.

Lemma penalize_loop_returning (keys : list nat) (s s' : Validator) (p : nat) :
  for_each keys penalize_inactive s = (Val tt, s') ->
  p ∈ eval_peers s ->
  moving_avg_scores s' !! p = moving_avg_scores s !! p /\
  (p ∈ keys \/ inactive_scores s !! p = None -> inactive_scores s' !! p = None).
Proof.
  revert s. induction keys as [|k keys IH]; intros s E Hp; simpl in E.
  - injection E as <-. split; [done |]. intros [H | H]; [by apply elem_of_nil in H | done].
  - unfold bind in E. rewrite penalize_inactive_state in E.
    destruct (bool_decide (k ∈ eval_peers s)) eqn:Hke.
    + destruct (IH _ E) as (Hm & Hi); [done |]. simpl in *. split; [done |].
      intros H. apply Hi. destruct (decide (k = p)) as [-> | Hne].
      * right. apply lookup_delete_eq.
      * rewrite lookup_delete_ne by done. destruct H as [H | H]; [| by right].
        apply elem_of_cons in H as [-> | H]; [done | by left].
    + apply bool_decide_eq_false in Hke.
      destruct (moving_avg_scores s !! k) as [y|] eqn:Ey; [| discriminate].
      assert (k <> p) by (intros ->; done).
      destruct (IH _ E) as (Hm & Hi); [done |]. simpl in *.
      rewrite Hm, list_lookup_insert_ne by done. split; [done |].
      intros H'. apply Hi. destruct H' as [H' | H']; [| by right].
      apply elem_of_cons in H' as [-> | H']; [done | by left].
Qed.

Lemma inactivity_on_return (l : list nat) (s s' : Validator) :
  inactivity l s = (Val tt, s') ->
  exists s1, for_each l track_inactive s = (Val tt, s1) /\
    for_each (map fst (map_to_list (inactive_scores s1))) penalize_inactive s1 = (Val tt, s').
Proof.
  unfold inactivity, bind, get. intros E.
  destruct (for_each l track_inactive s) as [[[]|e] s1]; [| discriminate].
  by exists s1.
Qed.

Lemma tracked_keys (m : gmap nat (Z * Q)) (p : nat) :
  p ∈ map fst (map_to_list m) <-> is_Some (m !! p).
Proof.
  change (map fst (map_to_list m)) with ((map_to_list m).*1).
  rewrite list_elem_of_fmap. split.
  - intros ([k v] & -> & H). apply elem_of_map_to_list in H. by eexists.
  - intros [v H]. exists (p, v). split; [done | by apply elem_of_map_to_list].
Qed.

(** One window of absence: the tracked (or newly reported) peer keeps
    three quarters of its score and stays tracked. *)
Lemma inactivity_decays (l : list nat) (s s' : Validator) (p : nat) (x : Q) :
  inactivity l s = (Val tt, s') ->
  p ∉ eval_peers s ->
  p ∈ l \/ is_Some (inactive_scores s !! p) ->
  moving_avg_scores s !! p = Some x ->
  moving_avg_scores s' !! p = Some (x * (3 # 4)) /\
  is_Some (inactive_scores s' !! p) /\
  eval_peers s' = eval_peers s.
Proof.
  intros E Hp Ht Hx. apply inactivity_on_return in E as (s1 & E1 & E2).
  apply track_loop_on_return in E1 as (Hm1 & He1 & Ht1).
  specialize (Ht1 p Ht).
  destruct (penalize_loop_decays _ _ _ p x E2) as (Hm & He & Hi).
  - apply NoDup_fst_map_to_list.
  - by rewrite He1.
  - by rewrite Hm1.
  - rewrite bool_decide_eq_true_2 in Hm by (by apply tracked_keys).
    rewrite Hi, He, He1. done.
Qed.

(** The window in which the peer is an eval peer again: it leaves the
    tracking and its score is not touched. *)
Lemma inactivity_returning (l : list nat) (s s' : Validator) (p : nat) :
  inactivity l s = (Val tt, s') ->
  p ∈ eval_peers s ->
  inactive_scores s' !! p = None /\
  moving_avg_scores s' !! p = moving_avg_scores s !! p.
Proof.
  intros E Hp. apply inactivity_on_return in E as (s1 & E1 & E2).
  apply track_loop_on_return in E1 as (Hm1 & He1 & Ht1).
  destruct (penalize_loop_returning _ _ _ p E2) as (Hm & Hi); [by rewrite He1 |].
  split; [| by rewrite Hm, Hm1].
  apply Hi. destruct (inactive_scores s1 !! p) eqn:Es; [left | by right].
  apply tracked_keys. by eexists.
Qed.

Lemma departed_reported (previous current : list nat) (p : nat) :
  p ∈ previous -> p ∉ current -> p ∈ departed previous current.
Proof. intros Hp Hc. unfold departed. apply list_elem_of_filter. done. Qed.

(** * Whole iterations *)

Lemma rep_step_refl (s : Validator) : rep_step s s.
Proof. unfold rep_step. tauto. Qed.

Lemma rep_step_trans (s1 s2 s3 : Validator) :
  rep_step s1 s2 -> rep_step s2 s3 -> rep_step s1 s3.
Proof. unfold rep_step. intuition congruence. Qed.

Lemma rep_step_track_inactive (s0 : Validator) (u : nat) :
  preserves (rep_step s0) (track_inactive u).
Proof.
  intros s H. rewrite track_inactive_state.
  destruct (inactive_scores s !! u); [exact H |].
  destruct (moving_avg_scores s !! u); [| exact H].
  eapply rep_step_trans; [exact H |]. unfold rep_step. simpl. tauto.
Qed.

Lemma rep_step_penalize_inactive (s0 : Validator) (u : nat) :
  preserves (rep_step s0) (penalize_inactive u).
Proof.
  intros s H. rewrite penalize_inactive_state.
  destruct (bool_decide _).
  - eapply rep_step_trans; [exact H |]. unfold rep_step. simpl. tauto.
  - destruct (moving_avg_scores s !! u); [| exact H].
    eapply rep_step_trans; [exact H |]. unfold rep_step. simpl.
    rewrite length_insert. tauto.
Qed.

Lemma rep_step_inactivity (l : list nat) (s : Validator) :
  rep_step s (snd (inactivity l s)).
Proof.
  apply (preserves_inactivity (rep_step s)).
  - apply rep_step_track_inactive.
  - apply rep_step_penalize_inactive.
  - apply rep_step_refl.
Qed.

Lemma track_loop_returns (l : list nat) (s : Validator) :
  uids_valid l s -> exists s', for_each l track_inactive s = (Val tt, s').
Proof.
  unfold uids_valid. revert s. induction l as [|k l IH]; intros s H; simpl.
  - by eexists.
  - apply Forall_cons in H as [Hk H]. unfold bind. rewrite track_inactive_state.
    destruct (inactive_scores s !! k); [by apply IH |].
    destruct (lookup_lt_is_Some_2 _ _ Hk) as [x ->]. by apply IH.
Qed.

Lemma track_loop_tracked_inv (l : list nat) (s s' : Validator) (u : nat) :
  for_each l track_inactive s = (Val tt, s') ->
  is_Some (inactive_scores s' !! u) -> u ∈ l \/ is_Some (inactive_scores s !! u).
Proof.
  revert s. induction l as [|k l IH]; intros s E Hu; simpl in E.
  - injection E as <-. by right.
  - unfold bind in E. rewrite track_inactive_state in E.
    destruct (inactive_scores s !! k) as [v|] eqn:Ek.
    + destruct (IH _ E Hu) as [H | H]; [left; by right | by right].
    + destruct (moving_avg_scores s !! k) as [x|]; [| discriminate].
      destruct (IH _ E Hu) as [H | H]; [left; by right |]. simpl in H.
      destruct (decide (k = u)) as [-> | Hne]; [left; left |].
      rewrite lookup_insert_ne in H by done. by right.
Qed.

Lemma penalize_loop_returns (keys : list nat) (s : Validator) :
  uids_valid keys s -> exists s', for_each keys penalize_inactive s = (Val tt, s').
Proof.
  unfold uids_valid. revert s. induction keys as [|k keys IH]; intros s H; simpl.
  - by eexists.
  - apply Forall_cons in H as [Hk H]. unfold bind. rewrite penalize_inactive_state.
    destruct (bool_decide _); [by apply IH |].
    destruct (lookup_lt_is_Some_2 _ _ Hk) as [x ->]. apply IH. simpl.
    by rewrite length_insert.
Qed.

Lemma inactivity_returns (l : list nat) (s : Validator) :
  uids_valid l s -> tracked_valid s -> exists s', inactivity l s = (Val tt, s').
Proof.
  intros Hl Ht. destruct (track_loop_returns l s Hl) as [s1 E1].
  destruct (track_loop_on_return l s s1 E1) as (Hm & _ & _).
  destruct (penalize_loop_returns (map fst (map_to_list (inactive_scores s1))) s1) as [s2 E2].
  { unfold uids_valid. apply Forall_forall. intros u Hu. rewrite Hm.
    apply tracked_keys in Hu.
    destruct (track_loop_tracked_inv l s s1 u E1 Hu) as [H | H]; [| by apply Ht].
    unfold uids_valid in Hl. by eapply (proj1 (Forall_forall _ _) Hl). }
  exists s2. unfold inactivity, bind, get. rewrite E1. exact E2.
Qed.

Lemma ml_stable_absent_peer_kept (p : nat) (v : Q) : ml_stable (absent_peer_kept p v).
Proof.
  intros s s' H. unfold absent_peer_kept.
  destruct H as (_ & _ & _ & _ & _ & -> & _ & _ & -> & -> & _). auto.
Qed.

Lemma absent_update_scores (p : nat) (v : Q) (u : nat) (l : Losses) :
  preserves (fun s => absent_peer_kept p v s /\ u ∈ eval_peers s) (update_scores u l).
Proof.
  intros s [(Hv & Hi & Hp) Hu]. assert (u <> p) by (intros ->; done).
  unfold absent_peer_kept.
  destruct (moving_avg_scores s !! u) as [x|] eqn:E.
  - rewrite (update_scores_state u l s x E). simpl.
    by rewrite list_lookup_insert_ne.
  - destruct (update_scores_raises u l s E) as (_ & -> & _ & -> & ->). done.
Qed.

Lemma absent_missing_submission (p : nat) (v : Q) (u : nat) :
  preserves (fun s => absent_peer_kept p v s /\ u ∈ eval_peers s) (missing_submission u).
Proof.
  intros s [(Hv & Hi & Hp) Hu]. assert (u <> p) by (intros ->; done).
  unfold absent_peer_kept.
  destruct (moving_avg_scores s !! u) as [x|] eqn:E.
  - rewrite (missing_submission_state u s x E). simpl.
    by rewrite list_lookup_insert_ne.
  - rewrite (missing_submission_raises u s E). done.
Qed.

Lemma ml_stable_scores (scores : Tensor) (evaluated : gset nat) :
  ml_stable (fun s => moving_avg_scores s = scores /\ evaluated_uids s = evaluated).
Proof.
  intros s s' H. destruct H as (_ & _ & _ & _ & _ & -> & -> & _). auto.
Qed.

Section Windows.
Variable Batch : Type.
Variable forward : Model -> Batch -> option Q.
Variable decode : string -> Tensor -> Tensor -> Tensor -> option Tensor.
Variable batch_decode : string -> Tensor -> list Tensor -> list Tensor -> option Tensor.
Variable lr_at : nat -> Q.

Lemma evaluation_phase_keeps_absent (w : Window Batch) (p : nat) (v : Q) :
  preserves (absent_peer_kept p v) (evaluation_phase Batch forward decode batch_decode lr_at w).
Proof.
  apply preserves_evaluation_phase.
  - apply ml_stable_absent_peer_kept.
  - intros u l. apply absent_update_scores.
  - intros u. apply absent_missing_submission.
Qed.

Lemma iteration_decays (w : Window Batch) (s s' : Validator) (p : nat) (x : Q) :
  catch_up w = None ->
  p ∉ comms_eval_peers w ->
  p ∈ comms_inactive_peers w \/ is_Some (inactive_scores s !! p) ->
  moving_avg_scores s !! p = Some x ->
  iteration Batch forward decode batch_decode lr_at w s = (Val tt, s') ->
  moving_avg_scores s' !! p = Some (x * (3 # 4)) /\ is_Some (inactive_scores s' !! p).
Proof.
  intros Hc Hp Ht Hx E. unfold iteration, bind, modify in E. rewrite Hc in E.
  set (s1 := refresh_peers Batch w (with_current_window (listened_window w) s)) in E.
  destruct (inactivity (comms_inactive_peers w) s1) as [[[]|e] s2] eqn:Ei; [| discriminate].
  destruct (inactivity_decays _ _ _ p x Ei) as (Hm & Hi & He); try done.
  unfold get in E.
  assert (Hk : absent_peer_kept p (x * (3 # 4)) s2).
  { split; [done |]. split; [done |]. by rewrite He. }
  destruct (eval_peers s2) as [|u0 rest] eqn:Ee.
  - injection E as <-. simpl. done.
  - pose proof (evaluation_phase_keeps_absent w p _ s2 Hk) as Hk'.
    rewrite E in Hk'. destruct Hk' as (? & ? & _). done.
Qed.

Lemma run_cons (w : Window Batch) (ws : list (Window Batch)) (s s' : Validator) :
  run Batch forward decode batch_decode lr_at (w :: ws) s = (Val tt, s') ->
  exists s1, iteration Batch forward decode batch_decode lr_at w s = (Val tt, s1) /\ run Batch forward decode batch_decode lr_at ws s1 = (Val tt, s').
Proof.
  unfold run. simpl. unfold bind.
  destruct (iteration Batch forward decode batch_decode lr_at w s) as [[[]|e] s1]; [| discriminate].
  intros E. by exists s1.
Qed.

Lemma run_decays (ws : list (Window Batch)) (s s' : Validator) (p : nat) (x : Q) :
  Forall (fun w => catch_up w = None /\ p ∉ comms_eval_peers w) ws ->
  is_Some (inactive_scores s !! p) ->
  moving_avg_scores s !! p = Some x ->
  run Batch forward decode batch_decode lr_at ws s = (Val tt, s') ->
  exists y, moving_avg_scores s' !! p = Some y /\ y == x * (3 # 4) ^ Z.of_nat (length ws).
Proof.
  revert s x. induction ws as [|w ws IH]; intros s x Hws Ht Hx E.
  - injection E as <-. exists x. split; [done |]. simpl. lra.
  - apply Forall_cons in Hws as [[Hc Hp] Hws].
    apply run_cons in E as (s1 & E1 & E2).
    destruct (iteration_decays w s s1 p x Hc Hp (or_intror Ht) Hx E1) as [Hx1 Ht1].
    destruct (IH s1 _ Hws Ht1 Hx1 E2) as (y & Hy & Hyq).
    exists y. split; [done |]. rewrite Hyq.
    change (length (w :: ws)) with (S (length ws)).
    replace (Z.of_nat (S (length ws))) with (Z.of_nat (length ws) + 1)%Z by lia.
    rewrite Qpower_plus' by lia. rewrite Qpower_1_r. ring.
Qed.

End Windows.

(** * The evaluation phase on its two branches, and the early exit *)

Lemma positive_mask_lookup (scores : Tensor) (evaluated : gset nat) (i : nat) :
  positive_mask scores evaluated !! i
  = (fun x => is_positive x && bool_decide (i ∈ evaluated)) <$> scores !! i.
Proof. unfold positive_mask. apply list_lookup_imap. Qed.

Lemma evaluated_update_scores (p u : nat) (l : Losses) :
  preserves (fun s => p ∈ evaluated_uids s) (update_scores u l).
Proof.
  intros s H. destruct (moving_avg_scores s !! u) as [x|] eqn:E.
  - rewrite (update_scores_state u l s x E). simpl. set_solver.
  - by destruct (update_scores_raises u l s E) as (_ & _ & -> & _).
Qed.

Lemma evaluated_missing_submission (p u : nat) :
  preserves (fun s => p ∈ evaluated_uids s) (missing_submission u).
Proof.
  intros s H. destruct (moving_avg_scores s !! u) as [x|] eqn:E.
  - rewrite (missing_submission_state u s x E). simpl. set_solver.
  - by rewrite (missing_submission_raises u s E).
Qed.

Lemma evaluated_track_inactive (p u : nat) :
  preserves (fun s => p ∈ evaluated_uids s) (track_inactive u).
Proof.
  intros s H. rewrite track_inactive_state.
  destruct (inactive_scores s !! u); [exact H |].
  destruct (moving_avg_scores s !! u); exact H.
Qed.

Lemma evaluated_penalize_inactive (p u : nat) :
  preserves (fun s => p ∈ evaluated_uids s) (penalize_inactive u).
Proof.
  intros s H. rewrite penalize_inactive_state.
  destruct (bool_decide _); [exact H |].
  destruct (moving_avg_scores s !! u); exact H.
Qed.

Lemma peers_update_scores (l0 : list nat) (u : nat) (l : Losses) :
  preserves (fun s => peers s = l0) (update_scores u l).
Proof.
  intros s H. destruct (moving_avg_scores s !! u) as [x|] eqn:E.
  - by rewrite (update_scores_state u l s x E).
  - unfold update_scores, bind, get, lift, modify, item. simpl. rewrite E. exact H.
Qed.

Lemma peers_missing_submission (l0 : list nat) (u : nat) :
  preserves (fun s => peers s = l0) (missing_submission u).
Proof.
  intros s H. destruct (moving_avg_scores s !! u) as [x|] eqn:E.
  - by rewrite (missing_submission_state u s x E).
  - by rewrite (missing_submission_raises u s E).
Qed.

Section Branches.
Variable Batch : Type.
Variable forward : Model -> Batch -> option Q.
Variable decode : string -> Tensor -> Tensor -> Tensor -> option Tensor.
Variable batch_decode : string -> Tensor -> list Tensor -> list Tensor -> option Tensor.
Variable lr_at : nat -> Q.

(** [evaluated_uids] only grows. *)
Lemma evaluated_run (p : nat) (ws : list (Window Batch)) :
  preserves (fun s => p ∈ evaluated_uids s)
    (run Batch forward decode batch_decode lr_at ws).
Proof.
  apply preserves_for_each. intros w _. apply preserves_iteration; auto.
  - intros s s' H. by destruct H as (_ & _ & _ & _ & _ & _ & -> & _).
  - apply evaluated_track_inactive.
  - apply evaluated_penalize_inactive.
  - intros u l. apply (preserves_with_eval_peer (fun s => p ∈ evaluated_uids s));
      [apply evaluated_update_scores | apply update_scores_eval_peers].
  - intros u. apply (preserves_with_eval_peer (fun s => p ∈ evaluated_uids s));
      [apply evaluated_missing_submission | apply missing_submission_eval_peers].
Qed.

(** The missing-submission branch, through [try] and [finally]. *)
Lemma evaluation_phase_missing (w : Window Batch) (s : Validator) (u : nat) (x : Q) :
  random_choice (eval_peers s) (choice_draw w) = Val u ->
  payload_absent w ->
  moving_avg_scores s !! u = Some x ->
  let s' := snd (evaluation_phase Batch forward decode batch_decode lr_at w s) in
  moving_avg_scores s' = <[u := x * (1 # 2)]> (moving_avg_scores s) /\
  evaluated_uids s' = {[u]} ∪ evaluated_uids s.
Proof.
  intros Hc Hp Hx. unfold evaluation_phase, bind, get, lift. rewrite Hc. simpl.
  set (I := fun t => moving_avg_scores t = <[u := x * (1 # 2)]> (moving_avg_scores s) /\
                     evaluated_uids t = {[u]} ∪ evaluated_uids s).
  assert (HI : ml_stable I) by apply ml_stable_scores.
  assert (Hb : I (snd (try_body Batch forward decode batch_decode lr_at w u s))).
  { unfold try_body, score_peer.
    assert (Hm : I (snd (missing_submission u s))).
    { rewrite (missing_submission_state u s x Hx). split; reflexivity. }
    assert (Hrest : forall (m : M Tensor), I (snd (m s)) ->
              I (snd (bind m (after_scoring Batch batch_decode lr_at w) s))).
    { intros m H. unfold bind. destruct (m s) as [[weights|e] s1]; [| exact H].
      apply (ml_only_preserves I _ (ml_only_after_scoring Batch batch_decode lr_at w weights) HI).
      exact H. }
    destruct Hp as [-> | ->]; apply Hrest, Hm. }
  unfold try_finally.
  destruct (try_body Batch forward decode batch_decode lr_at w u s) as [r s1].
  simpl in Hb.
  pose proof (ml_only_preserves I _ (ml_only_restore_original_state (original_state s)) HI s1 Hb)
    as Hf.
  destruct (restore_original_state (original_state s) s1) as [[[]|e] s2]; exact Hf.
Qed.

(** An iteration that does not catch up leaves the three state dicts as it
    found them. *)
Lemma iteration_snapshot (w : Window Batch) (s : Validator) :
  catch_up w = None ->
  original_state (snd (iteration Batch forward decode batch_decode lr_at w s))
  = original_state s.
Proof.
  intros Hc. unfold iteration, bind, modify. rewrite Hc.
  fold (refreshed w s).
  pose proof (rep_step_inactivity (comms_inactive_peers w) (refreshed w s)) as Hr.
  destruct (inactivity (comms_inactive_peers w) (refreshed w s)) as [[[]|e] s2]; simpl in Hr.
  - assert (E : original_state s2 = original_state s).
    { destruct Hr as (_ & _ & Hm & Ho & Hs & _). unfold original_state.
      rewrite Hm, Ho, Hs. reflexivity. }
    unfold get. destruct (eval_peers s2).
    + simpl. exact E.
    + rewrite evaluation_phase_snapshot. exact E.
  - simpl. destruct Hr as (_ & _ & Hm & Ho & Hs & _). unfold original_state.
    rewrite Hm, Ho, Hs. reflexivity.
Qed.

(** The early exit of lines 360-363. *)
Lemma iteration_without_eval_peers (w : Window Batch) (s : Validator) :
  catch_up w = None ->
  comms_eval_peers w = [] ->
  uids_valid (comms_inactive_peers w) s ->
  tracked_valid s ->
  exists s2,
    inactivity (comms_inactive_peers w) (refreshed w s) = (Val tt, s2) /\
    iteration Batch forward decode batch_decode lr_at w s
    = (Val tt, with_global_step (global_step s2 + 1)%Z s2).
Proof.
  intros Hc He Hv Ht.
  destruct (inactivity_returns (comms_inactive_peers w) (refreshed w s)) as [s2 E2];
    [exact Hv | exact Ht |].
  exists s2. split; [exact E2 |].
  unfold iteration, bind, modify. rewrite Hc. fold (refreshed w s). rewrite E2.
  unfold get.
  pose proof (rep_step_inactivity (comms_inactive_peers w) (refreshed w s)) as Hr.
  rewrite E2 in Hr. simpl in Hr.
  destruct Hr as (_ & _ & _ & _ & _ & _ & _ & _ & _ & _ & _ & _ & Hep & _).
  simpl in Hep. rewrite Hep, He. reflexivity.
Qed.

(** After an iteration that does not catch up, whatever its outcome, the
    gather peers are the list [comms.peers] of the refresh, as it is. *)
Lemma iteration_peers (w : Window Batch) (s : Validator) :
  catch_up w = None ->
  peers (snd (iteration Batch forward decode batch_decode lr_at w s)) = comms_peers w.
Proof.
  intros Hc. unfold iteration, bind, modify. rewrite Hc. fold (refreshed w s).
  pose proof (rep_step_inactivity (comms_inactive_peers w) (refreshed w s)) as Hr.
  destruct (inactivity (comms_inactive_peers w) (refreshed w s)) as [[[]|e] s2]; simpl in Hr.
  - assert (E : peers s2 = comms_peers w).
    { by destruct Hr as (_ & _ & _ & _ & _ & _ & _ & _ & _ & _ & _ & -> & _). }
    unfold get. destruct (eval_peers s2) as [|u0 rest]; [exact E |].
    apply (preserves_evaluation_phase Batch forward decode batch_decode lr_at
             (fun t => peers t = comms_peers w)); [| | | exact E].
    + intros t t' H. by destruct H as (_ & _ & _ & _ & _ & _ & _ & -> & _).
    + intros u l. apply (preserves_with_eval_peer (fun t => peers t = comms_peers w));
        [apply peers_update_scores | apply update_scores_eval_peers].
    + intros u. apply (preserves_with_eval_peer (fun t => peers t = comms_peers w));
        [apply peers_missing_submission | apply missing_submission_eval_peers].
  - simpl. by destruct Hr as (_ & _ & _ & _ & _ & _ & _ & _ & _ & _ & _ & -> & _).
Qed.

End Branches.

(** * Outcomes: a small program logic for [M] *)

Lemma hoare_ret {A : Type} (P : Validator -> Prop) (a : A)
    (Q : A -> Validator -> Prop) (E : exn -> Validator -> Prop) :
  (forall s, P s -> Q a s) -> hoare P (ret a) Q E.
Proof. intros H s Hs. apply H, Hs. Qed.

Lemma hoare_raise {A : Type} (P : Validator -> Prop) (e : exn)
    (Q : A -> Validator -> Prop) (E : exn -> Validator -> Prop) :
  (forall s, P s -> E e s) -> hoare P (raise e) Q E.
Proof. intros H s Hs. apply H, Hs. Qed.

Lemma hoare_get (P : Validator -> Prop)
    (Q : Validator -> Validator -> Prop) (E : exn -> Validator -> Prop) :
  (forall s, P s -> Q s s) -> hoare P get Q E.
Proof. intros H s Hs. apply H, Hs. Qed.

Lemma hoare_modify (P : Validator -> Prop) (f : Validator -> Validator)
    (Q : unit -> Validator -> Prop) (E : exn -> Validator -> Prop) :
  (forall s, P s -> Q tt (f s)) -> hoare P (modify f) Q E.
Proof. intros H s Hs. apply H, Hs. Qed.

Lemma hoare_lift {A : Type} (P : Validator -> Prop) (r : Res A)
    (Q : A -> Validator -> Prop) (E : exn -> Validator -> Prop) :
  (forall s, P s -> match r with Val a => Q a s | Exn e => E e s end) ->
  hoare P (lift r) Q E.
Proof. intros H s Hs. specialize (H s Hs). unfold lift. destruct r; exact H. Qed.

Lemma hoare_bind {A B : Type} (P : Validator -> Prop) (m : M A) (k : A -> M B)
    (R : A -> Validator -> Prop) (Q : B -> Validator -> Prop)
    (E : exn -> Validator -> Prop) :
  hoare P m R E -> (forall a, hoare (R a) (k a) Q E) -> hoare P (bind m k) Q E.
Proof.
  intros Hm Hk s Hs. specialize (Hm s Hs). unfold bind.
  destruct (m s) as [[a|e] s1]; [apply Hk, Hm | exact Hm].
Qed.

Lemma hoare_conseq {A : Type} (P P' : Validator -> Prop) (m : M A)
    (Q Q' : A -> Validator -> Prop) (E E' : exn -> Validator -> Prop) :
  hoare P' m Q' E' ->
  (forall s, P s -> P' s) -> (forall a s, Q' a s -> Q a s) ->
  (forall e s, E' e s -> E e s) ->
  hoare P m Q E.
Proof.
  intros H HP HQ HE s Hs. specialize (H s (HP s Hs)).
  destruct (m s) as [[a|e] s1]; [apply HQ, H | apply HE, H].
Qed.

Lemma hoare_preserves {A : Type} (I : Validator -> Prop) (m : M A) :
  preserves I m -> hoare I m (fun _ => I) (fun _ => I).
Proof.
  intros H s Hs. specialize (H s Hs). destruct (m s) as [[a|e] s1]; exact H.
Qed.

Lemma hoare_pure {A : Type} (F : Prop) (P : Validator -> Prop) (m : M A)
    (Q : A -> Validator -> Prop) (E : exn -> Validator -> Prop) :
  (F -> hoare P m Q E) -> hoare (fun s => F /\ P s) m Q E.
Proof. intros H s [HF Hs]. by apply H. Qed.

Lemma hoare_run {A : Type} (P : Validator -> Prop) (m : M A)
    (Q : A -> Validator -> Prop) (E : exn -> Validator -> Prop) (s : Validator) :
  hoare P m Q E -> P s ->
  match fst (m s) with
  | Val a => Q a (snd (m s))
  | Exn e => E e (snd (m s))
  end.
Proof. intros H Hs. specialize (H s Hs). destruct (m s) as [[a|e] s1]; exact H. Qed.

(** ** What the machine-learning half of the body leaves alone *)

Lemma preserves_state_model {A : Type} (I : Validator -> Prop) (m : M A) :
  (forall s x, I s -> I (with_model x s)) ->
  (forall s, exists x, snd (m s) = with_model x s) ->
  preserves I m.
Proof. intros HI Hm s Hs. destruct (Hm s) as [x ->]. by apply HI. Qed.

Lemma blind_restore_params (I : Validator -> Prop) o :
  ml_blind I -> preserves I (restore_params o).
Proof.
  intros (Hm & _). apply preserves_state_model; [exact Hm |].
  intros s. unfold restore_params. destruct (restore_params_loop _ _) as [e ps].
  by eexists.
Qed.

Ltac blind_modify HB :=
  apply preserves_modify; intros ? ?; cbv beta;
  unfold scheduler_step;
  destruct HB as (? & ? & ? & ? & ?); auto.

Ltac blind_tac HB :=
  repeat match goal with
    | |- preserves _ (let _ := _ in _) => cbv zeta
    | |- preserves _ (ret _) => apply preserves_ret
    | |- preserves _ (raise _) => apply preserves_raise
    | |- preserves _ get => apply preserves_get
    | |- preserves _ (lift _) => apply preserves_lift
    | |- preserves _ (restore_params _) => apply blind_restore_params; exact HB
    | |- preserves _ (bind _ _) => apply preserves_bind; [| intros ?]
    | |- preserves _ (modify _) => blind_modify HB
    | |- preserves _ (if ?b then _ else _) => destruct b
    | |- preserves _ (match ?x with _ => _ end) => destruct x
    end.

Lemma blind_divides_step (I : Validator -> Prop) a b : preserves I (divides_step a b).
Proof. unfold divides_step. destruct (Z.eqb b 0); [apply preserves_raise | apply preserves_ret]. Qed.

Lemma blind_emit (I : Validator -> Prop) e : ml_blind I -> preserves I (emit e).
Proof. intros HB. unfold emit. blind_tac HB. Qed.

Lemma blind_set_weights_periodically (I : Validator -> Prop) weights :
  ml_blind I -> preserves I (set_weights_periodically weights).
Proof.
  intros HB. unfold set_weights_periodically.
  apply preserves_bind; [apply preserves_get | intros s].
  apply preserves_bind; [apply blind_divides_step | intros due].
  apply preserves_bind; [destruct due; [by apply blind_emit | apply preserves_ret] | intros _].
  apply preserves_ret.
Qed.

Lemma blind_create_checkpoint (I : Validator -> Prop) :
  ml_blind I -> preserves I create_checkpoint.
Proof.
  intros HB. unfold create_checkpoint.
  apply preserves_bind; [apply preserves_get | intros s].
  apply preserves_bind; [apply blind_divides_step | intros due].
  destruct due; [by apply blind_emit | apply preserves_ret].
Qed.

Lemma blind_restore_original_state (I : Validator -> Prop) o :
  ml_blind I -> preserves I (restore_original_state o).
Proof. intros HB. unfold restore_original_state. blind_tac HB. Qed.

Lemma blind_update_scores (I : Validator -> Prop) u l :
  score_blind I -> preserves I (update_scores u l).
Proof. intros (H1 & H2 & H3). by apply preserves_update_scores_model. Qed.

Lemma blind_missing_submission (I : Validator -> Prop) u :
  score_blind I -> preserves I (missing_submission u).
Proof. intros (H1 & H2 & H3). by apply preserves_missing_submission_model. Qed.

Section Blind.
Variable Batch : Type.
Variable forward : Model -> Batch -> option Q.
Variable decode : string -> Tensor -> Tensor -> Tensor -> option Tensor.
Variable batch_decode : string -> Tensor -> list Tensor -> list Tensor -> option Tensor.
Variable lr_at : nat -> Q.

Lemma blind_apply_gradient (I : Validator -> Prop) sd :
  ml_blind I -> preserves I (apply_gradient decode sd).
Proof.
  intros (Hm & _). apply preserves_state_model; [exact Hm |].
  intros s. unfold apply_gradient. destruct (apply_gradient_loop _ _ _ _) as [e ps].
  by eexists.
Qed.

Lemma blind_gathered_gradient (I : Validator -> Prop) gsd :
  ml_blind I -> preserves I (gathered_gradient batch_decode gsd).
Proof.
  intros (Hm & _ & _ & Hmo & _) s Hs. unfold gathered_gradient.
  destruct (gathered_gradient_loop _ _ _ _) as [[e ps] mom]. simpl.
  apply Hmo, Hm, Hs.
Qed.

Lemma blind_evaluate (I : Validator -> Prop) w sd :
  ml_blind I -> preserves I (evaluate Batch forward decode w sd).
Proof.
  intros HB. unfold evaluate.
  repeat first [ apply blind_apply_gradient; exact HB | progress blind_tac HB ].
Qed.

Lemma blind_update_model (I : Validator -> Prop) w :
  ml_blind I -> preserves I (update_model Batch batch_decode lr_at w).
Proof.
  intros HB. unfold update_model.
  repeat first [ apply blind_gathered_gradient; exact HB | progress blind_tac HB ].
Qed.

Lemma blind_score_peer (I : Validator -> Prop) w u :
  ml_blind I -> score_blind I ->
  (forall s x, I s -> I (with_score_bound x s)) ->
  preserves I (score_peer Batch forward decode w u).
Proof.
  intros HB HS Hsb. unfold score_peer.
  destruct (eval_result w) as [[sd|]|]; try (by apply blind_missing_submission).
  apply preserves_bind; [by apply blind_evaluate | intros l].
  apply preserves_bind; [apply preserves_modify; auto | intros _].
  apply preserves_bind; [by apply blind_update_scores | intros weights].
  apply preserves_bind; [by apply blind_set_weights_periodically | intros _].
  apply preserves_ret.
Qed.

(** The [finally] block neither raises nor hides the outcome of the body of
    [try]: the evaluation phase ends as the body does, in the state of the
    body with the three saved state dicts loaded back. *)
Lemma evaluation_phase_outcome (w : Window Batch) (s : Validator) (u : nat) :
  random_choice (eval_peers s) (choice_draw w) = Val u ->
  let body := try_body Batch forward decode batch_decode lr_at w u s in
  exists m',
    evaluation_phase Batch forward decode batch_decode lr_at w s
    = (fst body,
       with_scheduler (scheduler s) (with_optimizer (optimizer s) (with_model m' (snd body)))) /\
    dict_of (state_dict m') = dict_of (state_dict (model s)) /\
    param_names m' = param_names (model s) /\
    training m' = training (model (snd body)).
Proof.
  intros Hc body. unfold evaluation_phase, bind, get, lift. rewrite Hc. unfold try_finally.
  pose proof (try_body_names Batch forward decode batch_decode lr_at w u s) as Hn.
  fold body in Hn |- *. destruct body as [r s1]. simpl in Hn |- *.
  destruct (load_state_dict_snapshot (model s) (model s1) Hn) as (m' & E & Hd).
  exists m'. unfold restore_original_state, bind, get, lift, modify. simpl.
  rewrite E. simpl. split; [reflexivity |]. split; [exact Hd |].
  split; [rewrite (load_state_dict_names _ _ _ E); exact Hn |].
  unfold load_state_dict in E. case_decide; [| discriminate]. by injection E as <-.
Qed.

End Blind.

(** * Step counters *)

Lemma random_choice_nonempty (l : list nat) (draw : nat) :
  l <> [] -> exists u, random_choice l draw = Val u.
Proof.
  intros Hl. unfold random_choice.
  assert (Hlt : (draw `mod` length l < length l)%nat).
  { apply Nat.mod_upper_bound. destruct l; [done | simpl; lia]. }
  destruct (lookup_lt_is_Some_2 _ _ Hlt) as [x ->]. by exists x.
Qed.

Section Counters.
Variable Batch : Type.
Variable forward : Model -> Batch -> option Q.
Variable decode : string -> Tensor -> Tensor -> Tensor -> option Tensor.
Variable batch_decode : string -> Tensor -> list Tensor -> list Tensor -> option Tensor.
Variable lr_at : nat -> Q.

(** Either the steps after the scoring raise and leave a property blind to
    the model state as it was, or they return and the last thing they did
    was to add one to [global_step]. *)
Lemma after_scoring_counts (I : Validator -> Prop) (w : Window Batch) (weights : Tensor) :
  ml_blind I ->
  hoare I (after_scoring Batch batch_decode lr_at w weights)
    (fun _ t => exists t0, I t0 /\ t = with_global_step (global_step t0 + 1)%Z t0)
    (fun _ => I).
Proof.
  intros HB. unfold after_scoring.
  apply (hoare_bind _ _ _ (fun _ => I));
    [apply hoare_preserves, blind_create_checkpoint, HB | intros _].
  apply (hoare_bind _ _ _ (fun _ => I));
    [apply hoare_preserves, blind_update_model, HB | intros _].
  apply (hoare_bind _ _ _ (fun _ => I));
    [apply hoare_preserves, blind_set_weights_periodically, HB | intros due].
  apply (hoare_bind _ _ _ (fun _ => I)); [apply hoare_get; auto | intros t].
  apply (hoare_bind _ _ _ (fun _ => I)).
  - destruct (due && negb (score_bound t)); [apply hoare_raise | apply hoare_ret]; auto.
  - intros _. apply hoare_modify. intros t0 Ht0. by exists t0.
Qed.

Lemma try_body_counts (I : Validator -> Prop) (w : Window Batch) (u : nat) :
  ml_blind I -> score_blind I -> (forall s x, I s -> I (with_score_bound x s)) ->
  hoare I (try_body Batch forward decode batch_decode lr_at w u)
    (fun _ t => exists t0, I t0 /\ t = with_global_step (global_step t0 + 1)%Z t0)
    (fun _ => I).
Proof.
  intros HB HS Hsb. unfold try_body.
  apply (hoare_bind _ _ _ (fun _ => I)).
  - by apply hoare_preserves, blind_score_peer.
  - intros weights. by apply after_scoring_counts.
Qed.

Lemma iteration_counts (w : Window Batch) (s : Validator) :
  catch_up w = None ->
  let r := iteration Batch forward decode batch_decode lr_at w s in
  sync_window (snd r) = (sync_window s + 1)%Z /\
  match fst r with
  | Val _ => global_step (snd r) = (global_step s + 1)%Z
  | Exn _ => global_step (snd r) = global_step s
  end.
Proof.
  intros Hc. unfold iteration, bind, modify. rewrite Hc. fold (refreshed w s).
  pose proof (rep_step_inactivity (comms_inactive_peers w) (refreshed w s)) as Hr.
  destruct (inactivity (comms_inactive_peers w) (refreshed w s)) as [[[]|e] s2]; simpl in Hr;
    destruct Hr as (_ & _ & _ & _ & _ & _ & _ & _ & Hg & Hs & _); simpl in Hg, Hs;
    [| simpl; done].
  unfold get. destruct (eval_peers s2) as [|u0 rest] eqn:Ee; [simpl; rewrite Hg, Hs; done |].
  destruct (random_choice_nonempty (u0 :: rest) (choice_draw w)) as [u Hu]; [done |].
  rewrite <- Ee in Hu.
  destruct (evaluation_phase_outcome Batch forward decode batch_decode lr_at w s2 u Hu)
    as (m' & -> & _).
  set (I := fun t => global_step t = global_step s /\ sync_window t = (sync_window s + 1)%Z).
  assert (HI : I s2) by (split; assumption).
  pose proof (hoare_run _ _ _ _ s2
                (try_body_counts I w u
                   ltac:(unfold ml_blind, I; simpl; tauto)
                   ltac:(unfold score_blind, I; simpl; tauto)
                   ltac:(unfold I; simpl; tauto)) HI) as H.
  simpl. destruct (fst (try_body Batch forward decode batch_decode lr_at w u s2)).
  - destruct H as (t0 & [Hg0 Hs0] & ->). simpl. rewrite Hg0, Hs0. done.
  - destruct H as [Hg0 Hs0]. done.
Qed.

End Counters.

(** * Further facts about the reputation state *)

Lemma blind_track_inactive (I : Validator -> Prop) (u : nat) :
  (forall s x, I s -> I (with_inactive_scores x s)) -> preserves I (track_inactive u).
Proof.
  intros HI s Hs. rewrite track_inactive_state.
  destruct (inactive_scores s !! u); [exact Hs |].
  destruct (moving_avg_scores s !! u); [by apply HI | exact Hs].
Qed.

Lemma blind_penalize_inactive (I : Validator -> Prop) (u : nat) :
  (forall s x, I s -> I (with_inactive_scores x s)) ->
  (forall s x, I s -> I (with_moving_avg_scores x s)) ->
  preserves I (penalize_inactive u).
Proof.
  intros HI HM s Hs. rewrite penalize_inactive_state.
  destruct (bool_decide _); [by apply HI |].
  destruct (moving_avg_scores s !! u); [by apply HM | exact Hs].
Qed.

Lemma update_scores_averages (u : nat) (l : Losses) (s : Validator) :
  binary_moving_averages (snd (update_scores u l s))
  = <[u := (1 - ma_alpha (hparams s)) * default 0 (binary_moving_averages s !! u)
           + ma_alpha (hparams s)
             * binary_indicator (improvement_own_of l) (improvement_random_of l)]>
      (binary_moving_averages s) /\
  hparams (snd (update_scores u l s)) = hparams s.
Proof.
  unfold update_scores, bind, get, lift, modify, item. simpl.
  destruct (moving_avg_scores s !! u); simpl; [| done].
  destruct (evaluated_mask_ok _ _); done.
Qed.

Lemma binary_indicator_cases (a b : Q) :
  binary_indicator a b = 1 \/ binary_indicator a b = -1.
Proof. unfold binary_indicator. destruct (Qlt_le_dec b a); auto. Qed.

Lemma average_bounded (alpha previous a b : Q) :
  0 <= alpha <= 1 -> -1 <= previous <= 1 ->
  -1 <= (1 - alpha) * previous + alpha * binary_indicator a b <= 1.
Proof.
  intros Ha Hp. destruct (binary_indicator_cases a b) as [-> | ->]; nra.
Qed.

Lemma averages_update_scores (hp : Hparams) (u : nat) (l : Losses) :
  0 <= ma_alpha hp <= 1 ->
  preserves (fun s => averages_bounded s /\ hparams s = hp) (update_scores u l).
Proof.
  intros Ha s [Hb Hh]. destruct (update_scores_averages u l s) as [E Eh].
  split; [| congruence]. unfold averages_bounded. rewrite E, Hh.
  apply map_Forall_insert_2; [| exact Hb].
  apply average_bounded; [exact Ha |].
  destruct (binary_moving_averages s !! u) as [v|] eqn:Ev; simpl.
  - apply (Hb u v Ev).
  - lra.
Qed.

Lemma evaluated_mask_ok_true (scores : Tensor) (evaluated : gset nat) :
  (forall u, u ∈ evaluated -> (u < length scores)%nat) ->
  evaluated_mask_ok scores evaluated = true.
Proof.
  intros H. unfold evaluated_mask_ok. apply forallb_forall. intros u Hu.
  apply Nat.ltb_lt, H. apply elem_of_elements, list_elem_of_In, Hu.
Qed.

Lemma indices_update_scores (n : nat) (u : nat) (l : Losses) :
  preserves (indices_valid n) (update_scores u l).
Proof.
  intros s (Hl & He & Ht). destruct (moving_avg_scores s !! u) as [x|] eqn:E.
  - rewrite (update_scores_state u l s x E). unfold indices_valid. simpl.
    rewrite length_insert. split; [done |]. split; [| done].
    intros v Hv. apply elem_of_union in Hv as [Hv | Hv]; [| by apply He].
    apply elem_of_singleton in Hv as ->. rewrite <- Hl. eapply lookup_lt_Some, E.
  - destruct (update_scores_raises u l s E) as (_ & Hm & Hev & Hi & _).
    unfold indices_valid. rewrite Hm, Hev, Hi. done.
Qed.

Lemma indices_missing_submission (n : nat) (u : nat) :
  preserves (indices_valid n) (missing_submission u).
Proof.
  intros s (Hl & He & Ht). destruct (moving_avg_scores s !! u) as [x|] eqn:E.
  - rewrite (missing_submission_state u s x E). unfold indices_valid. simpl.
    rewrite length_insert. split; [done |]. split; [| done].
    intros v Hv. apply elem_of_union in Hv as [Hv | Hv]; [| by apply He].
    apply elem_of_singleton in Hv as ->. rewrite <- Hl. eapply lookup_lt_Some, E.
  - by rewrite (missing_submission_raises u s E).
Qed.

Lemma indices_track_inactive (n : nat) (u : nat) :
  preserves (indices_valid n) (track_inactive u).
Proof.
  intros s (Hl & He & Ht). rewrite track_inactive_state.
  destruct (inactive_scores s !! u) eqn:Ei; [done |].
  destruct (moving_avg_scores s !! u) as [x|] eqn:E; [| done].
  unfold indices_valid. simpl. split; [done |]. split; [done |].
  intros v Hv. destruct (decide (v = u)) as [-> | Hne].
  - rewrite <- Hl. eapply lookup_lt_Some, E.
  - rewrite lookup_insert_ne in Hv by done. by apply Ht.
Qed.

Lemma indices_penalize_inactive (n : nat) (u : nat) :
  preserves (indices_valid n) (penalize_inactive u).
Proof.
  intros s (Hl & He & Ht). rewrite penalize_inactive_state.
  destruct (bool_decide _).
  - unfold indices_valid. simpl. split; [done |]. split; [done |].
    intros v Hv. apply Ht. destruct (decide (v = u)) as [-> | Hne].
    + rewrite lookup_delete_eq in Hv. by destruct Hv.
    + by rewrite lookup_delete_ne in Hv.
  - destruct (moving_avg_scores s !! u); [| done].
    unfold indices_valid. simpl. rewrite length_insert. done.
Qed.

Lemma grown_update_scores (evaluated : gset nat) (u : nat) (l : Losses) :
  preserves (grown_by evaluated u) (update_scores u l).
Proof.
  intros s H. unfold grown_by in *. destruct (moving_avg_scores s !! u) as [x|] eqn:E.
  - rewrite (update_scores_state u l s x E). simpl. right.
    destruct H as [-> | ->]; [done |].
    apply set_eq. intros v. rewrite !elem_of_union. tauto.
  - by destruct (update_scores_raises u l s E) as (_ & _ & -> & _).
Qed.

Lemma grown_missing_submission (evaluated : gset nat) (u : nat) :
  preserves (grown_by evaluated u) (missing_submission u).
Proof.
  intros s H. unfold grown_by in *. destruct (moving_avg_scores s !! u) as [x|] eqn:E.
  - rewrite (missing_submission_state u s x E). simpl. right.
    destruct H as [-> | ->]; [done |].
    apply set_eq. intros v. rewrite !elem_of_union. tauto.
  - by rewrite (missing_submission_raises u s E).
Qed.

Section ReputationRuns.
Variable Batch : Type.
Variable forward : Model -> Batch -> option Q.
Variable decode : string -> Tensor -> Tensor -> Tensor -> option Tensor.
Variable batch_decode : string -> Tensor -> list Tensor -> list Tensor -> option Tensor.
Variable lr_at : nat -> Q.

Lemma averages_run (hp : Hparams) (ws : list (Window Batch)) :
  0 <= ma_alpha hp <= 1 ->
  preserves (fun s => averages_bounded s /\ hparams s = hp)
    (run Batch forward decode batch_decode lr_at ws).
Proof.
  intros Ha. apply preserves_for_each. intros w _. apply preserves_iteration.
  - intros s s' H [H1 H2]. destruct H as (_ & Hh & _ & _ & _ & _ & _ & _ & _ & _ & Hb & _).
    unfold averages_bounded. rewrite Hb, Hh. done.
  - auto.
  - auto.
  - auto.
  - intros u. apply blind_track_inactive. auto.
  - intros u. apply blind_penalize_inactive; auto.
  - intros u l.
    apply (preserves_with_eval_peer (fun s => averages_bounded s /\ hparams s = hp));
      [by apply averages_update_scores | apply update_scores_eval_peers].
  - intros u.
    apply (preserves_with_eval_peer (fun s => averages_bounded s /\ hparams s = hp));
      [| apply missing_submission_eval_peers].
    apply preserves_missing_submission_model; auto.
Qed.

Lemma indices_run (n : nat) (ws : list (Window Batch)) :
  preserves (indices_valid n) (run Batch forward decode batch_decode lr_at ws).
Proof.
  apply preserves_for_each. intros w _. apply preserves_iteration.
  - intros s s' H (H1 & H2 & H3).
    destruct H as (_ & _ & _ & _ & _ & Hm & He & _ & _ & Hi & _).
    unfold indices_valid. rewrite Hm, He, Hi. done.
  - auto.
  - auto.
  - auto.
  - apply indices_track_inactive.
  - apply indices_penalize_inactive.
  - intros u l. apply (preserves_with_eval_peer (indices_valid n));
      [apply indices_update_scores | apply update_scores_eval_peers].
  - intros u. apply (preserves_with_eval_peer (indices_valid n));
      [apply indices_missing_submission | apply missing_submission_eval_peers].
Qed.

Lemma iteration_grows_evaluated (w : Window Batch) (s : Validator) :
  catch_up w = None ->
  let s' := snd (iteration Batch forward decode batch_decode lr_at w s) in
  evaluated_uids s' = evaluated_uids s \/
  exists u, u ∈ comms_eval_peers w /\ evaluated_uids s' = {[u]} ∪ evaluated_uids s.
Proof.
  intros Hc. unfold iteration, bind, modify. rewrite Hc. fold (refreshed w s).
  pose proof (rep_step_inactivity (comms_inactive_peers w) (refreshed w s)) as Hr.
  destruct (inactivity (comms_inactive_peers w) (refreshed w s)) as [[[]|e] s2]; simpl in Hr;
    destruct Hr as (_ & _ & _ & _ & _ & _ & _ & _ & _ & _ & Hev & _ & Hep & _);
    simpl in Hev, Hep; [| by left].
  unfold get. destruct (eval_peers s2) as [|u0 rest] eqn:Ee; [by left |].
  destruct (random_choice_nonempty (u0 :: rest) (choice_draw w)) as [u Hu]; [done |].
  rewrite <- Ee in Hu.
  destruct (evaluation_phase_outcome Batch forward decode batch_decode lr_at w s2 u Hu)
    as (m' & -> & _).
  assert (Hb : grown_by (evaluated_uids s) u
                 (snd (try_body Batch forward decode batch_decode lr_at w u s2))).
  { apply preserves_try_body.
    - intros t t' H Ht. unfold grown_by in *.
      destruct H as (_ & _ & _ & _ & _ & _ & He & _). rewrite He. exact Ht.
    - intros l. apply grown_update_scores.
    - apply grown_missing_submission.
    - by left. }
  simpl. destruct Hb as [Hb | Hb]; [by left |]. right. exists u.
  split; [| exact Hb]. apply random_choice_elem in Hu. rewrite Ee in Hu.
  by rewrite <- Hep.
Qed.

End ReputationRuns.

(** * The inactivity phase, completely *)

Lemma track_loop_entries (l : list nat) (s s' : Validator) :
  for_each l track_inactive s = (Val tt, s') ->
  forall p,
    inactive_scores s' !! p
    = match inactive_scores s !! p with
      | Some e => Some e
      | None =>
          if bool_decide (p ∈ l)
          then (fun x => (sync_window s, x)) <$> moving_avg_scores s !! p
          else None
      end.
Proof.
  revert s. induction l as [|k l IH]; intros s E p; simpl in E.
  - injection E as <-. rewrite bool_decide_eq_false_2 by apply not_elem_of_nil.
    by destruct (inactive_scores s !! p).
  - unfold bind in E. rewrite track_inactive_state in E.
    destruct (inactive_scores s !! k) as [v|] eqn:Ek.
    + rewrite (IH _ E p). destruct (inactive_scores s !! p) eqn:Ep; [done |].
      assert (p <> k) by congruence.
      rewrite (bool_decide_ext (p ∈ k :: l) (p ∈ l)); [done |].
      rewrite elem_of_cons. split; [intros [-> | Hin]; done | by right].
    + destruct (moving_avg_scores s !! k) as [x|] eqn:Ex; [| discriminate].
      rewrite (IH _ E p). simpl.
      destruct (decide (p = k)) as [-> | Hne].
      * rewrite lookup_insert_eq, Ek, Ex.
        rewrite bool_decide_eq_true_2 by left. done.
      * rewrite lookup_insert_ne by done.
        destruct (inactive_scores s !! p) eqn:Ep; [done |].
        rewrite (bool_decide_ext (p ∈ k :: l) (p ∈ l)); [done |].
        rewrite elem_of_cons. split; [intros [-> | Hin]; done | by right].
Qed.

Lemma penalize_loop_keeps_entry (keys : list nat) (s s' : Validator) (p : nat) :
  for_each keys penalize_inactive s = (Val tt, s') ->
  p ∉ eval_peers s ->
  inactive_scores s' !! p = inactive_scores s !! p /\ eval_peers s' = eval_peers s.
Proof.
  revert s. induction keys as [|k keys IH]; intros s E Hp; simpl in E.
  - by injection E as <-.
  - unfold bind in E. rewrite penalize_inactive_state in E.
    destruct (bool_decide (k ∈ eval_peers s)) eqn:Hke.
    + apply bool_decide_eq_true in Hke. assert (k <> p) by (intros ->; done).
      destruct (IH _ E) as [Hi He]; [done |]. simpl in *.
      by rewrite Hi, He, lookup_delete_ne.
    + destruct (moving_avg_scores s !! k); [| discriminate].
      destruct (IH _ E) as [Hi He]; [done |]. simpl in *. by rewrite Hi, He.
Qed.

Lemma inactivity_tracking (l : list nat) (s s' : Validator) (p : nat) :
  inactivity l s = (Val tt, s') ->
  inactive_scores s' !! p
  = if bool_decide (p ∈ eval_peers s) then None
    else match inactive_scores s !! p with
         | Some e => Some e
         | None =>
             if bool_decide (p ∈ l)
             then (fun x => (sync_window s, x)) <$> moving_avg_scores s !! p
             else None
         end.
Proof.
  intros E. destruct (bool_decide (p ∈ eval_peers s)) eqn:Hp.
  - apply bool_decide_eq_true in Hp. by destruct (inactivity_returning l s s' p E Hp).
  - apply bool_decide_eq_false in Hp.
    apply inactivity_on_return in E as (s1 & E1 & E2).
    pose proof (track_loop_entries l s s1 E1 p) as Ht.
    destruct (track_loop_on_return l s s1 E1) as (_ & He1 & _).
    destruct (penalize_loop_keeps_entry _ _ _ p E2) as [Hi _]; [by rewrite He1 |].
    by rewrite Hi, Ht.
Qed.

Lemma inactivity_scores (l : list nat) (s s' : Validator) (p : nat) (x : Q) :
  inactivity l s = (Val tt, s') ->
  moving_avg_scores s !! p = Some x ->
  moving_avg_scores s' !! p
  = Some (if bool_decide (p ∈ eval_peers s) then x
          else if bool_decide (p ∈ l \/ is_Some (inactive_scores s !! p))
               then x * (3 # 4) else x).
Proof.
  intros E Hx. destruct (bool_decide (p ∈ eval_peers s)) eqn:Hp.
  - apply bool_decide_eq_true in Hp.
    destruct (inactivity_returning l s s' p E Hp) as [_ ->]. exact Hx.
  - apply bool_decide_eq_false in Hp.
    destruct (bool_decide (p ∈ l \/ is_Some (inactive_scores s !! p))) eqn:Ht.
    + apply bool_decide_eq_true in Ht.
      by destruct (inactivity_decays l s s' p x E Hp Ht Hx) as (-> & _).
    + apply bool_decide_eq_false in Ht.
      apply inactivity_on_return in E as (s1 & E1 & E2).
      destruct (track_loop_on_return l s s1 E1) as (Hm1 & He1 & _).
      destruct (penalize_loop_decays _ _ _ p x E2) as (Hm & _).
      * apply NoDup_fst_map_to_list.
      * by rewrite He1.
      * by rewrite Hm1.
      * rewrite Hm. rewrite bool_decide_eq_false_2; [done |].
        intros Hk. apply tracked_keys in Hk. apply Ht.
        by apply (track_loop_tracked_inv l s s1 p E1).
Qed.

(** * The properties of the specification *)

(** C1.  The specification says that the step of the model update (one
    optimizer step, one scheduler step) persists to the end of the
    iteration.  In the code the update runs inside [try], and [finally]
    then loads the state dicts saved before the evaluation.  On the small
    instance, with eval peers 1 and 2 and a gathered gradient for ["w"]: the
    body of [try] completes and has applied the step (parameter 2 - 0.1,
    scheduler at epoch 1, rate 1/11), yet the iteration ends with the
    parameter, the optimizer and the scheduler of the snapshot; only
    [momentum] and [global_step] keep a trace of the window. *)
Theorem gathered_update_is_rolled_back :
  let w := example_window [1; 2]%nat [] (Some (Some example_gradient)) in
  let s := example_validator (replicate 4 0) ∅ in
  let applied := snd (toy_try_body w 1 (refreshed w s)) in
  let final := snd (toy_iteration w s) in
  fst (toy_try_body w 1 (refreshed w s)) = Val tt /\
  state_dict (model applied) = [("w"%string, [19 # 10])] /\
  optimizer applied = mkOptimizer (1 # 11) /\
  scheduler applied = mkScheduler 1 (1 # 11) /\
  fst (toy_iteration w s) = Val tt /\
  state_dict (model final) = [("w"%string, [2])] /\
  optimizer final = mkOptimizer (1 # 10) /\
  scheduler final = mkScheduler 0 (1 # 10) /\
  original_state final = original_state s /\
  momentum final !! "w"%string = Some [1] /\
  global_step final = 1%Z.
Proof. vm_compute. repeat split; reflexivity. Qed.

(** C2.  Whatever the evaluation phase does and however it ends (normal
    completion, the missing-submission branch, an exception raised anywhere
    in the body of [try], or an exit before [try] is entered), the state it
    leaves has the model parameters, the optimizer state and the scheduler
    state of the snapshot taken at its start: taking the snapshot again
    gives the same three state dicts. *)
Theorem evaluation_restores_snapshot (Batch : Type)
    (forward : Model -> Batch -> option Q)
    (decode : string -> Tensor -> Tensor -> Tensor -> option Tensor)
    (batch_decode : string -> Tensor -> list Tensor -> list Tensor -> option Tensor)
    (lr_at : nat -> Q) (w : Window Batch) (s : Validator) :
  original_state (snd (evaluation_phase Batch forward decode batch_decode lr_at w s))
  = original_state s.
Proof. apply evaluation_phase_snapshot. Qed.

(** C3.  The specification asks for the power normalisation at both places
    where the weights are recomputed.  After a successful evaluation the
    code divides the masked scores by their plain sum (lines 614-619): with
    scores 0.4, 0, 0.2, all three peers evaluated and exponent 2, a
    successful evaluation of peer 1 that leaves its score at 0 returns the
    weights 2/3, 0, 1/3 and not 0.8, 0, 0.2, which the missing-submission
    path computes from the same scores. *)
Theorem successful_evaluation_weights_are_linear :
  let s := example_validator [2 # 5; 0; 1 # 5] {[ 0%nat; 1%nat; 2%nat ]} in
  power_normalisation (hparams s) = 2%nat /\
  exists weights s',
    update_scores 1 (mkLosses 1 1 1 1) s = (Val weights, s') /\
    Forall2 Qeq (moving_avg_scores s') [2 # 5; 0; 1 # 5] /\
    Forall2 Qeq weights [2 # 3; 0; 1 # 3] /\
    ~ Forall2 Qeq weights [4 # 5; 0; 1 # 5] /\
    Forall2 Qeq
      (weights_after_missing (moving_avg_scores s') (evaluated_uids s')
         (power_normalisation (hparams s')))
      [4 # 5; 0; 1 # 5].
Proof.
  split; [reflexivity |]. eexists. eexists. split; [vm_compute; reflexivity |].
  split; [repeat constructor |].
  split; [repeat constructor |].
  split.
  - intros H. inversion H as [|? ? ? ? H1 _]; subst. vm_compute in H1. discriminate.
  - vm_compute. repeat constructor.
Qed.

(** C4, as the specification states it, fails: a missing submission that
    halves the only score to 1/100000 leaves an evaluated peer with a
    positive score, but the square of the score is below [epsilon] and the
    weights are all zero, so they do not sum to 1 within 1e-6. *)
Lemma weights_vanish_below_epsilon :
  let s := example_validator [1 # 50000] ∅ in
  exists weights s',
    missing_submission 0 s = (Val weights, s') /\
    some_evaluated_positive (moving_avg_scores s') (evaluated_uids s') /\
    ~ Qabs (tensor_sum weights - 1) <= tolerance.
Proof.
  eexists. eexists. split; [vm_compute; reflexivity |]. split.
  - exists 0%nat, ((1 # 50000) * (1 # 2)). split; [set_solver |].
    split; [reflexivity | reflexivity].
  - vm_compute. intros H. apply H. reflexivity.
Qed.

(** C4, amended.  After a successful evaluation the weights sum to 1 (within
    1e-6) when some evaluated peer has a positive score and are all exactly 0
    otherwise.  After a missing submission they sum to 1 (within 1e-6) when
    some evaluated peer has a positive score and the sum of the powered
    scores of the masked peers exceeds [epsilon] = 1e-8, and are all exactly
    0 otherwise. *)
Theorem weights_sum_to_one_or_vanish (scores : Tensor) (evaluated : gset nat)
    (power : nat) :
  (some_evaluated_positive scores evaluated ->
   Qabs (tensor_sum (weights_after_evaluation scores evaluated) - 1) <= tolerance) /\
  (~ some_evaluated_positive scores evaluated ->
   Forall (fun x => x = 0) (weights_after_evaluation scores evaluated)) /\
  (some_evaluated_positive scores evaluated ->
   epsilon_default < powered_sum scores evaluated power ->
   Qabs (tensor_sum (weights_after_missing scores evaluated power) - 1) <= tolerance) /\
  (~ (some_evaluated_positive scores evaluated /\
      epsilon_default < powered_sum scores evaluated power) ->
   Forall (fun x => x = 0) (weights_after_missing scores evaluated power)).
Proof.
  split; [| split; [| split]].
  - intros H. apply within_tolerance, weights_after_evaluation_sum, H.
  - apply weights_after_evaluation_zero.
  - intros H Hs. apply within_tolerance, weights_after_missing_sum; assumption.
  - apply weights_after_missing_zero.
Qed.

(** The four cases of the amended C4 on concrete scores. *)
Lemma weights_sum_to_one_or_vanish_witness :
  let scores := [2 # 5; 0; 1 # 5] in
  let evaluated : gset nat := {[ 0%nat; 1%nat; 2%nat ]} in
  (some_evaluated_positive scores evaluated /\
   epsilon_default < powered_sum scores evaluated 2) /\
  Qabs (tensor_sum (weights_after_evaluation scores evaluated) - 1) <= tolerance /\
  Qabs (tensor_sum (weights_after_missing scores evaluated 2) - 1) <= tolerance /\
  Forall (fun x => x = 0) (weights_after_evaluation [0; 0] {[ 0%nat ]}) /\
  Forall (fun x => x = 0) (weights_after_missing [1 # 100000] {[ 0%nat ]} 2).
Proof.
  intros scores evaluated.
  assert (Hp : some_evaluated_positive scores evaluated).
  { exists 0%nat, (2 # 5). split; [set_solver |]. split; reflexivity. }
  assert (He : epsilon_default < powered_sum scores evaluated 2) by reflexivity.
  destruct (weights_sum_to_one_or_vanish scores evaluated 2) as (H1 & _ & H3 & _).
  destruct (weights_sum_to_one_or_vanish [0; 0] {[ 0%nat ]} 2) as (_ & H2 & _).
  destruct (weights_sum_to_one_or_vanish [1 # 100000] {[ 0%nat ]} 2) as (_ & _ & _ & H4).
  split; [split; assumption |].
  split; [apply H1, Hp |].
  split; [apply H3; assumption |].
  split.
  - apply H2. intros (p & x & _ & Hx & Hpos).
    destruct p as [|[|p]]; simpl in Hx; try discriminate;
      injection Hx as <-; vm_compute in Hpos; discriminate.
  - apply H4. intros [_ Hlt]. vm_compute in Hlt. discriminate.
Defined.

(** C5.  [moving_avg_scores] never goes negative.  Each of the three
    updates that write a score keeps every entry non-negative, whatever its
    outcome: the moving-average update of a successful evaluation (clamped
    at 0), the halving after a missing submission, and the inactivity
    decay.  Hence, from the all-zero tensor of start-up, every score is
    non-negative after any number of iterations of the loop, for every peer
    (no assumption on [ma_alpha] is needed). *)
Theorem moving_avg_scores_nonneg (Batch : Type)
    (forward : Model -> Batch -> option Q)
    (decode : string -> Tensor -> Tensor -> Tensor -> option Tensor)
    (batch_decode : string -> Tensor -> list Tensor -> list Tensor -> option Tensor)
    (lr_at : nat -> Q) :
  (forall u l s, scores_nonneg s -> scores_nonneg (snd (update_scores u l s))) /\
  (forall u s, scores_nonneg s -> scores_nonneg (snd (missing_submission u s))) /\
  (forall u s, scores_nonneg s -> scores_nonneg (snd (penalize_inactive u s))) /\
  (forall ws s n,
     moving_avg_scores s = replicate n 0 ->
     forall p x,
       moving_avg_scores (snd (run Batch forward decode batch_decode lr_at ws s)) !! p
       = Some x ->
       0 <= x).
Proof.
  split; [intros u l; apply nonneg_update_scores |].
  split; [intros u; apply nonneg_missing_submission |].
  split; [intros u; apply nonneg_penalize_inactive |].
  intros ws s n Hz p x Hx.
  assert (H : scores_nonneg (snd (run Batch forward decode batch_decode lr_at ws s))).
  { apply nonneg_run. unfold scores_nonneg. rewrite Hz. apply zeros_nonneg. }
  eapply (proj1 (Forall_lookup _ _) H), Hx.
Qed.

(** Two windows of the small instance, from the all-zero scores. *)
Lemma moving_avg_scores_nonneg_witness :
  let s := example_validator (replicate 4 0) ∅ in
  let ws := [example_window [1; 2]%nat [] (Some (Some example_gradient));
             example_window [2]%nat [1]%nat (Some (Some example_gradient))] in
  moving_avg_scores s = replicate 4 0 /\
  forall p x, moving_avg_scores (snd (toy_run ws s)) !! p = Some x -> 0 <= x.
Proof.
  intros s ws. split; [reflexivity |].
  apply (proj2 (proj2 (proj2
           (moving_avg_scores_nonneg Q toy_forward toy_decode toy_batch_decode toy_lr)))
           ws s 4%nat).
  reflexivity.
Defined.

(** C6.  With non-negative mean losses, [improvement_own] is
    [(loss_before_own - loss_after_own) / loss_before_own], and 0 when
    [loss_before_own] is 0; likewise [improvement_random] on the random-data
    losses; the raw score is [improvement_own]; the binary indicator is 1
    when [improvement_own > improvement_random] and -1 otherwise.  Losses
    2.0 and 1.5 give the raw score 0.25, and against an improvement of 0.1
    on random data the indicator is 1. *)
Theorem scores_from_losses :
  (forall l : Losses,
     0 <= loss_before_own l -> 0 <= loss_after_own l ->
     0 <= loss_before_random l -> 0 <= loss_after_random l ->
     improvement_own_of l
       == (if Qeq_dec (loss_before_own l) 0 then 0
           else (loss_before_own l - loss_after_own l) / loss_before_own l) /\
     improvement_random_of l
       == (if Qeq_dec (loss_before_random l) 0 then 0
           else (loss_before_random l - loss_after_random l) / loss_before_random l) /\
     score_of l = improvement_own_of l /\
     (improvement_random_of l < improvement_own_of l ->
      binary_indicator (improvement_own_of l) (improvement_random_of l) = 1) /\
     (improvement_own_of l <= improvement_random_of l ->
      binary_indicator (improvement_own_of l) (improvement_random_of l) = -1)) /\
  (forall before_random after_random : Q,
     score_of (mkLosses 2 (3 # 2) before_random after_random) == 1 # 4) /\
  binary_indicator (1 # 4) (1 # 10) = 1.
Proof.
  split; [| split; [| reflexivity]].
  - intros l Hbo Hao Hbr Har.
    unfold improvement_own_of, improvement_random_of, score_of, improvement, binary_indicator.
    split; [| split; [| split; [reflexivity | split]]].
    + destruct (Qlt_le_dec 0 (loss_before_own l)), (Qeq_dec (loss_before_own l) 0);
        try reflexivity; lra.
    + destruct (Qlt_le_dec 0 (loss_before_random l)), (Qeq_dec (loss_before_random l) 0);
        try reflexivity; lra.
    + intros H. match goal with |- (if ?c then _ else _) = _ => destruct c as [H'|H'] end;
        [reflexivity | exfalso; apply (Qlt_not_le _ _ H), H'].
    + intros H. match goal with |- (if ?c then _ else _) = _ => destruct c as [H'|H'] end;
        [exfalso; apply (Qlt_not_le _ _ H'), H | reflexivity].
  - intros br ar. reflexivity.
Qed.

(** Own-data losses 2.0 and 1.5, random-data losses 10 and 9. *)
Lemma scores_from_losses_witness :
  let l := mkLosses 2 (3 # 2) 10 9 in
  (0 <= loss_before_own l /\ 0 <= loss_after_own l /\
   0 <= loss_before_random l /\ 0 <= loss_after_random l) /\
  improvement_own_of l == 1 # 4 /\
  improvement_random_of l == 1 # 10 /\
  score_of l = improvement_own_of l /\
  binary_indicator (improvement_own_of l) (improvement_random_of l) = 1.
Proof.
  intros l.
  assert (H1 : 0 <= loss_before_own l) by (vm_compute; discriminate).
  assert (H2 : 0 <= loss_after_own l) by (vm_compute; discriminate).
  assert (H3 : 0 <= loss_before_random l) by (vm_compute; discriminate).
  assert (H4 : 0 <= loss_after_random l) by (vm_compute; discriminate).
  destruct (proj1 scores_from_losses l H1 H2 H3 H4) as (Ho & Hr & Hs & Hi & _).
  split; [repeat split; assumption |].
  split; [rewrite Ho; reflexivity |].
  split; [rewrite Hr; reflexivity |].
  split; [exact Hs |].
  apply Hi. reflexivity.
Defined.

(** C7.  A peer [p] reported as departed in a window, with score [s0], that
    is in no eval set during that window and the following ones, has the
    score [s0 * 0.75^k] once [k] windows have been processed (exactly, in
    rational arithmetic).  And in a window in which [p] is an eval peer
    again, the inactivity loops remove it from [inactive_scores] and leave
    its score alone. *)
Theorem inactivity_decay (Batch : Type)
    (forward : Model -> Batch -> option Q)
    (decode : string -> Tensor -> Tensor -> Tensor -> option Tensor)
    (batch_decode : string -> Tensor -> list Tensor -> list Tensor -> option Tensor)
    (lr_at : nat -> Q) (p : nat) :
  (forall (w : Window Batch) ws s s' s0,
     moving_avg_scores s !! p = Some s0 ->
     p ∈ comms_inactive_peers w ->
     Forall (fun w' => catch_up w' = None /\ p ∉ comms_eval_peers w') (w :: ws) ->
     run Batch forward decode batch_decode lr_at (w :: ws) s = (Val tt, s') ->
     exists y, moving_avg_scores s' !! p = Some y /\
               y == s0 * (3 # 4) ^ Z.of_nat (length (w :: ws))) /\
  (forall (w : Window Batch) s s',
     p ∈ comms_eval_peers w ->
     inactivity (comms_inactive_peers w) (refreshed w s) = (Val tt, s') ->
     inactive_scores s' !! p = None /\
     moving_avg_scores s' !! p = moving_avg_scores s !! p).
Proof.
  split.
  - intros w ws s s' s0 Hx Hin Hws E.
    apply Forall_cons in Hws as [[Hc Hp] Hws].
    apply run_cons in E as (s1 & E1 & E2).
    destruct (iteration_decays Batch forward decode batch_decode lr_at
                w s s1 p s0 Hc Hp (or_introl Hin) Hx E1) as [Hx1 Ht1].
    destruct (run_decays Batch forward decode batch_decode lr_at
                ws s1 s' p _ Hws Ht1 Hx1 E2) as (y & Hy & Hyq).
    exists y. split; [exact Hy |]. rewrite Hyq.
    change (length (w :: ws)) with (S (length ws)).
    replace (Z.of_nat (S (length ws))) with (Z.of_nat (length ws) + 1)%Z by lia.
    rewrite Qpower_plus' by lia. rewrite Qpower_1_r. ring.
  - intros w s s' Hp E.
    destruct (inactivity_returning _ _ _ p E) as [Hi Hm]; [exact Hp |].
    split; [exact Hi | exact Hm].
Qed.

(** Peer 1 leaves the eval set with score 0.8, stays away for three windows
    and is an eval peer again in the fourth. *)
Lemma inactivity_decay_witness :
  let s := example_validator [0; 4 # 5; 1 # 10; 0] {[ 1%nat; 2%nat ]} in
  let left := example_window [2]%nat (departed [1; 2]%nat [2]%nat)
                (Some (Some example_gradient)) in
  let away := example_window [2]%nat [] (Some (Some example_gradient)) in
  let back := example_window [1; 2]%nat [] (Some (Some example_gradient)) in
  let s3 := snd (toy_run [left; away; away] s) in
  (exists y, moving_avg_scores s3 !! 1%nat = Some y /\ y == (4 # 5) * (3 # 4) ^ 3) /\
  is_Some (inactive_scores s3 !! 1%nat) /\
  inactive_scores (snd (inactivity (comms_inactive_peers back) (refreshed back s3))) !! 1%nat
  = None /\
  moving_avg_scores (snd (inactivity (comms_inactive_peers back) (refreshed back s3))) !! 1%nat
  = moving_avg_scores s3 !! 1%nat.
Proof.
  intros s left away back s3.
  pose proof (inactivity_decay Q toy_forward toy_decode toy_batch_decode toy_lr 1%nat)
    as [Ha Hb].
  split.
  - apply (Ha left [away; away] s s3 (4 # 5)).
    + reflexivity.
    + apply departed_reported; [left |].
      apply not_elem_of_cons; split; [discriminate | apply not_elem_of_nil].
    + repeat constructor;
        (apply not_elem_of_cons; split; [discriminate | apply not_elem_of_nil]).
    + vm_compute. reflexivity.
  - split; [vm_compute; eexists; reflexivity |].
    apply (Hb back s3).
    + left.
    + vm_compute. reflexivity.
Defined.

(** C8.  When the payload of the selected eval peer [u] is absent
    ([comms.get] gave nothing, a timeout included, or a tuple without state
    dict), the evaluation phase, however it ends, leaves the score of [u]
    multiplied by exactly 1/2 (not the 3/4 of inactivity) and [u] in
    [evaluated_uids]; [u] then stays in [evaluated_uids] through all later
    iterations, and an evaluated peer with a positive score is selected by
    the mask of every weight computation. *)
Theorem missing_submission_halves (Batch : Type)
    (forward : Model -> Batch -> option Q)
    (decode : string -> Tensor -> Tensor -> Tensor -> option Tensor)
    (batch_decode : string -> Tensor -> list Tensor -> list Tensor -> option Tensor)
    (lr_at : nat -> Q) (w : Window Batch) (s : Validator) (u : nat) (x : Q) :
  random_choice (eval_peers s) (choice_draw w) = Val u ->
  payload_absent w ->
  moving_avg_scores s !! u = Some x ->
  let s' := snd (evaluation_phase Batch forward decode batch_decode lr_at w s) in
  moving_avg_scores s' !! u = Some (x * (1 # 2)) /\
  ~ (1 # 2) == (3 # 4) /\
  u ∈ evaluated_uids s' /\
  (forall ws, u ∈ evaluated_uids (snd (run Batch forward decode batch_decode lr_at ws s'))) /\
  (forall scores evaluated y,
     u ∈ evaluated -> scores !! u = Some y -> 0 < y ->
     positive_mask scores evaluated !! u = Some true).
Proof.
  intros Hc Hp Hx s'.
  destruct (evaluation_phase_missing Batch forward decode batch_decode lr_at w s u x Hc Hp Hx)
    as [Hm He].
  fold s' in Hm, He.
  assert (Hu : u ∈ evaluated_uids s').
  { rewrite He. apply elem_of_union_l, elem_of_singleton. reflexivity. }
  split; [rewrite Hm; apply list_lookup_insert_eq; eapply lookup_lt_Some, Hx |].
  split; [discriminate |].
  split; [exact Hu |].
  split.
  - intros ws. by apply (evaluated_run Batch forward decode batch_decode lr_at u ws s').
  - intros scores evaluated y Hin Hy Hpos. rewrite positive_mask_lookup, Hy. simpl.
    rewrite (proj2 (is_positive_true y) Hpos), bool_decide_eq_true_2 by exact Hin.
    reflexivity.
Qed.

(** Peer 7 has the score 0.8 and its payload is absent: the score becomes 0.4. *)
Lemma missing_submission_halves_witness :
  let w := example_window [7]%nat [] None in
  let s := refreshed w (example_validator (replicate 7 0 ++ [4 # 5]) ∅) in
  let s' := snd (toy_evaluation_phase w s) in
  (random_choice (eval_peers s) (choice_draw w) = Val 7%nat /\
   payload_absent w /\ moving_avg_scores s !! 7%nat = Some (4 # 5)) /\
  moving_avg_scores s' !! 7%nat = Some ((4 # 5) * (1 # 2)) /\
  (4 # 5) * (1 # 2) == 2 # 5 /\
  7%nat ∈ evaluated_uids s' /\
  positive_mask (moving_avg_scores s') (evaluated_uids s') !! 7%nat = Some true.
Proof.
  intros w s s'.
  assert (Hc : random_choice (eval_peers s) (choice_draw w) = Val 7%nat) by reflexivity.
  assert (Hp : payload_absent w) by (left; reflexivity).
  assert (Hx : moving_avg_scores s !! 7%nat = Some (4 # 5)) by reflexivity.
  destruct (missing_submission_halves Q toy_forward toy_decode toy_batch_decode toy_lr
              w s 7%nat (4 # 5) Hc Hp Hx) as (Hm & _ & He & _ & Hmask).
  split; [repeat split; assumption |].
  split; [exact Hm |].
  split; [reflexivity |].
  split; [exact He |].
  apply (Hmask _ _ ((4 # 5) * (1 # 2))); [exact He | exact Hm | reflexivity].
Defined.

(** C9.  The specification says the validator's own uid is in the gather
    list after every refresh.  The code adds it once, at start-up (lines
    208-209); each window then replaces [self.peers] by [comms.peers] as it
    is (line 301).  With uid 0 and a directory that lists the gather peers
    1 and 2: the start-up list is 1, 2, 0, and after the first window the
    list is 1, 2 and the validator is not in it. *)
Theorem self_inclusion_lost_on_refresh :
  let w := example_window [1; 2]%nat [] (Some (Some example_gradient)) in
  let s := with_peers (load_peers 0 [] [1; 2]%nat) (example_validator (replicate 4 0) ∅) in
  let s' := snd (toy_iteration w s) in
  uid s = 0%nat /\
  peers s = [1; 2; 0]%nat /\
  uid s ∈ peers s /\
  comms_peers w = [1; 2]%nat /\
  fst (toy_iteration w s) = Val tt /\
  uid s' = 0%nat /\
  peers s' = [1; 2]%nat /\
  uid s' ∉ peers s'.
Proof.
  vm_compute. repeat split; try reflexivity.
  - apply list_elem_of_In. simpl. auto.
  - intros H. apply list_elem_of_In in H. simpl in H.
    destruct H as [H | [H | []]]; discriminate.
Qed.

(** C10.  When the refreshed eval-peer list is empty (and the uids reported
    or tracked as inactive are indices of the score tensor, so that the
    inactivity loops do not raise), the iteration returns right after the
    inactivity penalties: [global_step] is one more; the model, the
    optimizer, the scheduler and the momentum are unchanged, so the gathered
    gradients are not applied; no peer is added to [evaluated_uids], no
    binary moving average changes, nothing is emitted (no weights, no
    checkpoint); the scores and the inactivity tracking are those the
    inactivity loops left. *)
Theorem empty_eval_peers_skips_evaluation (Batch : Type)
    (forward : Model -> Batch -> option Q)
    (decode : string -> Tensor -> Tensor -> Tensor -> option Tensor)
    (batch_decode : string -> Tensor -> list Tensor -> list Tensor -> option Tensor)
    (lr_at : nat -> Q) (w : Window Batch) (s : Validator) :
  catch_up w = None ->
  comms_eval_peers w = [] ->
  uids_valid (comms_inactive_peers w) s ->
  tracked_valid s ->
  exists s',
    iteration Batch forward decode batch_decode lr_at w s = (Val tt, s') /\
    global_step s' = (global_step s + 1)%Z /\
    model s' = model s /\ optimizer s' = optimizer s /\ scheduler s' = scheduler s /\
    momentum s' = momentum s /\
    evaluated_uids s' = evaluated_uids s /\
    binary_moving_averages s' = binary_moving_averages s /\
    score_bound s' = score_bound s /\
    emitted s' = emitted s /\
    moving_avg_scores s'
    = moving_avg_scores (snd (inactivity (comms_inactive_peers w) (refreshed w s))) /\
    inactive_scores s'
    = inactive_scores (snd (inactivity (comms_inactive_peers w) (refreshed w s))).
Proof.
  intros Hc He Hv Ht.
  destruct (iteration_without_eval_peers Batch forward decode batch_decode lr_at
              w s Hc He Hv Ht) as (s2 & E2 & Ei).
  pose proof (rep_step_inactivity (comms_inactive_peers w) (refreshed w s)) as Hr.
  rewrite E2 in *. simpl in Hr.
  destruct Hr as (_ & _ & Hm & Ho & Hs & Hmo & _ & _ & Hg & _ & Hev & _ & _ & Hb & Hsb & Hem & _).
  exists (with_global_step (global_step s2 + 1)%Z s2).
  split; [exact Ei |]. simpl in *.
  rewrite Hg, Hm, Ho, Hs, Hmo, Hev, Hb, Hsb, Hem. repeat split; reflexivity.
Qed.

(** A window without eval peers in which peer 1 is reported as departed. *)
Lemma empty_eval_peers_skips_evaluation_witness :
  let w := example_window [] [1]%nat (Some (Some example_gradient)) in
  let s := example_validator [0; 4 # 5; 1 # 10; 0] {[ 1%nat; 2%nat ]} in
  (catch_up w = None /\ comms_eval_peers w = [] /\
   uids_valid (comms_inactive_peers w) s /\ tracked_valid s) /\
  exists s',
    toy_iteration w s = (Val tt, s') /\
    global_step s' = (global_step s + 1)%Z /\
    model s' = model s /\ optimizer s' = optimizer s /\ scheduler s' = scheduler s /\
    momentum s' = momentum s /\
    evaluated_uids s' = evaluated_uids s /\
    binary_moving_averages s' = binary_moving_averages s /\
    score_bound s' = score_bound s /\
    emitted s' = emitted s /\
    moving_avg_scores s'
    = moving_avg_scores (snd (inactivity (comms_inactive_peers w) (refreshed w s))) /\
    inactive_scores s'
    = inactive_scores (snd (inactivity (comms_inactive_peers w) (refreshed w s))).
Proof.
  intros w s.
  assert (Hv : uids_valid (comms_inactive_peers w) s).
  { repeat constructor. }
  assert (Ht : tracked_valid s).
  { intros u [v Hu]. vm_compute in Hu. discriminate. }
  split; [repeat split; try reflexivity; assumption |].
  exact (empty_eval_peers_skips_evaluation Q toy_forward toy_decode toy_batch_decode toy_lr
           w s eq_refl eq_refl Hv Ht).
Defined.

(** * Further properties of the weight vector *)





Lemma masked_select_imap_elem (g : nat -> Q -> bool) (l : Tensor) (i : nat) (x : Q) :
  l !! i = Some x -> g i x = true -> x ∈ masked_select l (imap g l).
Proof.
  revert g i. induction l as [|y l IH]; intros g i Hi Hg; [done |].
  destruct i as [|i]; simpl in *.
  - injection Hi as ->. rewrite Hg. left.
  - destruct (g 0%nat y); [right |]; by apply (IH (g ∘ S) i).
Qed.

Lemma tensor_sum_ge_elem (t : Tensor) (x : Q) :
  Forall (fun y => 0 <= y) t -> x ∈ t -> x <= tensor_sum t.
Proof.
  intros H Hx. induction H as [|y t Hy Ht IH]; [by apply elem_of_nil in Hx |].
  assert (0 <= tensor_sum t).
  { clear -Ht. induction Ht as [|z t Hz Ht IH]; simpl; [lra | lra]. }
  simpl. apply elem_of_cons in Hx as [-> | Hx]; [lra |].
  specialize (IH Hx). lra.
Qed.

Lemma selected_positive (scores : Tensor) (evaluated : gset nat) :
  Forall (fun y => 0 < y) (masked_select scores (positive_mask scores evaluated)).
Proof.
  apply masked_select_imap_Forall. intros i x Hx.
  apply andb_true_iff in Hx as [Hx _]. by apply is_positive_true.
Qed.

Lemma Qpower_nat_pos (x : Q) (n : nat) : 0 < x -> 0 < x ^ Z.of_nat n.
Proof. apply Qpower_0_lt. Qed.

Lemma Qpower_nat_le (x y : Q) (n : nat) : 0 < x -> x <= y -> x ^ Z.of_nat n <= y ^ Z.of_nat n.
Proof.
  intros Hx Hxy. induction n as [|n IH].
  - simpl. lra.
  - replace (Z.of_nat (S n)) with (Z.of_nat n + 1)%Z by lia.
    rewrite !Qpower_plus' by lia. rewrite !Qpower_1_r.
    pose proof (Qpower_nat_pos x n Hx).
    assert (0 < y) by lra.
    pose proof (Qpower_nat_pos y n H0). nra.
Qed.


Lemma Qdiv_le_mono (x y s : Q) : x <= y -> 0 < s -> x / s <= y / s.
Proof.
  intros Hxy Hs. unfold Qdiv. apply Qmult_le_compat_r; [exact Hxy |].
  apply Qlt_le_weak, Qinv_lt_0_compat, Hs.
Qed.




(** * The sample of batches *)



Lemma sample_size_empty (rate : Q) : sample_size 0 rate = 1%Z.
Proof.
  unfold sample_size, int_of. destruct rate as [n d]. simpl.
  rewrite Z.quot_0_l; [reflexivity | discriminate].
Qed.



Section EmptyLoader.
Variable Batch : Type.
Variable forward : Model -> Batch -> option Q.
Variable decode : string -> Tensor -> Tensor -> Tensor -> option Tensor.
Variable batch_decode : string -> Tensor -> list Tensor -> list Tensor -> option Tensor.
Variable lr_at : nat -> Q.

Lemma evaluate_empty_loader (w : Window Batch) (sd : gmap string Tensor) (s : Validator) :
  own_batches w = Some [] ->
  evaluate Batch forward decode w sd s
  = (Exn ValueError, with_model (set_training false (zero_grad (model s))) s).
Proof.
  intros Hb. unfold evaluate, bind, lift, get, modify. rewrite Hb. cbn [answered length].
  rewrite sample_size_empty. reflexivity.
Qed.

Lemma try_body_empty_loader (w : Window Batch) (sd : gmap string Tensor)
    (u : nat) (s : Validator) :
  eval_result w = Some (Some sd) ->
  own_batches w = Some [] ->
  try_body Batch forward decode batch_decode lr_at w u s
  = (Exn ValueError, with_model (set_training false (zero_grad (model s))) s).
Proof.
  intros He Hb. unfold try_body, score_peer, bind. rewrite He.
  rewrite (evaluate_empty_loader w sd s Hb). reflexivity.
Qed.

End EmptyLoader.

(** * Inside the evaluation *)

Lemma dict_of_lookup {A : Type} (l : list (string * A)) n t :
  NoDup l.*1 -> (n, t) ∈ l -> dict_of l !! n = Some t.
Proof.
  intros Hn Hin. unfold dict_of. apply elem_of_list_to_map_1.
  - rewrite fmap_reverse, reverse_Permutation. exact Hn.
  - by rewrite elem_of_reverse.
Qed.

Lemma restore_params_loop_exact (o : gmap string Tensor) (l : list (string * Param))
    (sd : list (string * Tensor)) :
  map fst l = map fst sd ->
  (forall n t, (n, t) ∈ sd -> o !! n = Some t) ->
  exists l', restore_params_loop o l = (None, l') /\
    map (fun np => (np.1, data np.2)) l' = sd /\
    map (fun np => grad np.2) l' = map (fun np => grad np.2) l.
Proof.
  revert sd. induction l as [|[n p] l IH]; intros [|[n' t] sd] Hn Ho; simpl in *;
    try discriminate.
  - exists []. done.
  - injection Hn as -> Hn. rewrite (Ho n' t) by left.
    destruct (IH sd Hn) as (l' & E & H1 & H2); [intros; apply Ho; by right |].
    rewrite E. eexists. split; [reflexivity |]. simpl. by rewrite H1, H2.
Qed.

Lemma restore_params_exact (sd0 : list (string * Tensor)) (s : Validator) :
  NoDup sd0.*1 -> param_names (model s) = sd0.*1 ->
  exists m, restore_params (dict_of sd0) s = (Val tt, with_model m s) /\
            state_dict m = sd0.
Proof.
  intros Hnd Hn.
  destruct (restore_params_loop_exact (dict_of sd0) (named_parameters (model s)) sd0)
    as (l' & E & H1 & _).
  - exact Hn.
  - intros n t. by apply dict_of_lookup.
  - unfold restore_params. rewrite E. eexists. split; [reflexivity | exact H1].
Qed.

Lemma restore_params_loop_grads (o : gmap string Tensor) (l l' : list (string * Param)) e :
  restore_params_loop o l = (e, l') ->
  Forall2 (fun np np' => np'.1 = np.1 /\ grad np'.2 = grad np.2) l l'.
Proof.
  revert l' e. induction l as [|[n p] l IH]; intros l' e; simpl.
  - intros [= <- <-]. constructor.
  - destruct (o !! n) as [t|].
    + destruct (restore_params_loop o l) as [e0 r] eqn:E. intros [= <- <-].
      constructor; [done | by eapply IH].
    + intros [= <- <-]. apply Forall2_same_length_lookup_2; [done |].
      intros i x y H1 H2. rewrite H1 in H2. by injection H2 as <-.
Qed.

Section Evaluation.
Variable Batch : Type.
Variable forward : Model -> Batch -> option Q.
Variable decode : string -> Tensor -> Tensor -> Tensor -> option Tensor.

(** The evaluation writes to [self] through the model only. *)
Lemma model_only_evaluate (I : Validator -> Prop) w sd :
  (forall s x, I s -> I (with_model x s)) ->
  preserves I (evaluate Batch forward decode w sd).
Proof.
  intros Hm. unfold evaluate.
  repeat match goal with
    | |- preserves _ (let _ := _ in _) => cbv zeta
    | |- preserves _ (ret _) => apply preserves_ret
    | |- preserves _ get => apply preserves_get
    | |- preserves _ (lift _) => apply preserves_lift
    | |- preserves _ (bind _ _) => apply preserves_bind; [| intros ?]
    | |- preserves _ (modify _) => apply preserves_modify; intros ? ?; cbv beta; by apply Hm
    | |- preserves _ (restore_params _) =>
        apply preserves_state_model; [exact Hm |]; intros ?; unfold restore_params;
        destruct (restore_params_loop _ _); by eexists
    | |- preserves _ (apply_gradient _ _) =>
        apply preserves_state_model; [exact Hm |]; intros ?; unfold apply_gradient;
        destruct (apply_gradient_loop _ _ _ _); by eexists
    end.
Qed.

Lemma evaluate_model_only_differs w sd s :
  model_only_differs s (snd (evaluate Batch forward decode w sd s)).
Proof.
  apply (model_only_evaluate (model_only_differs s)).
  - intros s1 x H. exact H.
  - unfold model_only_differs. by destruct s.
Qed.

(** When the evaluation returns, the parameters hold the values they had
    when it started. *)
Lemma evaluate_restores (w : Window Batch) (sd : gmap string Tensor)
    (sd0 : list (string * Tensor)) :
  NoDup sd0.*1 ->
  hoare (fun s => state_dict (model s) = sd0)
        (evaluate Batch forward decode w sd)
        (fun _ s => state_dict (model s) = sd0)
        (fun _ _ => True).
Proof.
  intros Hnd. set (N := fun s : Validator => param_names (model s) = sd0.*1).
  assert (HN : ml_stable N).
  { intros s1 s2 H12 H1. unfold N. rewrite <- H1. apply H12. }
  assert (Hstep : forall A B (m : M A) (k : A -> M B) Q,
            ml_only m -> (forall a, hoare N (k a) Q (fun _ _ => True)) ->
            hoare N (bind m k) Q (fun _ _ => True)).
  { intros A B m k Q Hm Hk. apply (hoare_bind _ _ _ (fun _ => N)); [| exact Hk].
    eapply hoare_conseq; [apply hoare_preserves, (ml_only_preserves N m Hm HN) | auto ..]. }
  unfold evaluate.
  apply (hoare_bind _ _ _ (fun _ s => state_dict (model s) = sd0)).
  { apply hoare_lift. intros s Hs. by destruct (answered _). }
  intros batches.
  apply (hoare_bind _ _ _ (fun a s => state_dict (model a) = sd0 /\ N s)).
  { apply hoare_get. intros s Hs. split; [exact Hs |]. unfold N. by rewrite <- Hs, state_dict_names. }
  intros s0. cbv zeta.
  apply (hoare_pure (state_dict (model s0) = sd0) N). intros Hs0.
  repeat match goal with
    | |- hoare N (bind (restore_params _) (fun _ => ret _)) _ _ => fail 1
    | |- hoare N (bind _ _) _ _ =>
        apply Hstep;
        [ first [ apply ml_only_apply_gradient | apply ml_only_restore_params
                | ml_only_tac ]
        | intros ? ]
    end.
  apply (hoare_bind _ _ _ (fun _ s => state_dict (model s) = sd0)).
  - intros s Hs. rewrite Hs0.
    destruct (restore_params_exact sd0 s Hnd Hs) as (m & -> & Hm). exact Hm.
  - intros _. apply hoare_ret. auto.
Qed.

(** One pass of the loop "Apply gradient": a sign step where [p.grad] is
    [None], a step by the decoded gradient where it is set. *)
Lemma apply_gradient_loop_stepped alpha sd (signed : bool) l l' :
  Forall (fun np => is_Some (sd !! (np.1 +:+ "idxs")) -> is_Some (sd !! (np.1 +:+ "vals")) ->
                    if signed then grad np.2 = None else is_Some (grad np.2)) l ->
  apply_gradient_loop decode alpha sd l = (None, l') ->
  Forall2 (eval_stepped decode alpha sd signed) l l'.
Proof.
  revert l'. induction l as [|[n p] l IH]; intros l' Hg; simpl.
  - intros [= <-]. constructor.
  - apply Forall_cons in Hg as [Hp Hg]. simpl in Hp.
    unfold eval_stepped at 1. simpl.
    destruct (sd !! (n +:+ "idxs")) as [idxs|] eqn:Ei.
    + destruct (sd !! (n +:+ "vals")) as [vals|] eqn:Ev.
      * destruct (decode n (data p) idxs vals) as [g|] eqn:Ed; [| discriminate].
        destruct (apply_gradient_loop decode alpha sd l) as [e r] eqn:E.
        intros [= -> <-]. constructor; [| by apply IH].
        unfold eval_stepped. simpl. rewrite Ei, Ev. split; [done |].
        exists g. split; [done |].
        specialize (Hp ltac:(by eexists) ltac:(by eexists)).
        destruct signed.
        -- rewrite Hp. done.
        -- destruct Hp as [g0 ->]. done.
      * destruct (apply_gradient_loop decode alpha sd l) as [e r] eqn:E.
        intros [= -> <-]. constructor; [| by apply IH].
        unfold eval_stepped. simpl. by rewrite Ei, Ev.
    + destruct (apply_gradient_loop decode alpha sd l) as [e r] eqn:E.
      intros [= -> <-]. constructor; [| by apply IH].
      unfold eval_stepped. simpl. by rewrite Ei.
Qed.

Lemma eval_stepped_grad alpha sd signed l l' :
  Forall2 (eval_stepped decode alpha sd signed) l l' ->
  Forall (fun np => is_Some (sd !! (np.1 +:+ "idxs")) -> is_Some (sd !! (np.1 +:+ "vals")) ->
                    is_Some (grad np.2)) l'.
Proof.
  induction 1 as [|np np' l l' [Hn H] _ IH]; constructor; [| exact IH].
  rewrite Hn. intros [i Hi] [v Hv]. rewrite Hi, Hv in H.
  destruct H as (g & _ & _ & ->). by eexists.
Qed.

End Evaluation.

Section LossLoop.
Variable Batch : Type.
Variable forward : Model -> Batch -> option Q.



End LossLoop.

(** * Inside the model update *)

Lemma sign_abs_le_1 (x : Q) : Qabs (sign x) <= 1.
Proof.
  unfold sign. destruct x as [[|n|n] d]; simpl; discriminate.
Qed.

Lemma sign_step_bound (x a g : Q) : Qabs (x - a * sign g - x) <= Qabs a.
Proof.
  assert (E : x - a * sign g - x == - (a * sign g)) by ring.
  rewrite E, Qabs_opp, Qabs_Qmult.
  pose proof (sign_abs_le_1 g) as H1. pose proof (Qabs_nonneg a) as H2.
  pose proof (Qabs_nonneg (sign g)) as H3. nra.
Qed.

Lemma sub_sign_bound (t g : Tensor) (a : Q) j x x' :
  t !! j = Some x -> sub_ t (sign_ g) a !! j = Some x' ->
  Qabs (x' - x) <= Qabs a.
Proof.
  unfold sub_, sign_. intros Hx Hx'.
  apply lookup_zip_with_Some in Hx' as (y & z & -> & Hy & Hz).
  rewrite Hx in Hy. injection Hy as <-.
  apply list_lookup_fmap_Some in Hz as (gj & -> & _).
  apply sign_step_bound.
Qed.

Lemma state_dict_sgd_step_zero_grad o m :
  state_dict (sgd_step o (zero_grad m)) = state_dict m.
Proof.
  unfold state_dict, sgd_step, zero_grad. simpl. rewrite !map_map.
  apply map_ext. intros [n p]. reflexivity.
Qed.

Section Update.
Variable batch_decode : string -> Tensor -> list Tensor -> list Tensor -> option Tensor.

(** The loop of step 16 when it runs to its end: the data is not touched,
    [p.grad] becomes the sign of the decoded gradient where a payload
    exists. *)
Lemma gathered_gradient_loop_grads gsd l mom l' mom' :
  gathered_gradient_loop batch_decode gsd l mom = (None, l', mom') ->
  Forall2 (fun np np' =>
             np'.1 = np.1 /\ data np'.2 = data np.2 /\
             match gsd !! (np.1 +:+ "idxs"), gsd !! (np.1 +:+ "vals") with
             | Some idxs, Some vals =>
                 exists g, batch_decode np.1 (data np.2) (as_list idxs) (as_list vals) = Some g /\
                           grad np'.2 = Some (sign_ g)
             | _, _ => grad np'.2 = grad np.2
             end) l l'.
Proof.
  revert mom l'. induction l as [|[n p] l IH]; intros mom l'; simpl.
  - intros [= <- <-]. constructor.
  - destruct (gsd !! (n +:+ "idxs")) as [idxs|] eqn:Ei.
    + destruct (gsd !! (n +:+ "vals")) as [vals|] eqn:Ev.
      * destruct (batch_decode n (data p) (as_list idxs) (as_list vals)) as [g|] eqn:Ed;
          [| discriminate].
        destruct (gathered_gradient_loop batch_decode gsd l _) as [[e r] mm] eqn:E.
        intros [= -> <- <-]. constructor; [| by eapply IH].
        simpl. rewrite Ei, Ev. split; [done |]. split; [done |]. by exists g.
      * destruct (gathered_gradient_loop batch_decode gsd l _) as [[e r] mm] eqn:E.
        intros [= -> <- <-]. constructor; [| by eapply IH].
        simpl. by rewrite Ei, Ev.
    + destruct (gathered_gradient_loop batch_decode gsd l _) as [[e r] mm] eqn:E.
      intros [= -> <- <-]. constructor; [| by eapply IH].
      simpl. by rewrite Ei.
Qed.

(** The momentum after the loop: the decoded gradient, before its sign is
    taken, under every parameter name with a payload; everything else as
    before. *)
Lemma gathered_gradient_loop_momentum gsd l mom l' mom' :
  NoDup (map fst l) ->
  gathered_gradient_loop batch_decode gsd l mom = (None, l', mom') ->
  (forall n p, (n, p) ∈ l -> gathered_for gsd n ->
     exists idxs vals g, gsd !! (n +:+ "idxs") = Some idxs /\ gsd !! (n +:+ "vals") = Some vals /\
       batch_decode n (data p) (as_list idxs) (as_list vals) = Some g /\
       mom' !! n = Some g) /\
  (forall n, ~ (n ∈ map fst l /\ gathered_for gsd n) -> mom' !! n = mom !! n).
Proof.
  revert mom l' mom'. induction l as [|[n p] l IH]; intros mom l' mom' Hnd.
  - cbn [gathered_gradient_loop]. intros [= <- <-]. split; [| done].
    intros n p H. by apply elem_of_nil in H.
  - cbn [map fst] in Hnd |- *. apply NoDup_cons in Hnd as [Hn Hnd].
    cbn [gathered_gradient_loop].
    assert (Hno : ~ gathered_for gsd n ->
              forall r, gathered_gradient_loop batch_decode gsd l mom = (None, r, mom') ->
              (forall n0 p0, (n0, p0) ∈ (n, p) :: l -> gathered_for gsd n0 ->
                 exists idxs vals g, gsd !! (n0 +:+ "idxs") = Some idxs /\
                   gsd !! (n0 +:+ "vals") = Some vals /\
                   batch_decode n0 (data p0) (as_list idxs) (as_list vals) = Some g /\
                   mom' !! n0 = Some g) /\
              (forall n0, ~ (n0 ∈ n :: map fst l /\ gathered_for gsd n0) ->
                 mom' !! n0 = mom !! n0)).
    { intros Hnot r E. destruct (IH mom r mom' Hnd E) as [H1 H2]. split.
      - intros n0 p0 Hin Hg. apply elem_of_cons in Hin as [[= -> ->] | Hin]; [done |].
        by apply (H1 n0 p0).
      - intros n0 Hn0. apply H2. intros [Hin Hg]. apply Hn0. split; [by right | done]. }
    destruct (gsd !! (n +:+ "idxs")) as [idxs|] eqn:Ei.
    + destruct (gsd !! (n +:+ "vals")) as [vals|] eqn:Ev.
      * destruct (batch_decode n (data p) (as_list idxs) (as_list vals)) as [g|] eqn:Ed;
          [| discriminate].
        destruct (gathered_gradient_loop batch_decode gsd l (<[n:=g]> mom)) as [[e r] mm] eqn:E.
        intros [= -> <- <-]. destruct (IH _ r mm Hnd E) as [H1 H2]. split.
        -- intros n0 p0 Hin Hg. apply elem_of_cons in Hin as [[= -> ->] | Hin].
           ++ exists idxs, vals, g. repeat split; try done.
              rewrite H2; [apply lookup_insert_eq |]. intros [Hin _]. done.
           ++ by apply (H1 n0 p0).
        -- intros n0 Hn0. destruct (decide (n0 = n)) as [-> | Hne].
           ++ exfalso. apply Hn0. split; [left |]. split; by eexists.
           ++ rewrite H2; [by rewrite lookup_insert_ne |].
              intros [Hin Hg]. apply Hn0. split; [by right | done].
      * destruct (gathered_gradient_loop batch_decode gsd l mom) as [[e r] mm] eqn:E.
        intros [= -> <- <-]. apply (Hno ltac:(intros [_ [v Hv]]; rewrite Ev in Hv; discriminate) r eq_refl).
    + destruct (gathered_gradient_loop batch_decode gsd l mom) as [[e r] mm] eqn:E.
      intros [= -> <- <-]. apply (Hno ltac:(intros [[v Hv] _]; rewrite Ei in Hv; discriminate) r eq_refl).
Qed.

Lemma gathered_gradient_loop_empty l mom :
  gathered_gradient_loop batch_decode ∅ l mom = (None, l, mom).
Proof.
  induction l as [|[n p] l IH]; cbn [gathered_gradient_loop]; [reflexivity |].
  rewrite !lookup_empty, IH. reflexivity.
Qed.

End Update.

Section UpdateModel.
Variable Batch : Type.
Variable batch_decode : string -> Tensor -> list Tensor -> list Tensor -> option Tensor.
Variable lr_at : nat -> Q.

(** The shape of a model update that returns. *)
Lemma update_model_returns (w : Window Batch) (s s' : Validator) :
  update_model Batch batch_decode lr_at w s = (Val tt, s') ->
  exists ps mom,
    gathered_gradient_loop batch_decode (gathered_payload w)
      (named_parameters (zero_grad (model s))) (momentum s) = (None, ps, mom) /\
    s' = scheduler_step lr_at
           (with_model (sgd_step (optimizer s) (mkModel ps true)) (with_momentum mom s)).
Proof.
  unfold update_model, gathered_payload, bind, modify, ret.
  destruct (gather_result w) as [[gsd|]|].
  - unfold gathered_gradient. cbn [model momentum with_model training set_training zero_grad
                                    named_parameters].
    destruct (gathered_gradient_loop batch_decode gsd _ (momentum s)) as [[e ps] mom] eqn:E.
    destruct e as [e|]; [discriminate |]. cbn [outcome]. intros [= <-].
    exists ps, mom. split; [reflexivity |]. by destruct s.
  - intros [= <-]. exists (named_parameters (zero_grad (model s))), (momentum s).
    split; [apply gathered_gradient_loop_empty | by destruct s].
  - intros [= <-]. exists (named_parameters (zero_grad (model s))), (momentum s).
    split; [apply gathered_gradient_loop_empty | by destruct s].
Qed.

Lemma update_model_stepped (w : Window Batch) (s s' : Validator) :
  update_model Batch batch_decode lr_at w s = (Val tt, s') ->
  Forall2 (update_stepped batch_decode (lr (optimizer s)) (gathered_payload w))
          (named_parameters (model s)) (named_parameters (model s')).
Proof.
  intros H. apply update_model_returns in H as (ps & mom & E & ->).
  apply gathered_gradient_loop_grads in E.
  cbn [scheduler_step model with_scheduler with_optimizer with_model sgd_step named_parameters].
  apply Forall2_fmap_r. unfold zero_grad in E. cbn [named_parameters] in E.
  apply Forall2_fmap_l in E. eapply Forall2_impl; [exact E |].
  intros [n p] [n' p']. unfold compose. cbn [fst snd data grad]. intros (-> & Hd & Hg).
  unfold update_stepped. cbn [fst snd data grad].
  destruct (gathered_payload w !! (n +:+ "idxs")) as [idxs|];
    [destruct (gathered_payload w !! (n +:+ "vals")) as [vals|] |].
  - destruct Hg as (g & Hdec & ->). cbn [fst snd data grad]. split; [done |].
    exists g. rewrite Hd. done.
  - rewrite Hg. cbn [fst snd data grad]. done.
  - rewrite Hg. cbn [fst snd data grad]. done.
Qed.

End UpdateModel.

(** * The log after the second [set_weights] *)

Section Unbound.
Variable Batch : Type.
Variable forward : Model -> Batch -> option Q.
Variable decode : string -> Tensor -> Tensor -> Tensor -> option Tensor.
Variable batch_decode : string -> Tensor -> list Tensor -> list Tensor -> option Tensor.
Variable lr_at : nat -> Q.

Lemma gathered_gradient_loop_outcome gsd l mom1 mom2 :
  fst (fst (gathered_gradient_loop batch_decode gsd l mom1))
  = fst (fst (gathered_gradient_loop batch_decode gsd l mom2)).
Proof.
  revert mom1 mom2. induction l as [|[n p] l IH]; intros mom1 mom2;
    cbn [gathered_gradient_loop]; [reflexivity |].
  destruct (gsd !! (n +:+ "idxs")) as [idxs|]; [destruct (gsd !! (n +:+ "vals")) as [vals|] |].
  - destruct (batch_decode n (data p) (as_list idxs) (as_list vals)) as [g|]; [| reflexivity].
    specialize (IH (<[n:=g]> mom1) (<[n:=g]> mom2)).
    destruct (gathered_gradient_loop batch_decode gsd l (<[n:=g]> mom1)) as [[e1 r1] m1].
    destruct (gathered_gradient_loop batch_decode gsd l (<[n:=g]> mom2)) as [[e2 r2] m2].
    exact IH.
  - specialize (IH mom1 mom2).
    destruct (gathered_gradient_loop batch_decode gsd l mom1) as [[e1 r1] m1].
    destruct (gathered_gradient_loop batch_decode gsd l mom2) as [[e2 r2] m2].
    exact IH.
  - specialize (IH mom1 mom2).
    destruct (gathered_gradient_loop batch_decode gsd l mom1) as [[e1 r1] m1].
    destruct (gathered_gradient_loop batch_decode gsd l mom2) as [[e2 r2] m2].
    exact IH.
Qed.

(** Whether the model update returns depends on the parameters and the
    gathered payload only. *)
Lemma update_model_outcome (w : Window Batch) (s : Validator) :
  fst (update_model Batch batch_decode lr_at w s)
  = outcome (fst (fst (gathered_gradient_loop batch_decode (gathered_payload w)
                         (named_parameters (zero_grad (model s))) ∅))).
Proof.
  unfold update_model, gathered_payload, bind, modify, ret.
  destruct (gather_result w) as [[gsd|]|].
  - unfold gathered_gradient.
    cbn [model momentum with_model training set_training zero_grad named_parameters].
    rewrite (gathered_gradient_loop_outcome gsd _ ∅ (momentum s)).
    destruct (gathered_gradient_loop batch_decode gsd _ (momentum s)) as [[e ps] mom].
    by destruct e.
  - by rewrite gathered_gradient_loop_empty.
  - by rewrite gathered_gradient_loop_empty.
Qed.

Lemma update_model_outcome_frame (w : Window Batch) (s t : Validator) :
  model t = model s ->
  fst (update_model Batch batch_decode lr_at w t)
  = fst (update_model Batch batch_decode lr_at w s).
Proof. intros H. by rewrite !update_model_outcome, H. Qed.

(** In a window in which weights are due, the steps after the scoring end
    in [UnboundLocalError] when no evaluation has bound the logged names. *)
Lemma after_scoring_unbound (w : Window Batch) (weights : Tensor) (t : Validator) :
  score_bound t = false ->
  checkpoint_frequency (hparams t) <> 0%Z ->
  windows_per_weights (hparams t) <> 0%Z ->
  (sync_window t mod windows_per_weights (hparams t) = 0)%Z ->
  fst (update_model Batch batch_decode lr_at w t) = Val tt ->
  exists t' rest,
    after_scoring Batch batch_decode lr_at w weights t = (Exn UnboundLocalError, t') /\
    emitted t' = SetWeights weights :: rest /\
    global_step t' = global_step t /\
    moving_avg_scores t' = moving_avg_scores t /\
    evaluated_uids t' = evaluated_uids t /\
    binary_moving_averages t' = binary_moving_averages t.
Proof.
  intros Hsb Hcf Hww Hdue Hup.
  apply Z.eqb_neq in Hcf. apply Z.eqb_neq in Hww.
  assert (Hck : exists t1, create_checkpoint t = (Val tt, t1) /\
            (exists ev, t1 = with_emitted ev t)).
  { unfold create_checkpoint, bind, get, divides_step. rewrite Hcf. unfold ret.
    destruct (Z.eqb (_ mod _) 0).
    - unfold emit, modify. eexists. split; [reflexivity |]. by eexists.
    - exists t. split; [reflexivity |]. exists (emitted t). by destruct t. }
  destruct Hck as (t1 & Hck & ev & Ht1).
  assert (Hup1 : fst (update_model Batch batch_decode lr_at w t1) = Val tt).
  { rewrite (update_model_outcome_frame w t t1); [exact Hup | by rewrite Ht1]. }
  destruct (update_model Batch batch_decode lr_at w t1) as [r1 t2] eqn:Eup.
  simpl in Hup1. subst r1.
  destruct (update_model_returns Batch batch_decode lr_at w t1 t2 Eup) as (ps & mom & _ & Ht2).
  unfold after_scoring, bind. rewrite Hck, Eup.
  unfold set_weights_periodically, bind, get, divides_step.
  assert (E1 : windows_per_weights (hparams t2) = windows_per_weights (hparams t))
    by (by rewrite Ht2, Ht1).
  assert (E2 : sync_window t2 = sync_window t) by (by rewrite Ht2, Ht1).
  rewrite E1, E2, Hww, Hdue. unfold ret, emit, modify. cbn [Z.eqb andb].
  assert (E3 : score_bound t2 = false) by (by rewrite Ht2, Ht1).
  cbn [score_bound with_emitted]. rewrite E3. cbn [negb raise].
  eexists _, _. split; [reflexivity |].
  cbn [emitted global_step moving_avg_scores evaluated_uids binary_moving_averages with_emitted].
  split; [reflexivity |]. rewrite Ht2, Ht1. repeat split; reflexivity.
Qed.

End Unbound.

(** * What a checkpoint holds *)

Lemma hoare_conj {A : Type} (P1 P2 : Validator -> Prop) (m : M A)
    (Q1 Q2 : A -> Validator -> Prop) (E1 E2 : exn -> Validator -> Prop) :
  hoare P1 m Q1 E1 -> hoare P2 m Q2 E2 ->
  hoare (fun s => P1 s /\ P2 s) m (fun a s => Q1 a s /\ Q2 a s) (fun e s => E1 e s /\ E2 e s).
Proof.
  intros H1 H2 s [Hs1 Hs2]. specialize (H1 s Hs1). specialize (H2 s Hs2).
  destruct (m s) as [[a|e] s']; by split.
Qed.

Lemma preserves_set_weights_periodically (I : Validator -> Prop) (weights : Tensor) :
  (forall t, I t -> I (with_emitted (SetWeights weights :: emitted t) t)) ->
  preserves I (set_weights_periodically weights).
Proof.
  intros HI. unfold set_weights_periodically.
  apply preserves_bind; [apply preserves_get | intros s].
  apply preserves_bind; [apply blind_divides_step | intros due].
  apply preserves_bind; [| intros _; apply preserves_ret].
  destruct due; [| apply preserves_ret].
  unfold emit. apply preserves_modify. exact HI.
Qed.

Section Checkpoint.
Variable Batch : Type.
Variable forward : Model -> Batch -> option Q.
Variable decode : string -> Tensor -> Tensor -> Tensor -> option Tensor.
Variable batch_decode : string -> Tensor -> list Tensor -> list Tensor -> option Tensor.
Variable lr_at : nat -> Q.

(** The model update writes the model, the momentum, the optimizer and the
    scheduler only. *)
Lemma learner_only_update_model (I : Validator -> Prop) (w : Window Batch) :
  (forall s x, I s -> I (with_model x s)) ->
  (forall s x, I s -> I (with_momentum x s)) ->
  (forall s x, I s -> I (with_optimizer x s)) ->
  (forall s x, I s -> I (with_scheduler x s)) ->
  preserves I (update_model Batch batch_decode lr_at w).
Proof.
  intros Hm Hmo Ho Hs. unfold update_model.
  apply preserves_bind; [apply preserves_modify; intros; by apply Hm | intros _].
  apply preserves_bind; [apply preserves_modify; intros; by apply Hm | intros _].
  apply preserves_bind; [| intros _].
  { destruct (gather_result w) as [[gsd|]|]; try apply preserves_ret.
    intros s Hs0. unfold gathered_gradient.
    destruct (gathered_gradient_loop _ _ _ _) as [[e ps] mom]. simpl.
    by apply Hmo, Hm. }
  apply preserves_bind; [apply preserves_modify; intros; by apply Hm | intros _].
  apply preserves_modify. intros s Hs0. unfold scheduler_step. by apply Hs, Ho.
Qed.

Variable s0 : Validator.

Lemma checkpoints_from_set_weights weights t :
  (checkpoints_from s0) t -> (checkpoints_from s0) (with_emitted (SetWeights weights :: emitted t) t).
Proof.
  intros H c Hc. cbn [emitted with_emitted] in Hc.
  apply elem_of_cons in Hc as [Hc | Hc]; [discriminate | by apply H].
Qed.

Lemma checkpoint_score_peer (w : Window Batch) (u : nat) :
  NoDup (param_names (model s0)) ->
  hoare (checkpoint_ready s0) (score_peer Batch forward decode w u) (fun _ => (checkpoint_ready s0)) (fun _ => (checkpoints_from s0)).
Proof.
  intros Hnd.
  assert (Hmiss : hoare (checkpoint_ready s0) (missing_submission u) (fun _ => (checkpoint_ready s0)) (fun _ => (checkpoints_from s0))).
  { eapply hoare_conseq;
      [apply hoare_preserves, (preserves_missing_submission_model (checkpoint_ready s0)) | auto | auto |].
    - intros s x H. exact H.
    - intros s x H. exact H.
    - intros e s H. apply H. }
  unfold score_peer. destruct (eval_result w) as [[sd|]|]; try exact Hmiss.
  apply (hoare_bind _ _ _ (fun _ => (checkpoint_ready s0))).
  { eapply hoare_conseq.
    - apply (hoare_conj (fun t => checkpoint_fields_kept s0 t /\ (checkpoints_from s0) t) (fun t : Validator => state_dict (model t) = state_dict (model s0))).
      + apply hoare_preserves, (model_only_evaluate Batch forward decode (fun t => checkpoint_fields_kept s0 t /\ (checkpoints_from s0) t)).
        intros s x H. exact H.
      + apply (evaluate_restores Batch forward decode w sd (state_dict (model s0))).
        by rewrite state_dict_names.
    - auto.
    - auto.
    - intros e s [[_ H] _]. exact H. }
  intros l.
  apply (hoare_bind _ _ _ (fun _ => (checkpoint_ready s0))); [apply hoare_modify; intros s H; exact H | intros _].
  apply (hoare_bind _ _ _ (fun _ => (checkpoint_ready s0))).
  { eapply hoare_conseq;
      [apply hoare_preserves, (preserves_update_scores_model (checkpoint_ready s0)) | auto | auto |].
    - intros s x H. exact H.
    - intros s x H. exact H.
    - intros s x H. exact H.
    - intros e s H. apply H. }
  intros weights.
  apply (hoare_bind _ _ _ (fun _ => (checkpoint_ready s0))).
  { eapply hoare_conseq;
      [apply hoare_preserves, (preserves_set_weights_periodically (checkpoint_ready s0) weights) | auto | auto |].
    - intros t [[HF HK] HM]. split; [split |]; [exact HF | by apply checkpoints_from_set_weights | exact HM].
    - intros e s H. apply H. }
  intros _. apply hoare_ret. auto.
Qed.

Lemma checkpoint_create_checkpoint :
  hoare (checkpoint_ready s0) create_checkpoint (fun _ => (checkpoints_from s0)) (fun _ => (checkpoints_from s0)).
Proof.
  unfold create_checkpoint.
  apply (hoare_bind _ _ _ (fun a t => (checkpoint_ready s0) a /\ t = a)); [by apply hoare_get |].
  intros a. apply (hoare_bind _ _ _ (fun _ t => (checkpoint_ready s0) a /\ t = a)).
  { unfold divides_step. destruct (Z.eqb _ 0).
    - apply hoare_raise. intros s [H ->]. apply H.
    - apply hoare_ret. auto. }
  intros due. destruct due.
  - unfold emit. apply hoare_modify. intros s [[[HF HK] HM] ->] c Hc.
    cbn [emitted with_emitted] in Hc. apply elem_of_cons in Hc as [Hc | Hc]; [| by apply HK].
    right. injection Hc as ->. unfold checkpoint_of. cbn.
    destruct HF as (H1 & H2 & H3 & H4 & H5 & H6). done.
  - apply hoare_ret. intros s [H ->]. apply H.
Qed.

Lemma checkpoint_after_scoring (w : Window Batch) (weights : Tensor) :
  hoare (checkpoint_ready s0) (after_scoring Batch batch_decode lr_at w weights) (fun _ => (checkpoints_from s0)) (fun _ => (checkpoints_from s0)).
Proof.
  unfold after_scoring.
  apply (hoare_bind _ _ _ (fun _ => (checkpoints_from s0))); [apply checkpoint_create_checkpoint | intros _].
  apply hoare_preserves.
  apply preserves_bind; [| intros _].
  { apply learner_only_update_model; intros s x H; exact H. }
  apply preserves_bind; [| intros due].
  { apply preserves_set_weights_periodically. intros t. apply checkpoints_from_set_weights. }
  apply preserves_bind; [apply preserves_get | intros s].
  apply preserves_bind; [| intros _].
  { destruct (due && negb (score_bound s)); [apply preserves_raise | apply preserves_ret]. }
  apply preserves_modify. intros t H. exact H.
Qed.

Lemma checkpoint_try_body (w : Window Batch) (u : nat) :
  NoDup (param_names (model s0)) ->
  checkpoints_from s0 (snd (try_body Batch forward decode batch_decode lr_at w u s0)).
Proof.
  intros Hnd.
  assert (H : hoare (checkpoint_ready s0) (try_body Batch forward decode batch_decode lr_at w u)
                (fun _ => (checkpoints_from s0)) (fun _ => (checkpoints_from s0))).
  { unfold try_body. apply (hoare_bind _ _ _ (fun _ => (checkpoint_ready s0))).
    - by apply checkpoint_score_peer.
    - intros weights. apply checkpoint_after_scoring. }
  assert (HJ : (checkpoint_ready s0) s0).
  { split; [split |]; [unfold checkpoint_fields_kept; tauto | | reflexivity]. intros c Hc. by left. }
  specialize (H s0 HJ). destruct (try_body _ _ _ _ _ _ _ _) as [[a|e] s']; exact H.
Qed.

End Checkpoint.

(** * The window clock and the start-up *)




Lemma index_Some (x : string) (l : list string) (i : nat) :
  index x l = Some i ->
  l !! i = Some x /\ forall j, (j < i)%nat -> l !! j <> Some x.
Proof.
  unfold index. destruct (list_find _ l) as [[i' y]|] eqn:E; [| discriminate].
  intros [= <-]. apply list_find_Some in E as (Hl & -> & Hj).
  split; [exact Hl |]. intros j Hlt Hjx. by apply (Hj j x).
Qed.

Lemma load_peers_self (uid : nat) (config_peers comms_peers : list nat) :
  uid ∈ load_peers uid config_peers comms_peers.
Proof.
  unfold load_peers. case_bool_decide as H; [exact H |].
  apply elem_of_app. right. left.
Qed.

Lemma init_Started hp hotkey hotkeys n block m o sch s0 :
  init hp hotkey hotkeys n block m o sch = Started s0 ->
  exists i window,
    index hotkey hotkeys = Some i /\
    window_of block (blocks_per_window hp) = Val window /\
    s0 = mkValidator i hp m o sch (zero_momentum m) window window 0 window
           (replicate n 0) ∅ [] [] ∅ ∅ false [].
Proof.
  unfold init. case_bool_decide; [| discriminate].
  destruct (index hotkey hotkeys) as [i|]; [| discriminate].
  destruct (window_of block (blocks_per_window hp)) as [window|e]; [| discriminate].
  intros [= <-]. by exists i, window.
Qed.

Lemma start_up_reputation config_peers comms_peers highest fetched c s :
  let s1 := start_up config_peers comms_peers highest fetched c s in
  uid s1 = uid s /\ hparams s1 = hparams s /\
  moving_avg_scores s1 = moving_avg_scores s /\
  evaluated_uids s1 = evaluated_uids s /\
  inactive_scores s1 = inactive_scores s /\
  binary_moving_averages s1 = binary_moving_averages s /\
  sync_window s1 = sync_window s /\ current_window s1 = current_window s /\
  peers s1 = load_peers (uid s) config_peers comms_peers.
Proof.
  unfold start_up. destruct highest, (loaded c) as [[[[? ?] ?] ?]|]; cbn; repeat split.
Qed.

(** * The clean-up script *)

Lemma string_append_cons (a : Ascii.ascii) (s t : string) : String a s +:+ t = String a (s +:+ t).
Proof. reflexivity. Qed.

Lemma string_append_assoc (s t u : string) : (s +:+ t) +:+ u = s +:+ t +:+ u.
Proof.
  induction s as [|a s IH]; [reflexivity |]. by rewrite !string_append_cons, IH.
Qed.

Lemma string_prefix_nil (s : string) : String.prefix "" s = true.
Proof. by destruct s. Qed.

Lemma string_prefix_cons (a b : Ascii.ascii) (p s : string) :
  String.prefix (String a p) (String b s) = if Ascii.ascii_dec a b then String.prefix p s else false.
Proof. reflexivity. Qed.

Lemma string_prefix_append (p suf : string) : String.prefix p (p +:+ suf) = true.
Proof.
  induction p as [|a p IH]; [apply string_prefix_nil |].
  rewrite string_append_cons, string_prefix_cons. by destruct (Ascii.ascii_dec a a).
Qed.

Lemma string_prefix_inv (p s : string) :
  String.prefix p s = true -> exists suf, s = p +:+ suf.
Proof.
  revert s. induction p as [|a p IH]; intros s H; [by exists s |].
  destruct s as [|b s]; [discriminate |]. rewrite string_prefix_cons in H.
  destruct (Ascii.ascii_dec a b) as [-> |]; [| discriminate].
  destruct (IH s H) as [suf ->]. by exists suf.
Qed.

Lemma contains_unfold (pat s : string) :
  CleanVersions.contains pat s
  = String.prefix pat s ||
    match s with
    | EmptyString => false
    | String _ s' => CleanVersions.contains pat s'
    end.
Proof. by destruct s. Qed.

Lemma contains_intro (pat pre suf : string) :
  CleanVersions.contains pat (pre +:+ pat +:+ suf) = true.
Proof.
  induction pre as [|a pre IH]; rewrite contains_unfold.
  - change ("" +:+ pat +:+ suf)%string with (pat +:+ suf). by rewrite string_prefix_append.
  - rewrite string_append_cons, IH. apply orb_true_r.
Qed.

Lemma contains_inv (pat s : string) :
  CleanVersions.contains pat s = true -> exists pre suf, s = pre +:+ pat +:+ suf.
Proof.
  induction s as [|a s IH]; rewrite contains_unfold; intros H;
    apply orb_true_iff in H as [H | H]; try discriminate.
  - apply string_prefix_inv in H as [suf ->]. by exists ""%string, suf.
  - apply string_prefix_inv in H as [suf ->]. by exists ""%string, suf.
  - destruct (IH H) as (pre & suf & ->). by exists (String a pre), suf.
Qed.

Lemma contains_shorter (pat ext s : string) :
  CleanVersions.contains (pat +:+ ext) s = true -> CleanVersions.contains pat s = true.
Proof.
  intros H. apply contains_inv in H as (pre & suf & ->).
  rewrite string_append_assoc. apply contains_intro.
Qed.

Lemma chunks_concat {A : Type} (l : list A) (b m : nat) :
  concat (map (fun i => take b (drop i l)) (map (fun k => (k * b)%nat) (seq 0 m)))
  = take (m * b) l.
Proof.
  induction m as [|m IH]; [reflexivity |].
  rewrite seq_S, !map_app, concat_app, IH. cbn [map concat plus].
  rewrite app_nil_r, take_take_drop. f_equal. lia.
Qed.

Lemma ceil_covers (n b : nat) : (0 < b)%nat -> (n <= (n + b - 1) / b * b)%nat.
Proof.
  intros Hb. pose proof (Nat.div_mod_eq (n + b - 1) b) as H1.
  pose proof (Nat.mod_upper_bound (n + b - 1) b ltac:(lia)) as H2. nia.
Qed.

Lemma ceil_tight (n b k : nat) :
  (0 < b)%nat -> (k < (n + b - 1) / b)%nat -> (k * b < n)%nat.
Proof.
  intros Hb Hk. pose proof (Nat.Div0.mul_div_le (n + b - 1) b) as H1. nia.
Qed.

Lemma batches_concat (b : nat) (l : list string) :
  (0 < b)%nat -> concat (CleanVersions.batches b l) = l.
Proof.
  intros Hb. unfold CleanVersions.batches, CleanVersions.range_step.
  rewrite chunks_concat. apply take_ge. by apply ceil_covers.
Qed.

Lemma batches_sizes (b : nat) (l : list string) :
  (0 < b)%nat ->
  Forall (fun batch => (1 <= length batch <= b)%nat) (CleanVersions.batches b l).
Proof.
  intros Hb. unfold CleanVersions.batches, CleanVersions.range_step.
  rewrite map_map. apply Forall_fmap, Forall_forall. intros k Hk.
  apply elem_of_seq in Hk as [_ Hk]. cbn [plus] in Hk.
  apply (ceil_tight _ _ _ Hb) in Hk. cbn.
  rewrite length_take, length_drop. lia.
Qed.

Lemma delete_loop_prefix (delete_objects : list string -> bool) (bs : list (list string)) :
  (CleanVersions.delete_loop delete_objects bs).2 `prefix_of` bs /\
  ((CleanVersions.delete_loop delete_objects bs).1 = CleanVersions.Returned ->
   (CleanVersions.delete_loop delete_objects bs).2 = bs).
Proof.
  induction bs as [|b bs [IH1 IH2]]; cbn [CleanVersions.delete_loop]; [done |].
  destruct (delete_objects b).
  - destruct (CleanVersions.delete_loop delete_objects bs) as [o calls]. cbn in *. split.
    + by apply prefix_cons.
    + intros Ho. by rewrite IH2.
  - cbn. split; [| discriminate]. exists bs. reflexivity.
Qed.

Lemma delete_loop_answered (delete_objects : list string -> bool) (bs : list (list string)) :
  (forall b, delete_objects b = true) ->
  CleanVersions.delete_loop delete_objects bs = (CleanVersions.Returned, bs).
Proof.
  intros H. induction bs as [|b bs IH]; cbn [CleanVersions.delete_loop]; [done |].
  by rewrite H, IH.
Qed.

Lemma objects_to_delete_listed (pat : string) (pages : list (option (list string)))
    (key : string) :
  key ∈ CleanVersions.objects_to_delete pat pages <->
  CleanVersions.selected pat key = true /\
  exists contents, Some contents ∈ pages /\ key ∈ contents.
Proof.
  unfold CleanVersions.objects_to_delete. induction pages as [|page pages IH]; cbn [map concat].
  - split; [intros H; by apply elem_of_nil in H |].
    intros (_ & c & H & _). by apply elem_of_nil in H.
  - rewrite elem_of_app, IH. split.
    + intros [H | (Hs & c & Hc & Hk)].
      * destruct page as [contents|]; [| by apply elem_of_nil in H].
        apply list_elem_of_In, filter_In in H as [Hin Hs].
        split; [exact Hs |]. exists contents. split; [left | by apply list_elem_of_In].
      * split; [exact Hs |]. exists c. split; [by right | exact Hk].
    + intros (Hs & c & Hc & Hk). apply elem_of_cons in Hc as [<- | Hc].
      * left. apply list_elem_of_In, filter_In. split; [by apply list_elem_of_In | exact Hs].
      * right. split; [exact Hs |]. by exists c.
Qed.

Lemma missing_vars_none (environ : gmap string string) :
  (forall var, var ∈ CleanVersions.required_vars ->
     exists a v, environ !! var = Some (String a v)) ->
  CleanVersions.missing_vars environ = [].
Proof.
  intros H.
  assert (Hu : forall var, var ∈ CleanVersions.required_vars ->
                 CleanVersions.unset environ var = false).
  { intros var Hin. destruct (H var Hin) as (a & v & E).
    unfold CleanVersions.unset. by rewrite E. }
  unfold CleanVersions.missing_vars, CleanVersions.required_vars in *.
  cbn [List.filter].
  rewrite !Hu; [reflexivity | | |].
  - right. right. left.
  - right. left.
  - left.
Qed.

Lemma elem_of_concat_2 {A : Type} (x : A) (l : list A) (ls : list (list A)) :
  x ∈ l -> l ∈ ls -> x ∈ concat ls.
Proof.
  intros Hx Hl. apply list_elem_of_In, in_concat. exists l.
  split; by apply list_elem_of_In.
Qed.

(** * The two [set_weights] calls of a window *)

Lemma preserves_create_checkpoint (I : Validator -> Prop) :
  (forall t c, I t -> I (with_emitted (PutCheckpoint c :: emitted t) t)) ->
  preserves I create_checkpoint.
Proof.
  intros HI. unfold create_checkpoint.
  apply preserves_bind; [apply preserves_get | intros s].
  apply preserves_bind; [apply blind_divides_step | intros due].
  destruct due; [| apply preserves_ret].
  unfold emit. apply preserves_modify. intros t. apply HI.
Qed.

Lemma set_weights_periodically_sends (s0 : Validator) (scored : bool)
    (weights : Tensor) (sent : list Tensor) :
  hoare (weights_pending s0 scored weights sent)
    (set_weights_periodically weights)
    (fun _ => weights_pending s0 scored weights
                ((if weights_due s0 then [weights] else []) ++ sent))
    (fun _ _ => True).
Proof.
  intros t (Hsw & Hhp & Hw & Hs).
  unfold set_weights_periodically, bind, get, divides_step. rewrite Hsw, Hhp.
  destruct (Z.eqb (windows_per_weights (hparams s0)) 0); [exact I |].
  unfold ret, weights_due.
  destruct (Z.eqb (sync_window s0 mod windows_per_weights (hparams s0)) 0).
  - unfold emit, modify.
    split; [exact Hsw |]. split; [exact Hhp |]. split; [exact Hw |].
    cbn [emitted with_emitted app]. rewrite <- Hs. reflexivity.
  - split; [exact Hsw |]. split; [exact Hhp |]. split; [exact Hw | exact Hs].
Qed.

Lemma update_scores_weights (s0 : Validator) (sent : list Tensor) (u : nat) (l : Losses) :
  hoare (fun t => sync_window t = sync_window s0 /\ hparams t = hparams s0 /\
                  sent_weights (emitted t) = sent)
    (update_scores u l)
    (fun weights => weights_pending s0 true weights sent)
    (fun _ _ => True).
Proof.
  intros t (Hsw & Hhp & Hs).
  unfold update_scores, bind, get, modify, lift, item.
  destruct (moving_avg_scores t !! u) as [old|]; [| exact I]. cbn.
  destruct (evaluated_mask_ok _ _); [| exact I].
  split; [exact Hsw |]. split; [exact Hhp |]. split; [reflexivity | exact Hs].
Qed.

Lemma missing_submission_weights (s0 : Validator) (sent : list Tensor) (u : nat) :
  hoare (fun t => sync_window t = sync_window s0 /\ hparams t = hparams s0 /\
                  sent_weights (emitted t) = sent)
    (missing_submission u)
    (fun weights => weights_pending s0 false weights sent)
    (fun _ _ => True).
Proof.
  intros t (Hsw & Hhp & Hs).
  unfold missing_submission, bind, get, modify, lift, item.
  destruct (moving_avg_scores t !! u) as [old|]; [| exact I]. cbn.
  destruct (evaluated_mask_ok _ _); [| exact I].
  split; [exact Hsw |]. split; [exact Hhp |]. split; [reflexivity | exact Hs].
Qed.

Section SetWeights.
Variable Batch : Type.
Variable forward : Model -> Batch -> option Q.
Variable decode : string -> Tensor -> Tensor -> Tensor -> option Tensor.
Variable batch_decode : string -> Tensor -> list Tensor -> list Tensor -> option Tensor.
Variable lr_at : nat -> Q.

Lemma score_peer_sends (s0 : Validator) (w : Window Batch) (u : nat) :
  hoare (fun t => sync_window t = sync_window s0 /\ hparams t = hparams s0 /\
                  sent_weights (emitted t) = sent_weights (emitted s0))
    (score_peer Batch forward decode w u)
    (fun weights =>
       weights_pending s0 (has_submission w) weights
         ((if weights_due s0 && has_submission w then [weights] else [])
            ++ sent_weights (emitted s0)))
    (fun _ _ => True).
Proof.
  set (P := fun t => sync_window t = sync_window s0 /\ hparams t = hparams s0 /\
                     sent_weights (emitted t) = sent_weights (emitted s0)).
  unfold score_peer, has_submission.
  destruct (eval_result w) as [[sd|]|];
    try (rewrite andb_false_r; apply missing_submission_weights).
  rewrite andb_true_r.
  apply (hoare_bind _ _ _ (fun _ => P)).
  { apply (hoare_conseq P P _ (fun _ => P) (fun _ => P) _ (fun _ => P));
      [apply hoare_preserves, (model_only_evaluate Batch forward decode P) | auto ..].
    intros t x H. exact H. }
  intros l.
  apply (hoare_bind _ _ _ (fun _ => P)); [apply hoare_modify; intros t H; exact H | intros _].
  apply (hoare_bind _ _ _ (fun weights =>
           weights_pending s0 true weights (sent_weights (emitted s0))));
    [apply update_scores_weights | intros weights].
  apply (hoare_bind _ _ _ (fun _ =>
           weights_pending s0 true weights
             ((if weights_due s0 then [weights] else []) ++ sent_weights (emitted s0))));
    [apply set_weights_periodically_sends | intros _].
  apply hoare_ret. auto.
Qed.

Lemma after_scoring_sends (s0 : Validator) (w : Window Batch) (scored : bool)
    (weights : Tensor) (sent : list Tensor) :
  hoare (weights_pending s0 scored weights sent)
    (after_scoring Batch batch_decode lr_at w weights)
    (fun _ => weights_pending s0 scored weights
                ((if weights_due s0 then [weights] else []) ++ sent))
    (fun _ _ => True).
Proof.
  set (P := weights_pending s0 scored weights sent).
  set (P' := weights_pending s0 scored weights
               ((if weights_due s0 then [weights] else []) ++ sent)).
  assert (Hfr : forall A (m : M A), preserves P m -> hoare P m (fun _ => P) (fun _ _ => True)).
  { intros A m H. apply (hoare_conseq P P m (fun _ => P) (fun _ => P) _ (fun _ => P));
      [by apply hoare_preserves | auto ..]. }
  unfold after_scoring.
  apply (hoare_bind _ _ _ (fun _ => P)).
  { apply Hfr, preserves_create_checkpoint. intros t c H. exact H. }
  intros _.
  apply (hoare_bind _ _ _ (fun _ => P)).
  { apply Hfr, learner_only_update_model; intros t x H; exact H. }
  intros _.
  apply (hoare_bind _ _ _ (fun _ => P')); [apply set_weights_periodically_sends | intros due].
  apply (hoare_bind _ _ _ (fun _ => P')); [apply hoare_get; auto | intros t].
  apply (hoare_bind _ _ _ (fun _ => P')).
  { destruct (due && negb (score_bound t)); [by apply hoare_raise | by apply hoare_ret]. }
  intros _. apply hoare_modify. intros t' H. exact H.
Qed.

Lemma try_body_sends (s0 : Validator) (w : Window Batch) (u : nat) :
  hoare (fun t => t = s0)
    (try_body Batch forward decode batch_decode lr_at w u)
    (fun _ t =>
       sent_weights (emitted t)
       = (if weights_due s0
          then replicate (if has_submission w then 2 else 1) (weights_of (has_submission w) t)
          else []) ++ sent_weights (emitted s0))
    (fun _ _ => True).
Proof.
  unfold try_body.
  apply (hoare_bind _ _ _ (fun weights =>
           weights_pending s0 (has_submission w) weights
             ((if weights_due s0 && has_submission w then [weights] else [])
                ++ sent_weights (emitted s0)))).
  - intros t ->. by apply (score_peer_sends s0 w u s0).
  - intros weights t Ht.
    pose proof (after_scoring_sends s0 w _ weights _ t Ht) as H.
    destruct (after_scoring Batch batch_decode lr_at w weights t) as [[a|e] t']; [| exact I].
    destruct H as (_ & _ & Hw & Hs). rewrite Hs, Hw.
    destruct (weights_due s0), (has_submission w); reflexivity.
Qed.

End SetWeights.

(** * Further properties of the code *)


(** X2.  A peer that was never evaluated, or whose score is not positive,
    receives the weight 0 at both places where the weights are recomputed. *)
Theorem unmasked_peer_has_zero_weight (scores : Tensor) (evaluated : gset nat)
    (power : nat) (p : nat) (x : Q) :
  scores !! p = Some x ->
  p ∉ evaluated \/ x <= 0 ->
  weights_after_evaluation scores evaluated !! p = Some 0 /\
  weights_after_missing scores evaluated power !! p = Some 0.
Proof.
  intros Hx Hout.
  assert (E : is_positive x && bool_decide (p ∈ evaluated) = false).
  { destruct Hout as [Hp | Hle].
    - rewrite (bool_decide_eq_false_2 _ Hp). apply andb_false_r.
    - destruct (is_positive x) eqn:Ex; [| done].
      apply is_positive_true in Ex. exfalso. apply (Qlt_not_le _ _ Ex), Hle. }
  rewrite (weights_after_evaluation_entry _ _ _ _ Hx),
          (weights_after_missing_entry _ _ _ _ _ Hx), E.
  split; reflexivity.
Qed.

(** A positive score of a peer that was never evaluated, and a zero score of
    an evaluated one. *)
Lemma unmasked_peer_has_zero_weight_witness :
  let scores := [2 # 5; 0; 1 # 5] in
  let evaluated : gset nat := {[ 0%nat; 1%nat ]} in
  (scores !! 2%nat = Some (1 # 5) /\ 2%nat ∉ evaluated) /\
  weights_after_evaluation scores evaluated !! 2%nat = Some 0 /\
  weights_after_missing scores evaluated 2 !! 2%nat = Some 0 /\
  weights_after_evaluation scores evaluated !! 1%nat = Some 0.
Proof.
  intros scores evaluated.
  assert (Hx : scores !! 2%nat = Some (1 # 5)) by reflexivity.
  assert (Hp : 2%nat ∉ evaluated).
  { intros H. apply elem_of_union in H as [H | H]; apply elem_of_singleton in H; discriminate. }
  destruct (unmasked_peer_has_zero_weight scores evaluated 2 2 (1 # 5) Hx (or_introl Hp))
    as [H1 H2].
  assert (H0 : (0 : Q) <= 0) by apply Qle_refl.
  destruct (unmasked_peer_has_zero_weight scores evaluated 2 1 0 eq_refl (or_intror H0))
    as [H3 _].
  split; [split; assumption |]. split; [exact H1 |]. split; [exact H2 | exact H3].
Defined.

(** X3.  Both normalisations keep the order of the scores: of two evaluated
    peers with positive scores, the one with the larger score never has the
    smaller weight. *)
Theorem weights_keep_order (scores : Tensor) (evaluated : gset nat) (power : nat)
    (p q : nat) (x y : Q) :
  scores !! p = Some x -> scores !! q = Some y ->
  p ∈ evaluated -> q ∈ evaluated ->
  0 < x -> x <= y ->
  (exists wp wq,
     weights_after_evaluation scores evaluated !! p = Some wp /\
     weights_after_evaluation scores evaluated !! q = Some wq /\ wp <= wq) /\
  (exists wp wq,
     weights_after_missing scores evaluated power !! p = Some wp /\
     weights_after_missing scores evaluated power !! q = Some wq /\ wp <= wq).
Proof.
  intros Hx Hy Hp Hq Hpos Hxy.
  assert (Ex : is_positive x && bool_decide (p ∈ evaluated) = true).
  { rewrite (proj2 (is_positive_true x) Hpos), bool_decide_eq_true_2 by done. done. }
  assert (Hypos : 0 < y) by lra.
  assert (Ey : is_positive y && bool_decide (q ∈ evaluated) = true).
  { rewrite (proj2 (is_positive_true y) Hypos), bool_decide_eq_true_2 by done. done. }
  assert (Hin : x ∈ masked_select scores (positive_mask scores evaluated))
    by (by apply masked_select_imap_elem with p).
  split.
  - eexists. eexists.
    split; [apply (weights_after_evaluation_entry _ _ _ _ Hx) |].
    split; [apply (weights_after_evaluation_entry _ _ _ _ Hy) |].
    rewrite Ex, Ey. apply Qdiv_le_mono; [exact Hxy |].
    assert (x <= tensor_sum (masked_select scores (positive_mask scores evaluated))).
    { apply tensor_sum_ge_elem; [| exact Hin].
      eapply Forall_impl; [apply selected_positive |]. intros z Hz. simpl in *. lra. }
    lra.
  - eexists. eexists.
    split; [apply (weights_after_missing_entry _ _ _ _ _ Hx) |].
    split; [apply (weights_after_missing_entry _ _ _ _ _ Hy) |].
    rewrite Ex, Ey.
    destruct (Qlt_le_dec epsilon_default (powered_sum scores evaluated power)) as [He|He];
      [| lra].
    apply Qdiv_le_mono; [by apply Qpower_nat_le |].
    unfold epsilon_default in He. lra.
Qed.

(** Scores 0.2 and 0.4 of two evaluated peers. *)
Lemma weights_keep_order_witness :
  let scores := [2 # 5; 0; 1 # 5] in
  let evaluated : gset nat := {[ 0%nat; 1%nat; 2%nat ]} in
  (exists wp wq,
     weights_after_evaluation scores evaluated !! 2%nat = Some wp /\
     weights_after_evaluation scores evaluated !! 0%nat = Some wq /\ wp <= wq) /\
  (exists wp wq,
     weights_after_missing scores evaluated 2 !! 2%nat = Some wp /\
     weights_after_missing scores evaluated 2 !! 0%nat = Some wq /\ wp <= wq).
Proof.
  intros scores evaluated.
  apply (weights_keep_order scores evaluated 2 2 0 (1 # 5) (2 # 5)).
  - reflexivity.
  - reflexivity.
  - apply elem_of_union_r, elem_of_singleton. reflexivity.
  - apply elem_of_union_l, elem_of_union_l, elem_of_singleton. reflexivity.
  - reflexivity.
  - discriminate.
Defined.

(** X4.  With the exponent 1 the power normalisation of the
    missing-submission path gives the very weights of the path after a
    successful evaluation, as long as the sum of the masked scores exceeds
    [epsilon] whenever the mask is not empty. *)
Theorem power_one_is_plain_normalisation (scores : Tensor) (evaluated : gset nat) :
  (some_evaluated_positive scores evaluated ->
   epsilon_default < powered_sum scores evaluated 1) ->
  weights_after_missing scores evaluated 1 = weights_after_evaluation scores evaluated.
Proof.
  intros H. unfold weights_after_missing, weights_after_evaluation.
  destruct (any (positive_mask scores evaluated)) eqn:Hany; [| reflexivity].
  apply any_positive_mask in Hany. specialize (H Hany). unfold powered_sum in H.
  unfold min_power_normalization.
  assert (Hid : map (fun x : Q => x ^ Z.of_nat 1)
                  (masked_select scores (positive_mask scores evaluated))
                = masked_select scores (positive_mask scores evaluated)).
  { apply map_id. }
  rewrite Hid in *.
  destruct (Qlt_le_dec epsilon_default _) as [He|He]; [reflexivity |].
  exfalso. apply (Qlt_not_le _ _ H), He.
Qed.

(** Scores 0.4, 0 and 0.2, all evaluated. *)
Lemma power_one_is_plain_normalisation_witness :
  let scores := [2 # 5; 0; 1 # 5] in
  let evaluated : gset nat := {[ 0%nat; 1%nat; 2%nat ]} in
  weights_after_missing scores evaluated 1 = weights_after_evaluation scores evaluated.
Proof.
  intros scores evaluated.
  apply (power_one_is_plain_normalisation scores evaluated).
  intros _. reflexivity.
Defined.

(** X5.  An iteration that does not catch up adds one to [sync_window]
    whatever its outcome, and adds one to [global_step] exactly when it
    completes (through the early exit on an empty eval list or through the
    whole body); when it raises, [global_step] is unchanged.  Hence a run of
    [k] completed windows advances both counters by [k]. *)
Theorem counters_advance_per_completed_window (Batch : Type)
    (forward : Model -> Batch -> option Q)
    (decode : string -> Tensor -> Tensor -> Tensor -> option Tensor)
    (batch_decode : string -> Tensor -> list Tensor -> list Tensor -> option Tensor)
    (lr_at : nat -> Q) :
  (forall (w : Window Batch) s,
     catch_up w = None ->
     let r := iteration Batch forward decode batch_decode lr_at w s in
     sync_window (snd r) = (sync_window s + 1)%Z /\
     match fst r with
     | Val _ => global_step (snd r) = (global_step s + 1)%Z
     | Exn _ => global_step (snd r) = global_step s
     end) /\
  (forall (ws : list (Window Batch)) s s',
     Forall (fun w => catch_up w = None) ws ->
     run Batch forward decode batch_decode lr_at ws s = (Val tt, s') ->
     global_step s' = (global_step s + Z.of_nat (length ws))%Z /\
     sync_window s' = (sync_window s + Z.of_nat (length ws))%Z).
Proof.
  split; [intros w s Hc; by apply iteration_counts |].
  intros ws. induction ws as [|w ws IH]; intros s s' Hws E.
  - injection E as <-. simpl. lia.
  - apply Forall_cons in Hws as [Hc Hws].
    apply run_cons in E as (s1 & E1 & E2).
    pose proof (iteration_counts Batch forward decode batch_decode lr_at w s Hc) as [Hs Hg].
    rewrite E1 in Hs, Hg. simpl in Hs, Hg.
    destruct (IH s1 s' Hws E2) as [Hg' Hs'].
    rewrite Hg', Hs', Hg, Hs. simpl length. lia.
Qed.

(** Three windows of the small instance: a full one, one without eval
    peers, a full one. *)
Lemma counters_advance_per_completed_window_witness :
  let s := example_validator (replicate 4 0) ∅ in
  let ws := [example_window [1; 2]%nat [] (Some (Some example_gradient));
             example_window [] [1]%nat None;
             example_window [2]%nat [] (Some (Some example_gradient))] in
  global_step (snd (toy_run ws s)) = (global_step s + 3)%Z /\
  sync_window (snd (toy_run ws s)) = (sync_window s + 3)%Z.
Proof.
  intros s ws.
  apply (proj2 (counters_advance_per_completed_window
                  Q toy_forward toy_decode toy_batch_decode toy_lr) ws s
           (snd (toy_run ws s))).
  - repeat constructor.
  - vm_compute. reflexivity.
Defined.

(** X6.  With [ma_alpha] between 0 and 1 and no binary moving average
    recorded at start-up, every binary moving average stays in [[-1, 1]]
    through any number of iterations, however they end; so the factor
    [normalized_binary_avg], its half, stays in [[-1/2, 1/2]] (not in
    [[0, 1]]). *)
Theorem binary_moving_averages_bounded (Batch : Type)
    (forward : Model -> Batch -> option Q)
    (decode : string -> Tensor -> Tensor -> Tensor -> option Tensor)
    (batch_decode : string -> Tensor -> list Tensor -> list Tensor -> option Tensor)
    (lr_at : nat -> Q) (ws : list (Window Batch)) (s : Validator) :
  binary_moving_averages s = ∅ ->
  0 <= ma_alpha (hparams s) <= 1 ->
  forall p v,
    binary_moving_averages (snd (run Batch forward decode batch_decode lr_at ws s)) !! p
    = Some v ->
    -1 <= v <= 1 /\ - (1 # 2) <= v / 2 <= 1 # 2.
Proof.
  intros He Ha p v Hv.
  assert (H : averages_bounded (snd (run Batch forward decode batch_decode lr_at ws s))).
  { apply (averages_run Batch forward decode batch_decode lr_at (hparams s) ws Ha s).
    split; [| reflexivity]. unfold averages_bounded. rewrite He. apply map_Forall_empty. }
  specialize (H p v Hv). simpl in H. split; [exact H |].
  split; [apply Qle_shift_div_l | apply Qle_shift_div_r]; lra.
Qed.

(** Two windows of the small instance, [ma_alpha] = 1/5; peer 1 is
    evaluated in the first. *)
Lemma binary_moving_averages_bounded_witness :
  let s := example_validator (replicate 4 0) ∅ in
  let ws := [example_window [1; 2]%nat [] (Some (Some example_gradient));
             example_window [2]%nat [1]%nat (Some (Some example_gradient))] in
  (exists v, binary_moving_averages (snd (toy_run ws s)) !! 1%nat = Some v) /\
  forall p v, binary_moving_averages (snd (toy_run ws s)) !! p = Some v ->
              -1 <= v <= 1 /\ - (1 # 2) <= v / 2 <= 1 # 2.
Proof.
  intros s ws. split; [vm_compute; eexists; reflexivity |].
  apply (binary_moving_averages_bounded Q toy_forward toy_decode toy_batch_decode toy_lr ws s).
  - reflexivity.
  - split; discriminate.
Defined.

(** X7.  The final score is the product of the raw score and half the
    binary moving average, and both can be negative.  For a peer whose
    gradient makes the loss on its own data worse (raw score below 0), whose
    improvement on its own data does not exceed the one on random data
    (indicator -1) and whose binary moving average is not positive, the
    final score is positive: with [0 < ma_alpha <= 1] and a non-negative
    old score [x], the new moving-average score is positive and above
    [(1 - ma_alpha) * x]. *)
Theorem worsening_gradient_gains_score (u : nat) (l : Losses) (s : Validator) (x : Q) :
  moving_avg_scores s !! u = Some x ->
  0 <= x ->
  0 < ma_alpha (hparams s) <= 1 ->
  0 < loss_before_own l < loss_after_own l ->
  improvement_own_of l <= improvement_random_of l ->
  default 0 (binary_moving_averages s !! u) <= 0 ->
  score_of l < 0 /\
  exists y, moving_avg_scores (snd (update_scores u l s)) !! u = Some y /\
            0 < y /\ (1 - ma_alpha (hparams s)) * x < y.
Proof.
  intros Hx Hx0 Ha Hl Hi Hb.
  assert (Hs : score_of l < 0).
  { unfold score_of, improvement. destruct (Qlt_le_dec 0 (loss_before_own l)); [| lra].
    apply Qlt_shift_div_r; lra. }
  split; [exact Hs |].
  rewrite (update_scores_state u l s x Hx). simpl.
  rewrite list_lookup_insert_eq by (eapply lookup_lt_Some, Hx).
  eexists. split; [reflexivity |].
  assert (Hind : binary_indicator (improvement_own_of l) (improvement_random_of l) = -1).
  { unfold binary_indicator. destruct (Qlt_le_dec _ _) as [H|H]; [| reflexivity].
    exfalso. apply (Qlt_not_le _ _ H), Hi. }
  rewrite Hind.
  set (a := ma_alpha (hparams s)) in *.
  set (b := default 0 (binary_moving_averages s !! u)) in *.
  set (sc := score_of l) in *.
  assert (Havg : (1 - a) * b + a * -1 < 0) by nra.
  assert (Hfin : 0 < sc * (((1 - a) * b + a * -1) / 2)).
  { assert (((1 - a) * b + a * -1) / 2 < 0) by (apply Qlt_shift_div_r; lra). nra. }
  assert (Hnew : (1 - a) * x < (1 - a) * x + a * (sc * (((1 - a) * b + a * -1) / 2))) by nra.
  assert (0 <= (1 - a) * x) by nra.
  unfold py_max. destruct (Qlt_le_dec _ 0) as [H'|H']; [lra |]. split; [lra | exact Hnew].
Qed.

(** A first evaluation of peer 1 whose own-data loss goes from 1 to 2 while
    the random-data loss does not move. *)
Lemma worsening_gradient_gains_score_witness :
  let s := example_validator (replicate 4 0) ∅ in
  let l := mkLosses 1 2 1 1 in
  score_of l < 0 /\
  exists y, moving_avg_scores (snd (update_scores 1 l s)) !! 1%nat = Some y /\
            0 < y /\ (1 - ma_alpha (hparams s)) * 0 < y.
Proof.
  intros s l.
  apply (worsening_gradient_gains_score 1 l s 0).
  - reflexivity.
  - discriminate.
  - split; [reflexivity | discriminate].
  - split; reflexivity.
  - discriminate.
  - discriminate.
Defined.

(** X8.  [evaluated_uids] is append-only and grows by at most one uid per
    iteration: after an iteration that does not catch up, whatever its
    outcome, it is the set it was, or that set and one uid of the refreshed
    eval-peer list; a catch-up iteration leaves it alone; over any run it
    contains the set it started from. *)
Theorem evaluated_uids_grow_one_eval_peer (Batch : Type)
    (forward : Model -> Batch -> option Q)
    (decode : string -> Tensor -> Tensor -> Tensor -> option Tensor)
    (batch_decode : string -> Tensor -> list Tensor -> list Tensor -> option Tensor)
    (lr_at : nat -> Q) :
  (forall (w : Window Batch) s,
     let s' := snd (iteration Batch forward decode batch_decode lr_at w s) in
     match catch_up w with
     | Some _ => evaluated_uids s' = evaluated_uids s
     | None =>
         evaluated_uids s' = evaluated_uids s \/
         exists u, u ∈ comms_eval_peers w /\ evaluated_uids s' = {[u]} ∪ evaluated_uids s
     end) /\
  (forall (ws : list (Window Batch)) s,
     evaluated_uids s ⊆ evaluated_uids (snd (run Batch forward decode batch_decode lr_at ws s))).
Proof.
  split.
  - intros w s. destruct (catch_up w) as [c|] eqn:Hc.
    + unfold iteration, bind, modify. rewrite Hc. reflexivity.
    + by apply iteration_grows_evaluated.
  - intros ws s p Hp.
    by apply (evaluated_run Batch forward decode batch_decode lr_at p ws s).
Qed.

(** X9.  From a start-up state (nothing evaluated, nothing tracked), through
    any number of iterations and whatever their outcomes: the score tensor
    keeps its length, every tracked inactive peer is one of its indices, and
    so is every evaluated uid, so that the assignment
    [evaluated_mask[list(evaluated_uids)] = True] cannot raise. *)
Theorem indices_stay_valid (Batch : Type)
    (forward : Model -> Batch -> option Q)
    (decode : string -> Tensor -> Tensor -> Tensor -> option Tensor)
    (batch_decode : string -> Tensor -> list Tensor -> list Tensor -> option Tensor)
    (lr_at : nat -> Q) (ws : list (Window Batch)) (s : Validator) :
  evaluated_uids s = ∅ ->
  inactive_scores s = ∅ ->
  let s' := snd (run Batch forward decode batch_decode lr_at ws s) in
  length (moving_avg_scores s') = length (moving_avg_scores s) /\
  tracked_valid s' /\
  evaluated_mask_ok (moving_avg_scores s') (evaluated_uids s') = true.
Proof.
  intros He Hi s'.
  assert (H : indices_valid (length (moving_avg_scores s)) s').
  { apply indices_run. split; [reflexivity |]. rewrite He, Hi. split.
    - intros u Hu. by apply not_elem_of_empty in Hu.
    - intros u [v Hu]. by rewrite lookup_empty in Hu. }
  destruct H as (Hl & Hev & Ht). split; [exact Hl |]. split.
  - intros u Hu. rewrite Hl. by apply Ht.
  - apply evaluated_mask_ok_true. intros u Hu. rewrite Hl. by apply Hev.
Qed.

(** Two windows of the small instance from its start-up state. *)
Lemma indices_stay_valid_witness :
  let s := example_validator (replicate 4 0) ∅ in
  let ws := [example_window [1; 2]%nat [] (Some (Some example_gradient));
             example_window [2]%nat [1]%nat (Some (Some example_gradient))] in
  let s' := snd (toy_run ws s) in
  length (moving_avg_scores s') = 4%nat /\
  tracked_valid s' /\
  evaluated_mask_ok (moving_avg_scores s') (evaluated_uids s') = true.
Proof.
  intros s ws s'.
  exact (indices_stay_valid Q toy_forward toy_decode toy_batch_decode toy_lr ws s
           eq_refl eq_refl).
Defined.

(** X10.  What the inactivity loops leave in [inactive_scores] when they
    return: no eval peer is tracked; a tracked peer that is still away keeps
    the record of its departure; a peer reported as departed and not yet
    tracked gets the record (current window, its score before this window's
    penalty); nobody else is tracked. *)
Theorem inactive_scores_after_inactivity (l : list nat) (s s' : Validator) (p : nat) :
  inactivity l s = (Val tt, s') ->
  inactive_scores s' !! p
  = if bool_decide (p ∈ eval_peers s) then None
    else match inactive_scores s !! p with
         | Some e => Some e
         | None =>
             if bool_decide (p ∈ l)
             then (fun x => (sync_window s, x)) <$> moving_avg_scores s !! p
             else None
         end.
Proof. apply inactivity_tracking. Qed.

(** Peer 1 is reported as departed with score 0.8 in window 4. *)
Lemma inactive_scores_after_inactivity_witness :
  let w := example_window [2]%nat [1]%nat None in
  let s := refreshed w (example_validator [0; 4 # 5; 1 # 10; 0] {[ 1%nat; 2%nat ]}) in
  let s' := snd (inactivity (comms_inactive_peers w) s) in
  inactive_scores s' !! 1%nat = Some (4%Z, 4 # 5) /\
  inactive_scores s' !! 2%nat = None /\
  inactive_scores s' !! 3%nat = None.
Proof.
  intros w s s'.
  assert (E : inactivity (comms_inactive_peers w) s = (Val tt, s'))
    by (vm_compute; reflexivity).
  rewrite !(inactive_scores_after_inactivity _ _ _ _ E).
  repeat split; reflexivity.
Defined.

(** X11.  What the inactivity loops do to the scores when they return: the
    score of a peer that is not an eval peer and is tracked or reported as
    departed is multiplied by 3/4, once; every other score, the scores of
    the eval peers included, is left as it is. *)
Theorem scores_after_inactivity (l : list nat) (s s' : Validator) (p : nat) (x : Q) :
  inactivity l s = (Val tt, s') ->
  moving_avg_scores s !! p = Some x ->
  moving_avg_scores s' !! p
  = Some (if bool_decide (p ∈ eval_peers s) then x
          else if bool_decide (p ∈ l \/ is_Some (inactive_scores s !! p))
               then x * (3 # 4) else x).
Proof. apply inactivity_scores. Qed.

(** Peer 1 is reported as departed; peer 2 is an eval peer; peer 0 is
    neither. *)
Lemma scores_after_inactivity_witness :
  let w := example_window [2]%nat [1; 2]%nat None in
  let s := refreshed w (example_validator [1 # 2; 4 # 5; 1 # 10; 0] {[ 1%nat; 2%nat ]}) in
  let s' := snd (inactivity (comms_inactive_peers w) s) in
  moving_avg_scores s' !! 1%nat = Some ((4 # 5) * (3 # 4)) /\
  moving_avg_scores s' !! 2%nat = Some (1 # 10) /\
  moving_avg_scores s' !! 0%nat = Some (1 # 2).
Proof.
  intros w s s'.
  assert (E : inactivity (comms_inactive_peers w) s = (Val tt, s'))
    by (vm_compute; reflexivity).
  rewrite (scores_after_inactivity _ _ _ 1 (4 # 5) E eq_refl).
  rewrite (scores_after_inactivity _ _ _ 2 (1 # 10) E eq_refl).
  rewrite (scores_after_inactivity _ _ _ 0 (1 # 2) E eq_refl).
  repeat split; reflexivity.
Defined.

(** * Further properties of the evaluation *)



(** X13.  On a loader without batches the sample size is still 1, so
    [random.sample] raises [ValueError]: the evaluation phase ends with that
    exception, and neither the scores, the evaluated set, the binary moving
    averages nor [global_step] change, and nothing is sent out. *)
Theorem empty_loader_aborts_evaluation (Batch : Type)
    (forward : Model -> Batch -> option Q)
    (decode : string -> Tensor -> Tensor -> Tensor -> option Tensor)
    (batch_decode : string -> Tensor -> list Tensor -> list Tensor -> option Tensor)
    (lr_at : nat -> Q)
    (w : Window Batch) (s : Validator) (u : nat) (sd : gmap string Tensor) :
  random_choice (eval_peers s) (choice_draw w) = Val u ->
  eval_result w = Some (Some sd) ->
  own_batches w = Some [] ->
  let r := evaluation_phase Batch forward decode batch_decode lr_at w s in
  fst r = Exn ValueError /\
  moving_avg_scores (snd r) = moving_avg_scores s /\
  evaluated_uids (snd r) = evaluated_uids s /\
  binary_moving_averages (snd r) = binary_moving_averages s /\
  global_step (snd r) = global_step s /\
  emitted (snd r) = emitted s.
Proof.
  intros Hu He Hb r.
  destruct (evaluation_phase_outcome Batch forward decode batch_decode lr_at w s u Hu)
    as (m' & E & _).
  rewrite (try_body_empty_loader Batch forward decode batch_decode lr_at w sd u s He Hb) in E.
  unfold r. rewrite E. simpl. repeat split; reflexivity.
Qed.

(** The first eval peer sent a gradient, but its pages give no batch. *)
Lemma empty_loader_aborts_evaluation_witness :
  let s := with_eval_peers [1%nat] (example_validator [0; 1 # 2; 0] ∅) in
  let w := mkWindow 5 None [1; 2]%nat [1%nat] [] (Some (Some example_gather)) 0
             (Some (Some example_gradient)) (Some []) [] (Some [0; 3]) [] in
  fst (toy_evaluation_phase w s) = Exn ValueError /\
  moving_avg_scores (snd (toy_evaluation_phase w s)) = [0; 1 # 2; 0] /\
  global_step (snd (toy_evaluation_phase w s)) = 0%Z.
Proof.
  intros s w.
  destruct (empty_loader_aborts_evaluation Q toy_forward toy_decode toy_batch_decode toy_lr
              w s 1 example_gradient eq_refl eq_refl eq_refl) as (H1 & H2 & _ & _ & H5 & _).
  split; [exact H1 |]. split; [exact H2 | exact H5].
Defined.

(** X14.  The evaluation of a gradient (steps 7 to 14) writes to the
    validator through the model only, whatever its outcome, and keeps the
    parameter names; and when it returns, every parameter holds again the
    value it had when the evaluation started (parameter names are distinct,
    as [named_parameters] gives them). *)
Theorem evaluation_gives_the_parameters_back (Batch : Type)
    (forward : Model -> Batch -> option Q)
    (decode : string -> Tensor -> Tensor -> Tensor -> option Tensor)
    (w : Window Batch) (sd : gmap string Tensor) (s : Validator) :
  NoDup (param_names (model s)) ->
  let r := evaluate Batch forward decode w sd s in
  model_only_differs s (snd r) /\
  param_names (model (snd r)) = param_names (model s) /\
  (forall l, fst r = Val l -> state_dict (model (snd r)) = state_dict (model s)).
Proof.
  intros Hnd r. split; [apply evaluate_model_only_differs |]. split.
  - apply (ml_only_evaluate Batch forward decode (fun _ => 0) w sd s s), ml_step_refl.
  - intros l Hl.
    assert (Hnd' : NoDup (state_dict (model s)).*1) by (by rewrite state_dict_names).
    pose proof (evaluate_restores Batch forward decode w sd _ Hnd' s eq_refl) as H.
    fold r in H. destruct r as [[l'|e] s']; [exact H | discriminate].
Qed.

(** The toy validator evaluates the gradient of peer 1 on two batches of its
    own pages and two random ones. *)
Lemma evaluation_gives_the_parameters_back_witness :
  let s := example_validator [0; 1 # 2; 0] ∅ in
  let w := example_window [1%nat] [] (Some (Some example_gradient)) in
  let r := evaluate Q toy_forward toy_decode w example_gradient s in
  (exists l, fst r = Val l) /\
  state_dict (model (snd r)) = [("w"%string, [2])] /\
  optimizer (snd r) = optimizer s /\ momentum (snd r) = momentum s.
Proof.
  intros s w r.
  assert (Hnd : NoDup (param_names (model s))).
  { constructor; [apply not_elem_of_nil | constructor]. }
  destruct (evaluation_gives_the_parameters_back Q toy_forward toy_decode w
              example_gradient s Hnd) as (Hm & _ & Hr).
  fold r in Hm, Hr.
  assert (Hv : exists l, fst r = Val l) by (eexists; vm_compute; reflexivity).
  split; [exact Hv |]. destruct Hv as [l Hl].
  split; [exact (Hr l Hl) |].
  unfold model_only_differs in Hm.
  split; [exact (f_equal optimizer Hm) | exact (f_equal momentum Hm)].
Defined.

(** X15.  The two passes of the loop "Apply gradient" in one evaluation
    differ.  The first pass starts from cleared gradients, so [p.grad] is
    the decoded tensor itself and [sign_] turns the step into a sign step.
    [p.data.copy_] restores the data but keeps [p.grad], so in the second
    pass (random data) [p.grad] receives a copy and the step subtracts the
    decoded gradient as it is. *)
Theorem second_pass_subtracts_raw_gradient
    (decode : string -> Tensor -> Tensor -> Tensor -> option Tensor)
    (alpha : Q) (sd o : gmap string Tensor) (m : Model)
    (l1 l2 l3 : list (string * Param)) :
  apply_gradient_loop decode alpha sd (named_parameters (zero_grad m)) = (None, l1) ->
  restore_params_loop o l1 = (None, l2) ->
  apply_gradient_loop decode alpha sd l2 = (None, l3) ->
  Forall2 (eval_stepped decode alpha sd true) (named_parameters (zero_grad m)) l1 /\
  Forall2 (eval_stepped decode alpha sd false) l2 l3.
Proof.
  intros H1 H2 H3.
  assert (S1 : Forall2 (eval_stepped decode alpha sd true) (named_parameters (zero_grad m)) l1).
  { apply apply_gradient_loop_stepped; [| exact H1].
    unfold zero_grad. simpl. apply Forall_fmap, Forall_true. intros np _ _. reflexivity. }
  split; [exact S1 |].
  apply apply_gradient_loop_stepped; [| exact H3].
  pose proof (eval_stepped_grad decode alpha sd true _ _ S1) as G1.
  pose proof (restore_params_loop_grads o l1 l2 None H2) as G2.
  clear -G1 G2. induction G2 as [|np np' l l' [Hn Hg] _ IH]; [constructor |].
  apply Forall_cons in G1 as [Hp G1]. constructor; [| by apply IH].
  rewrite Hn, Hg. exact Hp.
Qed.

(** One parameter [2], the decoded gradient [3] and the rate 1/10: the
    first pass leaves 2 - 1/10 * sign 3, the second 2 - 1/10 * 3. *)
Lemma second_pass_subtracts_raw_gradient_witness :
  let sd : gmap string Tensor := {[ "widxs"%string := [0]; "wvals"%string := [3] ]} in
  let o : gmap string Tensor := {[ "w"%string := [2] ]} in
  let l1 := [("w"%string, mkParam [2 - (1 # 10) * sign 3] (Some [sign 3]))] in
  let l2 := [("w"%string, mkParam [2] (Some [sign 3]))] in
  let l3 := [("w"%string, mkParam [2 - (1 # 10) * 3] (Some [sign 3]))] in
  Forall2 (eval_stepped toy_decode (1 # 10) sd true)
          (named_parameters (zero_grad example_model)) l1 /\
  Forall2 (eval_stepped toy_decode (1 # 10) sd false) l2 l3.
Proof.
  intros sd o l1 l2 l3.
  apply (second_pass_subtracts_raw_gradient toy_decode (1 # 10) sd o example_model l1 l2 l3);
    reflexivity.
Defined.

(** * Further properties of the model update *)

(** X16.  A model update (step 16) that returns has moved every parameter
    with a gathered payload by one step of the learning rate in force
    before the scheduler step, against the sign of the decoded gradient, and
    has left every other parameter where it was; so no entry of any
    parameter moves by more than that learning rate. *)
Theorem model_update_is_a_bounded_sign_step (Batch : Type)
    (batch_decode : string -> Tensor -> list Tensor -> list Tensor -> option Tensor)
    (lr_at : nat -> Q) (w : Window Batch) (s s' : Validator) :
  update_model Batch batch_decode lr_at w s = (Val tt, s') ->
  Forall2 (update_stepped batch_decode (lr (optimizer s)) (gathered_payload w))
          (named_parameters (model s)) (named_parameters (model s')) /\
  (forall i np np' j x x',
     named_parameters (model s) !! i = Some np ->
     named_parameters (model s') !! i = Some np' ->
     data np.2 !! j = Some x -> data np'.2 !! j = Some x' ->
     Qabs (x' - x) <= Qabs (lr (optimizer s))).
Proof.
  intros H. pose proof (update_model_stepped Batch batch_decode lr_at w s s' H) as HF.
  split; [exact HF |].
  intros i np np' j x x' Hnp Hnp' Hx Hx'.
  pose proof (Forall2_lookup_lr _ _ _ _ _ _ HF Hnp Hnp') as [_ Hs].
  destruct (gathered_payload w !! (np.1 +:+ "idxs")) as [idxs|];
    [destruct (gathered_payload w !! (np.1 +:+ "vals")) as [vals|] |].
  - destruct Hs as (g & _ & _ & Hd). rewrite Hd in Hx'.
    exact (sub_sign_bound _ _ _ _ _ _ Hx Hx').
  - destruct Hs as [Hd _]. rewrite Hd, Hx in Hx'. injection Hx' as <-.
    assert (E : x - x == 0) by ring. rewrite E. apply Qabs_nonneg.
  - destruct Hs as [Hd _]. rewrite Hd, Hx in Hx'. injection Hx' as <-.
    assert (E : x - x == 0) by ring. rewrite E. apply Qabs_nonneg.
Qed.

(** The toy validator applies the gathered gradient [1] to its parameter
    [2] at the rate 1/10. *)
Lemma model_update_is_a_bounded_sign_step_witness :
  let s := example_validator [0; 1 # 2; 0] ∅ in
  let w := example_window [1%nat] [] None in
  let s' := snd (update_model Q toy_batch_decode toy_lr w s) in
  Forall2 (update_stepped toy_batch_decode (1 # 10) (gathered_payload w))
          (named_parameters (model s)) (named_parameters (model s')) /\
  (forall i np np' j x x',
     named_parameters (model s) !! i = Some np ->
     named_parameters (model s') !! i = Some np' ->
     data np.2 !! j = Some x -> data np'.2 !! j = Some x' ->
     Qabs (x' - x) <= Qabs (1 # 10)).
Proof.
  intros s w s'.
  apply (model_update_is_a_bounded_sign_step Q toy_batch_decode toy_lr w s s').
  reflexivity.
Defined.

(** X17.  After a model update that returns, [momentum] holds, under the
    name of every parameter with a gathered payload, the decoded gradient
    before its sign is taken; every other entry of [momentum] is as before
    (parameter names are distinct, as [named_parameters] gives them). *)
Theorem momentum_keeps_unsigned_gradient (Batch : Type)
    (batch_decode : string -> Tensor -> list Tensor -> list Tensor -> option Tensor)
    (lr_at : nat -> Q) (w : Window Batch) (s s' : Validator) :
  NoDup (param_names (model s)) ->
  update_model Batch batch_decode lr_at w s = (Val tt, s') ->
  (forall n p, (n, p) ∈ named_parameters (model s) ->
     gathered_for (gathered_payload w) n ->
     exists idxs vals g,
       gathered_payload w !! (n +:+ "idxs") = Some idxs /\
       gathered_payload w !! (n +:+ "vals") = Some vals /\
       batch_decode n (data p) (as_list idxs) (as_list vals) = Some g /\
       momentum s' !! n = Some g) /\
  (forall n, ~ (n ∈ param_names (model s) /\ gathered_for (gathered_payload w) n) ->
     momentum s' !! n = momentum s !! n).
Proof.
  intros Hnd H. apply update_model_returns in H as (ps & mom & E & ->).
  apply gathered_gradient_loop_momentum in E as [H1 H2].
  2: { fold (param_names (zero_grad (model s))). by rewrite zero_grad_names. }
  cbn [scheduler_step momentum with_scheduler with_optimizer with_model with_momentum].
  split.
  - intros n p Hin Hg.
    apply (H1 n (mkParam (data p) None)); [| exact Hg].
    unfold zero_grad. cbn [named_parameters].
    apply (list_elem_of_fmap_2 (fun np => (np.1, mkParam (data np.2) None)) _ (n, p) Hin).
  - intros n Hn. apply H2. fold (param_names (zero_grad (model s))).
    by rewrite zero_grad_names.
Qed.

(** The toy validator stores the gathered gradient [1] under ["w"]. *)
Lemma momentum_keeps_unsigned_gradient_witness :
  let s := example_validator [0; 1 # 2; 0] ∅ in
  let w := example_window [1%nat] [] None in
  let s' := snd (update_model Q toy_batch_decode toy_lr w s) in
  momentum s' !! "w"%string = Some [1].
Proof.
  intros s w s'.
  assert (Hnd : NoDup (param_names (model s))).
  { constructor; [apply not_elem_of_nil | constructor]. }
  destruct (momentum_keeps_unsigned_gradient Q toy_batch_decode toy_lr w s s' Hnd eq_refl)
    as [H _].
  destruct (H "w"%string (mkParam [2] None)) as (idxs & vals & g & Hi & Hv & Hg & Hm).
  - left.
  - split; eexists; reflexivity.
  - rewrite Hm. f_equal.
    assert (Hv' : gathered_payload w !! "wvals"%string = Some (One [1])) by reflexivity.
    change ("w" +:+ "vals")%string with "wvals"%string in Hv.
    rewrite Hv' in Hv. injection Hv as <-.
    cbn in Hg. by injection Hg as <-.
Defined.

(** X18.  Without a gathered payload ([gather] returned [None], or a result
    whose [state_dict] is [None]) the model update still returns: the
    parameters and the momentum are as before, the model is in training
    mode, and the scheduler has advanced by one step, whose rate the
    optimizer now carries. *)
Theorem update_without_gather_only_steps_the_schedule (Batch : Type)
    (batch_decode : string -> Tensor -> list Tensor -> list Tensor -> option Tensor)
    (lr_at : nat -> Q) (w : Window Batch) (s : Validator) :
  gather_result w = None \/ gather_result w = Some None ->
  let r := update_model Batch batch_decode lr_at w s in
  fst r = Val tt /\
  state_dict (model (snd r)) = state_dict (model s) /\
  momentum (snd r) = momentum s /\
  training (model (snd r)) = true /\
  last_epoch (scheduler (snd r)) = S (last_epoch (scheduler s)) /\
  last_lr (scheduler (snd r)) = lr_at (S (last_epoch (scheduler s))) /\
  lr (optimizer (snd r)) = lr_at (S (last_epoch (scheduler s))).
Proof.
  intros Hg r.
  assert (E : r = (Val tt, scheduler_step lr_at
                     (with_model (sgd_step (optimizer s) (zero_grad (set_training true (model s)))) s))).
  { unfold r, update_model, bind, modify, ret.
    destruct Hg as [-> | ->]; by destruct s. }
  rewrite E. cbn [fst snd scheduler_step model momentum scheduler optimizer with_scheduler
                    with_optimizer with_model last_epoch last_lr lr].
  split; [reflexivity |]. split; [exact (state_dict_sgd_step_zero_grad _ (set_training true (model s))) |].
  repeat split; reflexivity.
Qed.

(** A window whose gather returned nothing. *)
Lemma update_without_gather_only_steps_the_schedule_witness :
  let s := example_validator [0; 1 # 2; 0] ∅ in
  let w := mkWindow 5 None [1; 2]%nat [1%nat] [] None 0 None (Some [1; 1]) []
             (Some [0; 3]) [] in
  let r := update_model Q toy_batch_decode toy_lr w s in
  fst r = Val tt /\ state_dict (model (snd r)) = [("w"%string, [2])] /\
  lr (optimizer (snd r)) = 1 # 11.
Proof.
  intros s w r.
  destruct (update_without_gather_only_steps_the_schedule Q toy_batch_decode toy_lr w s
              (or_introl eq_refl)) as (H1 & H2 & _ & _ & _ & _ & H7).
  split; [exact H1 |]. split; [exact H2 | exact H7].
Defined.

(** * Further properties of the body of [try] *)

(** X19.  In a process that has not yet completed the evaluation of any
    gradient, a window in which weights are due and whose selected peer sent
    no gradient ends in [UnboundLocalError]: the slashed score and the
    evaluated uid are kept and the weights are sent, but the log after
    [set_weights] reads [loss_before_own], which only a successful
    evaluation binds, so [global_step] is not incremented.  (The uids are
    indices of the score tensor, the two periods are not 0, and the model
    update of the window does not fail.) *)
Theorem slashing_raises_before_first_evaluation (Batch : Type)
    (forward : Model -> Batch -> option Q)
    (decode : string -> Tensor -> Tensor -> Tensor -> option Tensor)
    (batch_decode : string -> Tensor -> list Tensor -> list Tensor -> option Tensor)
    (lr_at : nat -> Q)
    (w : Window Batch) (s : Validator) (u : nat) (x : Q) :
  score_bound s = false ->
  random_choice (eval_peers s) (choice_draw w) = Val u ->
  eval_result w = None \/ eval_result w = Some None ->
  moving_avg_scores s !! u = Some x ->
  (forall v, v ∈ evaluated_uids s -> (v < length (moving_avg_scores s))%nat) ->
  checkpoint_frequency (hparams s) <> 0%Z ->
  windows_per_weights (hparams s) <> 0%Z ->
  (sync_window s mod windows_per_weights (hparams s) = 0)%Z ->
  fst (update_model Batch batch_decode lr_at w s) = Val tt ->
  let r := evaluation_phase Batch forward decode batch_decode lr_at w s in
  let scores := <[u := x * (1 # 2)]> (moving_avg_scores s) in
  let evaluated := {[u]} ∪ evaluated_uids s in
  fst r = Exn UnboundLocalError /\
  moving_avg_scores (snd r) = scores /\
  evaluated_uids (snd r) = evaluated /\
  global_step (snd r) = global_step s /\
  exists rest,
    emitted (snd r)
    = SetWeights (weights_after_missing scores evaluated (power_normalisation (hparams s)))
        :: rest.
Proof.
  intros Hsb Hu Hres Hx Hev Hcf Hww Hdue Hup r scores evaluated.
  assert (Hok : evaluated_mask_ok scores evaluated = true).
  { apply evaluated_mask_ok_true. intros v Hv. unfold scores. rewrite length_insert.
    apply elem_of_union in Hv as [Hv | Hv]; [| by apply Hev].
    apply elem_of_singleton in Hv as ->. by eapply lookup_lt_Some. }
  pose proof (missing_submission_state u s x Hx) as Hst.
  pose proof (missing_submission_value u s x Hx Hok) as Hval.
  destruct (missing_submission u s) as [a s1] eqn:Em. simpl in Hst, Hval. subst a s1.
  set (s1 := with_evaluated_uids _ _) in Em.
  set (wts := weights_after_missing _ _ _) in Em.
  assert (Hbody : try_body Batch forward decode batch_decode lr_at w u s
                  = after_scoring Batch batch_decode lr_at w wts s1).
  { unfold try_body, score_peer, bind. destruct Hres as [-> | ->]; by rewrite Em. }
  destruct (after_scoring_unbound Batch batch_decode lr_at w wts s1 Hsb Hcf Hww Hdue)
    as (t' & rest & Ha & He & Hg & Hm & Hv & _).
  { rewrite (update_model_outcome_frame Batch batch_decode lr_at w s s1); [exact Hup | reflexivity]. }
  destruct (evaluation_phase_outcome Batch forward decode batch_decode lr_at w s u Hu)
    as (m' & E & _).
  rewrite Hbody, Ha in E. unfold r. rewrite E.
  cbn [fst snd moving_avg_scores evaluated_uids global_step emitted
       with_scheduler with_optimizer with_model].
  split; [reflexivity |]. split; [exact Hm |]. split; [exact Hv |]. split; [exact Hg |].
  exists rest. exact He.
Qed.

(** The toy validator in its third window, weights due every third window:
    peer 1 is selected and has sent nothing. *)
Lemma slashing_raises_before_first_evaluation_witness :
  let s := with_eval_peers [1%nat] (example_validator [0; 1 # 2; 0] ∅) in
  let w := example_window [1%nat] [] None in
  let r := toy_evaluation_phase w s in
  fst r = Exn UnboundLocalError /\
  moving_avg_scores (snd r) = [0; (1 # 2) * (1 # 2); 0] /\
  global_step (snd r) = 0%Z.
Proof.
  intros s w r.
  destruct (slashing_raises_before_first_evaluation Q toy_forward toy_decode
              toy_batch_decode toy_lr w s 1 (1 # 2))
    as (H1 & H2 & _ & H4 & _).
  - reflexivity.
  - reflexivity.
  - by left.
  - reflexivity.
  - intros v Hv. by apply elem_of_empty in Hv.
  - discriminate.
  - discriminate.
  - reflexivity.
  - reflexivity.
  - split; [exact H1 |]. split; [exact H2 | exact H4].
Defined.

(** X20.  Whatever the outcome of the evaluation phase, a checkpoint it
    hands over holds the state in which the phase started: the parameters
    (the evaluation has given them back by then), the optimizer, the
    scheduler, the momentum, the windows and [global_step].  The checkpoint
    is taken before step 16, so it never holds the gathered update or the
    momentum of its own window.  (Parameter names are distinct, as
    [named_parameters] gives them.) *)
Theorem checkpoint_holds_the_state_before_the_update (Batch : Type)
    (forward : Model -> Batch -> option Q)
    (decode : string -> Tensor -> Tensor -> Tensor -> option Tensor)
    (batch_decode : string -> Tensor -> list Tensor -> list Tensor -> option Tensor)
    (lr_at : nat -> Q)
    (w : Window Batch) (s : Validator) :
  NoDup (param_names (model s)) ->
  checkpoints_from s (snd (evaluation_phase Batch forward decode batch_decode lr_at w s)).
Proof.
  intros Hnd.
  destruct (random_choice (eval_peers s) (choice_draw w)) as [u|e] eqn:Hu.
  - destruct (evaluation_phase_outcome Batch forward decode batch_decode lr_at w s u Hu)
      as (m' & E & _).
    rewrite E. intros c Hc.
    apply (checkpoint_try_body Batch forward decode batch_decode lr_at s w u Hnd c Hc).
  - unfold evaluation_phase, bind, get, lift. rewrite Hu. intros c Hc. by left.
Qed.

(** The toy validator evaluates the gradient of peer 1 at [global_step] 0,
    where a checkpoint is due: the checkpoint holds the parameter [2], not
    the updated one. *)
Lemma checkpoint_holds_the_state_before_the_update_witness :
  let s := with_eval_peers [1%nat] (example_validator [0; 1 # 2; 0] ∅) in
  let w := example_window [1%nat] [] (Some (Some example_gradient)) in
  let c := mkCheckpoint [("w"%string, [2])] (mkOptimizer (1 # 10)) (mkScheduler 0 (1 # 10))
             ∅ 0 5 0 in
  PutCheckpoint c ∈ emitted (snd (toy_evaluation_phase w s)) /\ checkpoint_of s c.
Proof.
  intros s w c.
  assert (Hnd : NoDup (param_names (model s))).
  { constructor; [apply not_elem_of_nil | constructor]. }
  assert (Hc : PutCheckpoint c ∈ emitted (snd (toy_evaluation_phase w s))).
  { vm_compute. right. left. }
  split; [exact Hc |].
  destruct (checkpoint_holds_the_state_before_the_update Q toy_forward toy_decode
              toy_batch_decode toy_lr w s Hnd c Hc) as [H | H]; [| exact H].
  by apply elem_of_nil in H.
Defined.

(** * Further properties of the block listener and of the start-up *)



(** X22.  When [__init__] completes, the validator's uid is the first
    position of its hotkey in the metagraph.  After the start of [run] the
    uid is among the gather peers, [sync_window] equals [current_window],
    and without a checkpoint [global_step] is the number of windows since
    [start_window] (0 for the validator with the highest stake, which keeps
    its own start window). *)
Theorem start_up_state (hp : Hparams) (hotkey : string) (hotkeys : list string)
    (n : nat) (block : Z) (m : Model) (o : Optimizer) (sch : Scheduler)
    (s0 : Validator) (config_peers comms_peers : list nat) (highest_stake : bool)
    (fetched_start_window : Z) (c : CheckpointLoad) :
  init hp hotkey hotkeys n block m o sch = Started s0 ->
  let s1 := start_up config_peers comms_peers highest_stake fetched_start_window c s0 in
  hotkeys !! uid s1 = Some hotkey /\
  (forall j, (j < uid s1)%nat -> hotkeys !! j <> Some hotkey) /\
  uid s1 ∈ peers s1 /\
  sync_window s1 = current_window s1 /\
  (loaded c = None -> global_step s1 = (current_window s1 - start_window s1)%Z) /\
  (highest_stake = true -> start_window s1 = current_window s1) /\
  (highest_stake = false -> start_window s1 = fetched_start_window).
Proof.
  intros Hi s1. apply init_Started in Hi as (i & window & Hidx & _ & ->).
  apply index_Some in Hidx as [H1 H2].
  pose proof (start_up_reputation config_peers comms_peers highest_stake
                fetched_start_window c
                (mkValidator i hp m o sch (zero_momentum m) window window 0 window
                   (replicate n 0) ∅ [] [] ∅ ∅ false [])) as Hs.
  fold s1 in Hs. cbn [uid sync_window current_window] in Hs.
  destruct Hs as (Hu & _ & _ & _ & _ & _ & Hsw & Hcw & Hp).
  rewrite Hu, Hsw, Hcw, Hp.
  split; [exact H1 |]. split; [exact H2 |]. split; [apply load_peers_self |].
  split; [reflexivity |].
  unfold s1, start_up. destruct highest_stake, (loaded c) as [[[[? ?] ?] ?]|]; cbn;
    repeat split; intros; try discriminate; try reflexivity; lia.
Qed.

(** The hotkey ["b"] is registered at position 1; block 57 with ten blocks
    per window; another validator has the highest stake and has posted the
    start window 2; no checkpoint is found. *)
Lemma start_up_state_witness :
  exists s0,
    init example_hparams "b" ["a"; "b"; "c"]%string 3 57 example_model
         (mkOptimizer (1 # 10)) (mkScheduler 0 (1 # 10)) = Started s0 /\
    let s1 := start_up [] [0; 2]%nat false 2 (mkCheckpointLoad example_model None) s0 in
    uid s1 = 1%nat /\ peers s1 = [0; 2; 1]%nat /\ global_step s1 = 3%Z.
Proof.
  eexists. split; [reflexivity |]. intros s1.
  destruct (start_up_state example_hparams "b" ["a"; "b"; "c"]%string 3 57 example_model
              (mkOptimizer (1 # 10)) (mkScheduler 0 (1 # 10)) _
              [] [0; 2]%nat false 2 (mkCheckpointLoad example_model None) eq_refl)
    as (_ & _ & _ & _ & H5 & _).
  split; [reflexivity |]. split; [reflexivity |]. exact (H5 eq_refl).
Defined.

(** X23.  A validator as [__init__] and the start of [run] leave it keeps,
    through any number of iterations and whatever their outcomes: scores
    that are not negative, binary moving averages in [[-1, 1]] (for
    [ma_alpha] between 0 and 1), a score tensor of [metagraph.n] entries,
    and evaluated and tracked uids that are indices of it. *)
Theorem fresh_validator_keeps_its_invariants (Batch : Type)
    (forward : Model -> Batch -> option Q)
    (decode : string -> Tensor -> Tensor -> Tensor -> option Tensor)
    (batch_decode : string -> Tensor -> list Tensor -> list Tensor -> option Tensor)
    (lr_at : nat -> Q)
    (hp : Hparams) (hotkey : string) (hotkeys : list string)
    (n : nat) (block : Z) (m : Model) (o : Optimizer) (sch : Scheduler)
    (s0 : Validator) (config_peers comms_peers : list nat) (highest_stake : bool)
    (fetched_start_window : Z) (c : CheckpointLoad) (ws : list (Window Batch)) :
  init hp hotkey hotkeys n block m o sch = Started s0 ->
  0 <= ma_alpha hp <= 1 ->
  let s1 := start_up config_peers comms_peers highest_stake fetched_start_window c s0 in
  let s' := snd (run Batch forward decode batch_decode lr_at ws s1) in
  scores_nonneg s' /\ averages_bounded s' /\ indices_valid n s'.
Proof.
  intros Hi Ha s1 s'. apply init_Started in Hi as (i & window & _ & _ & ->).
  pose proof (start_up_reputation config_peers comms_peers highest_stake
                fetched_start_window c
                (mkValidator i hp m o sch (zero_momentum m) window window 0 window
                   (replicate n 0) ∅ [] [] ∅ ∅ false [])) as Hs.
  fold s1 in Hs.
  cbn [uid hparams moving_avg_scores evaluated_uids inactive_scores binary_moving_averages] in Hs.
  destruct Hs as (_ & Hh & Hm & He & Hin & Hb & _).
  split; [| split].
  - apply (nonneg_run Batch forward decode batch_decode lr_at ws s1).
    unfold scores_nonneg. rewrite Hm. apply zeros_nonneg.
  - apply (averages_run Batch forward decode batch_decode lr_at hp ws Ha s1).
    split; [| exact Hh]. unfold averages_bounded. rewrite Hb. apply map_Forall_empty.
  - apply (indices_run Batch forward decode batch_decode lr_at n ws s1).
    unfold indices_valid. rewrite Hm, He, Hin. split; [apply length_replicate |].
    split.
    + intros u Hu. by apply elem_of_empty in Hu.
    + intros u [x Hx]. by rewrite lookup_empty in Hx.
Qed.

(** The validator of the hotkey ["b"] runs one window in which peer 1, the
    only eval peer, has sent nothing. *)
Lemma fresh_validator_keeps_its_invariants_witness :
  exists s0,
    init example_hparams "b" ["a"; "b"; "c"]%string 3 57 example_model
         (mkOptimizer (1 # 10)) (mkScheduler 0 (1 # 10)) = Started s0 /\
    let s1 := start_up [] [0; 2]%nat false 2 (mkCheckpointLoad example_model None) s0 in
    let s' := snd (toy_run [example_window [1%nat] [] None] s1) in
    scores_nonneg s' /\ averages_bounded s' /\ indices_valid 3 s'.
Proof.
  eexists. split; [reflexivity |].
  apply (fresh_validator_keeps_its_invariants Q toy_forward toy_decode toy_batch_decode
           toy_lr example_hparams "b" ["a"; "b"; "c"]%string 3 57 example_model
           (mkOptimizer (1 # 10)) (mkScheduler 0 (1 # 10)) _
           [] [0; 2]%nat false 2 (mkCheckpointLoad example_model None)
           [example_window [1%nat] [] None] eq_refl).
  split; discriminate.
Defined.

(** * Properties of the clean-up script *)

(** X24.  With the three variables of the environment set and not empty, a
    listing that succeeds and [delete_objects] calls that all answer, the
    script returns, and the keys it asks to delete, in the order of its
    calls, are exactly the selected keys of the listing, each as often as it
    is listed; every call carries between 1 and 1000 keys. *)
Theorem cleanup_deletes_each_selected_key_once (version : string)
    (environ : gmap string string) (pages : list (option (list string)))
    (delete_objects : list string -> bool) :
  (forall var, var ∈ CleanVersions.required_vars ->
     exists a v, environ !! var = Some (String a v)) ->
  (forall batch, delete_objects batch = true) ->
  let r := CleanVersions.cleanup version environ pages true delete_objects in
  fst r = CleanVersions.Returned /\
  concat (snd r)
  = CleanVersions.objects_to_delete (CleanVersions.version_pattern_of version) pages /\
  Forall (fun batch => (1 <= length batch <= 1000)%nat) (snd r).
Proof.
  intros Henv Hdel r. unfold r, CleanVersions.cleanup.
  rewrite (missing_vars_none environ Henv).
  destruct (CleanVersions.objects_to_delete _ pages) as [|key keys] eqn:E.
  - cbn [fst snd concat]. repeat split. constructor.
  - rewrite (delete_loop_answered delete_objects _ Hdel). cbn [fst snd].
    split; [reflexivity |]. split; [apply batches_concat; lia | apply batches_sizes; lia].
Qed.

(** Two pages of the bucket; three keys are of this version and of the
    kinds the script cleans. *)
Lemma cleanup_deletes_each_selected_key_once_witness :
  let environ : gmap string string :=
    {[ "R2_GRADIENTS_ACCOUNT_ID"%string := "acc"%string;
       "R2_GRADIENTS_WRITE_ACCESS_KEY_ID"%string := "key"%string;
       "R2_GRADIENTS_WRITE_SECRET_ACCESS_KEY"%string := "secret"%string ]} in
  let pages :=
    [ Some [ "gradient-3-7-v0.1.9.pt"; "gradient-3-7-v0.1.8.pt"; "notes-v0.1.9.txt" ]%string;
      None;
      Some [ "checkpoint-5-0-v0.1.9.pt"; "start_window-v0.1.9.json" ]%string ] in
  let r := CleanVersions.cleanup_version environ pages true (fun _ => true) in
  fst r = CleanVersions.Returned /\
  concat (snd r)
  = [ "gradient-3-7-v0.1.9.pt"; "checkpoint-5-0-v0.1.9.pt"; "start_window-v0.1.9.json" ]%string.
Proof.
  intros environ pages r.
  destruct (cleanup_deletes_each_selected_key_once CleanVersions.__version__ environ pages
              (fun _ => true)) as (H1 & H2 & _).
  - intros var Hvar. unfold CleanVersions.required_vars in Hvar.
    apply elem_of_cons in Hvar as [-> | Hvar]; [by eexists _, _ |].
    apply elem_of_cons in Hvar as [-> | Hvar]; [by eexists _, _ |].
    apply elem_of_cons in Hvar as [-> | Hvar]; [by eexists _, _ |].
    by apply elem_of_nil in Hvar.
  - reflexivity.
  - split; [exact H1 |]. unfold r, CleanVersions.cleanup_version. rewrite H2. reflexivity.
Defined.

(** X25.  Whatever the environment, the listing and the answers of the
    bucket: the script ends by returning or by [sys.exit(1)]; its
    [delete_objects] calls are an initial part of the batches of the
    selected keys, so every key it asks to delete was listed, contains the
    version pattern and names a checkpoint, a start window or a gradient;
    when it returns, all selected keys have been sent; and with a variable
    missing or a listing that fails it exits without any call. *)
Theorem cleanup_only_deletes_selected_listed_keys (version : string)
    (environ : gmap string string) (pages : list (option (list string)))
    (listing : bool) (delete_objects : list string -> bool) :
  let r := CleanVersions.cleanup version environ pages listing delete_objects in
  let pattern := CleanVersions.version_pattern_of version in
  (fst r = CleanVersions.Returned \/ fst r = CleanVersions.Exit 1) /\
  snd r `prefix_of` CleanVersions.batches 1000 (CleanVersions.objects_to_delete pattern pages) /\
  (forall batch key, batch ∈ snd r -> key ∈ batch ->
     CleanVersions.selected pattern key = true /\
     exists contents, Some contents ∈ pages /\ key ∈ contents) /\
  (fst r = CleanVersions.Returned ->
     concat (snd r) = CleanVersions.objects_to_delete pattern pages) /\
  (CleanVersions.missing_vars environ <> [] \/ listing = false ->
     r = (CleanVersions.Exit 1, [])).
Proof.
  intros r pattern.
  assert (Hmain : (fst r = CleanVersions.Returned \/ fst r = CleanVersions.Exit 1) /\
            snd r `prefix_of` CleanVersions.batches 1000
                                (CleanVersions.objects_to_delete pattern pages) /\
            (fst r = CleanVersions.Returned ->
               concat (snd r) = CleanVersions.objects_to_delete pattern pages) /\
            (CleanVersions.missing_vars environ <> [] \/ listing = false ->
               r = (CleanVersions.Exit 1, []))).
  { unfold r, CleanVersions.cleanup. fold pattern.
    destruct (CleanVersions.missing_vars environ) as [|var vars].
    2: { cbn [fst snd]. split; [by right |]. split; [apply prefix_nil |].
         split; [discriminate | reflexivity]. }
    destruct listing.
    2: { cbn [fst snd]. split; [by right |]. split; [apply prefix_nil |].
         split; [discriminate | reflexivity]. }
    destruct (CleanVersions.objects_to_delete pattern pages) as [|key keys] eqn:E.
    { cbn [fst snd]. split; [by left |]. split; [apply prefix_nil |].
      split; [reflexivity |]. intros [H | H]; [done | discriminate]. }
    set (bs := CleanVersions.batches 1000 (key :: keys)).
    destruct (delete_loop_prefix delete_objects bs) as [Hp Hr].
    split; [| split; [exact Hp | split]].
    - clear. induction bs as [|b bs IH]; cbn [CleanVersions.delete_loop]; [by left |].
      destruct (delete_objects b); [| by right].
      destruct (CleanVersions.delete_loop delete_objects bs). exact IH.
    - intros Ho. rewrite (Hr Ho). apply batches_concat. lia.
    - intros [H | H]; [done | discriminate]. }
  destruct Hmain as (H1 & H2 & H3 & H4).
  split; [exact H1 |]. split; [exact H2 |]. split; [| split; [exact H3 | exact H4]].
  intros batch key Hb Hk. apply objects_to_delete_listed.
  rewrite <- (batches_concat 1000 (CleanVersions.objects_to_delete pattern pages)) by lia.
  apply (elem_of_concat_2 key batch); [exact Hk |].
  destruct H2 as [k ->]. apply elem_of_app. by left.
Qed.

(** X26.  The version is matched as a substring: cleaning one version also
    selects the keys of every version whose number starts with the same
    characters (cleaning 0.1.9 selects the gradients of 0.1.90). *)
Theorem cleanup_selects_versions_with_the_same_start (version version' key : string) :
  String.prefix version version' = true ->
  CleanVersions.selected (CleanVersions.version_pattern_of version') key = true ->
  CleanVersions.selected (CleanVersions.version_pattern_of version) key = true.
Proof.
  intros Hp Hs. apply string_prefix_inv in Hp as [ext ->].
  unfold CleanVersions.selected, CleanVersions.version_pattern_of in *.
  apply andb_true_iff in Hs as [Hc Hw]. rewrite Hw, andb_true_r.
  rewrite <- string_append_assoc in Hc. by apply contains_shorter in Hc.
Qed.

(** A gradient of version 0.1.90 is selected, and deleted, when version
    0.1.9 is cleaned. *)
Lemma cleanup_selects_versions_with_the_same_start_witness :
  let key := "gradient-3-7-v0.1.90.pt"%string in
  CleanVersions.selected (CleanVersions.version_pattern_of CleanVersions.__version__) key = true /\
  CleanVersions.selected (CleanVersions.version_pattern_of "0.1.90") key = true.
Proof.
  intros key.
  assert (H : CleanVersions.selected (CleanVersions.version_pattern_of "0.1.90") key = true)
    by reflexivity.
  split; [| exact H].
  apply (cleanup_selects_versions_with_the_same_start CleanVersions.__version__ "0.1.90" key);
    [reflexivity | exact H].
Defined.

(** * Further properties of one window *)

(** X27.  In an evaluation phase that completes, the weights are sent only
    in a window in which they are due: twice after a scored gradient (right
    after the scoring and again at step 17), once after a missing
    submission; every vector sent is the one the branch taken computes from
    the scores and the evaluated set as the phase leaves them. *)
Theorem weights_are_sent_as_computed (Batch : Type)
    (forward : Model -> Batch -> option Q)
    (decode : string -> Tensor -> Tensor -> Tensor -> option Tensor)
    (batch_decode : string -> Tensor -> list Tensor -> list Tensor -> option Tensor)
    (lr_at : nat -> Q)
    (w : Window Batch) (s s' : Validator) :
  evaluation_phase Batch forward decode batch_decode lr_at w s = (Val tt, s') ->
  sent_weights (emitted s')
  = (if weights_due s
     then replicate (if has_submission w then 2 else 1) (weights_of (has_submission w) s')
     else []) ++ sent_weights (emitted s).
Proof.
  intros H.
  destruct (random_choice (eval_peers s) (choice_draw w)) as [u|e] eqn:Hu.
  2: { unfold evaluation_phase, bind, get, lift in H. rewrite Hu in H. discriminate. }
  destruct (evaluation_phase_outcome Batch forward decode batch_decode lr_at w s u Hu)
    as (m' & E & _).
  rewrite H in E.
  pose proof (try_body_sends Batch forward decode batch_decode lr_at s w u s eq_refl) as Hb.
  destruct (try_body Batch forward decode batch_decode lr_at w u s) as [r t].
  cbn [fst snd] in E. injection E as <- ->. exact Hb.
Qed.

(** The toy validator in its third window (weights are due every third
    window) scores the gradient of peer 1: the same vector is sent twice. *)
Lemma weights_are_sent_as_computed_witness :
  let s := with_eval_peers [1%nat] (example_validator [0; 1 # 2; 0] ∅) in
  let w := example_window [1%nat] [] (Some (Some example_gradient)) in
  let s' := snd (toy_evaluation_phase w s) in
  sent_weights (emitted s')
  = [weights_after_evaluation (moving_avg_scores s') (evaluated_uids s');
     weights_after_evaluation (moving_avg_scores s') (evaluated_uids s')].
Proof.
  intros s w s'.
  assert (H : toy_evaluation_phase w s = (Val tt, s')) by (vm_compute; reflexivity).
  apply (weights_are_sent_as_computed Q toy_forward toy_decode toy_batch_decode toy_lr
           w s s') in H.
  exact H.
Defined.


